(** * codelayers: the ingestion pipeline, embedded and verified

    A shallow embedding of the ingestion subsystem of the repository
    (discovery, structural extraction, chunk assembly and the staged
    orchestrator) together with the properties its specification states.

    - [PyStr]     the string and path primitives of Python the code relies on
    - [Discovery] [discovery.py]: [discover_files], [compute_module_path]
    - [Parser]    [parser.py]: the [PythonExtractor] visitor
    - [Messages]  [messages.py]: [create_entity_messages_with_jedi]
    - [Runner]    [runner.py]: [run_ingestion]                              *)

From Stdlib Require Import String Ascii ZArith QArith List Lia.
From stdpp Require Import base gmap sets list strings pretty.

Set Default Proof Using "Type".
Set Warnings "-register-all".

(* ===================================================================== *)
(** * Python strings and [pathlib] paths                                  *)
(* ===================================================================== *)

Module PyStr.

(** A Python [str] is modelled by [string]; one character of the model stands
    for one character of the Python string.  [len] returns a Python [int]. *)
Definition len (s : string) : Z := Z.of_nat (String.length s).

(** Truthiness of a [str]: the empty string is falsy. *)
Definition truthy (s : string) : bool := negb (String.eqb s "").

(** [s[:n]] and [s[n:]] for a non-negative [n]. *)
Fixpoint take_chars (n : nat) (s : string) : string :=
  match n, s with
  | S n', String a s' => String a (take_chars n' s')
  | _, _ => EmptyString
  end.

Fixpoint drop_chars (n : nat) (s : string) : string :=
  match n, s with
  | S n', String _ s' => drop_chars n' s'
  | _, _ => s
  end.

Definition slice_to (n : Z) (s : string) : string := take_chars (Z.to_nat n) s.
Definition slice_from (n : Z) (s : string) : string := drop_chars (Z.to_nat n) s.

(** [sep.join(l)]. *)
Definition join (sep : string) (l : list string) : string := String.concat sep l.

(** [s.rfind(c)] for a one-character [c]: [None] stands for [-1]. *)
Fixpoint rfind (c : ascii) (s : string) : option nat :=
  match s with
  | EmptyString => None
  | String a s' =>
      match rfind c s' with
      | Some i => Some (S i)
      | None => if Ascii.eqb a c then Some 0 else None
      end
  end.

(** [s.split(c)] for a one-character separator. *)
Fixpoint split (c : ascii) (s : string) : list string :=
  match s with
  | EmptyString => [EmptyString]
  | String a s' =>
      if Ascii.eqb a c then EmptyString :: split c s'
      else match split c s' with
           | x :: xs => String a x :: xs
           | [] => [String a EmptyString]
           end
  end.

(** [c not in s]. *)
Fixpoint free_of (c : ascii) (s : string) : bool :=
  match s with
  | EmptyString => true
  | String a s' => negb (Ascii.eqb a c) && free_of c s'
  end.

(** [str.isspace] on one character (code points below 256). *)
Definition is_space (a : ascii) : bool :=
  let n := nat_of_ascii a in
  ((9 <=? n) && (n <=? 13)) || ((28 <=? n) && (n <=? 32))
  || (n =? 133) || (n =? 160).

Fixpoint lstrip (s : string) : string :=
  match s with
  | String a s' => if is_space a then lstrip s' else s
  | EmptyString => EmptyString
  end.

Fixpoint rstrip (s : string) : string :=
  match s with
  | EmptyString => EmptyString
  | String a s' =>
      match rstrip s' with
      | EmptyString => if is_space a then EmptyString else String a EmptyString
      | r => String a r
      end
  end.

(** [s.strip()]. *)
Definition strip (s : string) : string := rstrip (lstrip s).

(** ** [pathlib]: a path is the tuple of its [parts]. *)
Definition Path := list string.

(** [p.name]: the final component, [""] when there is none.  For the bare
    anchor [["/"]] pathlib answers [""] where this gives ["/"]: the paths
    read here are files and directories below a repository, and only a
    repository that is the file-system root itself would differ. *)
Definition name (p : Path) : string := List.last p EmptyString.

(** [p.parts[:-1]]. *)
Definition parent_parts (p : Path) : list string := removelast p.

(** The index pathlib splits a file name at: [i = name.rfind('.')], used
    only when [0 < i < len(name) - 1]. *)
Definition suffix_index (nm : string) : option nat :=
  match rfind "."%char nm with
  | Some i =>
      if (0 <? Z.of_nat i)%Z && (Z.of_nat i <? len nm - 1)%Z then Some i
      else None
  | None => None
  end.

(** [p.suffix] and [p.stem]. *)
Definition suffix (p : Path) : string :=
  match suffix_index (name p) with
  | Some i => drop_chars i (name p)
  | None => EmptyString
  end.

Definition stem (p : Path) : string :=
  match suffix_index (name p) with
  | Some i => take_chars i (name p)
  | None => name p
  end.

(** [p.relative_to(root)]: [None] stands for the [ValueError] raised when
    the parts of [root] do not begin the parts of [p].  pathlib also refuses
    an absolute [p] against the empty relative [root]; the files of a walk
    are built from their root, so that pair does not arise there. *)
Fixpoint relative_to (p root : Path) : option Path :=
  match root, p with
  | [], _ => Some p
  | r :: root', x :: p' => if String.eqb r x then relative_to p' root' else None
  | _ :: _, [] => None
  end.

(** [str(p)] on a POSIX system: the root part ["/"] is an anchor, not a
    component, and the empty path prints as ["."]. *)
Definition path_str (p : Path) : string :=
  match p with
  | [] => "."
  | "/" :: rest => "/" +:+ join "/" rest
  | _ => join "/" p
  end.

End PyStr.

(* ===================================================================== *)
(** * Discovery: [discovery.py]                                           *)
(* ===================================================================== *)

Module Discovery.
Import PyStr.

Definition DEFAULT_EXCLUDE_DIRS : gset string :=
  {[ ".git"; "__pycache__"; ".venv"; "venv"; "node_modules"; ".pytest_cache";
     ".mypy_cache"; ".tox"; "dist"; "build"; "env"; ".eggs"; "*.egg-info";
     ".ruff_cache"; ".hypothesis" ]}.

Definition PYTHON_EXTS : gset string := {[ ".py" ]}.
Definition DOC_EXTS : gset string := {[ ".md"; ".rst"; ".txt" ]}.
Definition CONFIG_FILES : gset string :=
  {[ "pyproject.toml"; "setup.py"; "setup.cfg"; "requirements.txt"; "Pipfile";
     "poetry.lock"; "tox.ini"; "pytest.ini" ]}.

(** [FileKind]: the [kind] literal and the typed dictionary. *)
Inductive Kind := python | documentation | configuration.

#[global] Instance Kind_eq_dec : EqDecision Kind.
Proof. solve_decision. Defined.

Record FileKind := { path : Path; kind : Kind }.

(** The directory tree below the repository root, as [rglob] sees it. *)
Inductive fsnode :=
| File (nm : string)
| Dir (nm : string) (children : list fsnode).

(** [base.rglob("*")]: every entry below [base], directories included, each
    as the full path [base / ...] paired with [is_file()]. *)
Fixpoint rglob_node (base : Path) (n : fsnode) : list (Path * bool) :=
  match n with
  | File nm => [(base ++ [nm], true)]
  | Dir nm children =>
      (base ++ [nm], false)
        :: (fix walk (l : list fsnode) : list (Path * bool) :=
              match l with
              | [] => []
              | c :: l' => rglob_node (base ++ [nm]) c ++ walk l'
              end) children
  end.

Definition rglob (base : Path) (tree : list fsnode) : list (Path * bool) :=
  flat_map (rglob_node base) tree.

(** [any(excl in path.parts for excl in excludes)]. *)
Definition in_excluded_dir (excludes : gset string) (p : Path) : bool :=
  bool_decide (set_Exists (fun excl => excl ∈ p) excludes).

(** The classification cascade of [discover_files] (the [if]/[elif] chain). *)
Definition classify (p : Path) : option Kind :=
  if bool_decide (suffix p ∈ PYTHON_EXTS) then Some python
  else if bool_decide (suffix p ∈ DOC_EXTS) then Some documentation
  else if bool_decide (name p ∈ CONFIG_FILES) then Some configuration
  else None.

(** [excludes = DEFAULT_EXCLUDE_DIRS.copy()], updated with [extra_excludes]
    when that list is truthy. *)
Definition excludes_of (extra_excludes : list string) : gset string :=
  match extra_excludes with
  | [] => DEFAULT_EXCLUDE_DIRS
  | _ => DEFAULT_EXCLUDE_DIRS ∪ list_to_set extra_excludes
  end.

(** The body of the [for path in repo_path.rglob("*")] loop, one entry. *)
Definition discover_entry (excludes : gset string) (e : Path * bool)
  : list FileKind :=
  let '(p, is_file) := e in
  if in_excluded_dir excludes p then []
  else if negb is_file then []
  else match classify p with
       | Some k => [{| path := p; kind := k |}]
       | None => []
       end.

Definition discover_files (repo_path : Path) (tree : list fsnode)
    (extra_excludes : list string) : list FileKind :=
  let excludes := excludes_of extra_excludes in
  flat_map (discover_entry excludes) (rglob repo_path tree).

(** [compute_module_path]; [None] is the [ValueError] of [relative_to]. *)
Definition module_path_of_rel (rel_path : Path) : string :=
  let parts := parent_parts rel_path in
  let parts :=
    if negb (String.eqb (stem rel_path) "__init__")
    then parts ++ [stem rel_path] else parts in
  match parts with
  | [] => stem rel_path
  | _ => join "." parts
  end.

Definition compute_module_path (file_path repo_path : Path) : option string :=
  match relative_to file_path repo_path with
  | Some rel_path => Some (module_path_of_rel rel_path)
  | None => None
  end.

End Discovery.

(* ===================================================================== *)
(** * Structural extraction: [parser.py]                                  *)
(* ===================================================================== *)

Module Parser.
Import PyStr.

(** ** The syntax tree, as far as [PythonExtractor] inspects it *)

(** Expressions in decorator, base-class and annotation position. *)
Inductive expr :=
| Name (value : string)
| Attribute (value : expr) (attr : string)
| Call (func : expr)
| OtherExpr (code : string).

(** [Parameters.star_arg] is a [Param] (written [*args]), a [ParamStar]
    (the bare [*]) or, when the signature has neither, the enum member
    [MaybeSentinel.DEFAULT]. *)
Inductive star_arg_t :=
| MaybeSentinel_DEFAULT
| ParamStar
| Param (nm : string).

Record Parameters := {
  params : list string;
  star_arg : star_arg_t;
  kwonly_params : list string;
  star_kwarg : option string;
  posonly_params : list string
}.

(** A [FunctionDef] / [ClassDef] node: its own attributes, its docstring
    ([get_docstring()]), its source text ([module.code_for_node(node)]) and
    its position metadata ([None] when the lookup raises). *)
Record FunctionDefNode := {
  fd_name : string;
  fd_decorators : list expr;
  fd_docstring : option string;
  fd_asynchronous : bool;
  fd_params : Parameters;
  fd_returns : option expr;
  fd_code : string;
  fd_pos : option (Z * Z)
}.

Record ClassDefNode := {
  cd_name : string;
  cd_bases : list expr;
  cd_decorators : list expr;
  cd_docstring : option string;
  cd_code : string;
  cd_pos : option (Z * Z)
}.

(** Statements: the two definitions the visitor reacts to, and every other
    statement with the statements nested in it. *)
Inductive stmt :=
| ClassDef (node : ClassDefNode) (body : list stmt)
| FunctionDef (node : FunctionDefNode) (body : list stmt)
| OtherStmt (body : list stmt).

(** ** The extracted entities (the dictionaries [fn] and [cls]) *)

Record FunctionEntity := {
  fn_name : string;
  fn_docstring : string;
  fn_signature : string;
  fn_decorators : list string;
  fn_parameters : list string;
  fn_return_annotation : option string;
  fn_code_body : string;
  fn_pos : option Z * option Z
}.

Record ClassEntity := {
  cls_name : string;
  cls_docstring : string;
  cls_bases : list string;
  cls_decorators : list string;
  cls_methods : list FunctionEntity;
  cls_code_body : string;
  cls_pos : option Z * option Z
}.

(** The visitor object.  [classes] owns the class dictionaries; an entry of
    [class_stack] is a reference to one of them, modelled by its index in
    [classes] (the list only ever grows at its end). *)
Record Extractor := {
  class_stack : list nat;
  function_stack : list string;
  classes : list ClassEntity;
  functions : list FunctionEntity
}.

Definition empty_extractor : Extractor :=
  {| class_stack := []; function_stack := []; classes := []; functions := [] |}.

(** The truncation marker and the cap of [visit_ClassDef] / [visit_FunctionDef]. *)
Definition TRUNCATION_MARKER : string :=
  String (ascii_of_nat 10) "... (truncated)".
Definition BODY_LIMIT : Z := 10000.

(** [# Get code body (truncate if too large)]. *)
Definition truncate_body (code_body : string) : string :=
  if (BODY_LIMIT <? len code_body)%Z
  then slice_to BODY_LIMIT code_body +:+ TRUNCATION_MARKER
  else code_body.

Section Visitor.

(** [str(node)] and [module.code_for_node(node)] of an expression node are
    libcst's renderings; the extractor only copies them. *)
Variable node_str : expr -> string.
Variable code_for_node : expr -> string.

(** [_render_attribute]: [chain value ++ [attr]] joined by dots. *)
Fixpoint attribute_chain (e : expr) : list string :=
  match e with
  | Attribute v a => attribute_chain v ++ [a]
  | Name s => [s]
  | _ => []
  end.

Definition _render_attribute (value : expr) (attr : string) : string :=
  join "." (attribute_chain value ++ [attr]).

(** One round of the decorator loop: what it appends to [decorators]. *)
Definition decorator_entry (d : expr) : list string :=
  match d with
  | Name v => [v]
  | Attribute v a => [_render_attribute v a]
  | Call (Name v) => [v]
  | Call (Attribute v a) => [_render_attribute v a]
  | Call _ => []
  | OtherExpr _ => [node_str d]
  end.

Definition render_decorators (ds : list expr) : list string :=
  flat_map decorator_entry ds.

(** [# Build signature]: the list [params], block by block.  The [star_arg]
    block runs when [star_arg] is truthy and has an attribute [name]: a
    [Param] has one (a [Name] node), a [ParamStar] has none, and the enum
    member [MaybeSentinel.DEFAULT] is truthy and has the attribute [name] of
    every enum member, the string ["DEFAULT"]. *)
Definition build_params (p : Parameters) : list string :=
  let l := [] in
  let l := match params p with [] => l | _ => l ++ params p end in
  let l := match kwonly_params p with
           | [] => l
           | _ => (l ++ ["*"]) ++ kwonly_params p
           end in
  let l := match star_arg p with
           | Param nm => l ++ ["*" +:+ nm]
           | ParamStar => l
           | MaybeSentinel_DEFAULT => l ++ ["*" +:+ "DEFAULT"]
           end in
  let l := match star_kwarg p with
           | Some nm => l ++ ["**" +:+ nm]
           | None => l
           end in
  l.

Definition render_annotation (a : expr) : string :=
  match a with
  | Name v => v
  | Attribute v at_ => _render_attribute v at_
  | _ => strip (code_for_node a)
  end.

Definition build_signature (is_async : bool) (nm : string)
    (ps : list string) (ret_annotation : option string) : string :=
  let sig := (if is_async then "async " else "") +:+ "def " +:+ nm
             +:+ "(" +:+ join ", " ps +:+ ")" in
  match ret_annotation with
  | Some r => if truthy r then sig +:+ " -> " +:+ r else sig
  | None => sig
  end.

Definition position (pos : option (Z * Z)) : option Z * option Z :=
  match pos with
  | Some (start_line, end_line) => (Some start_line, Some end_line)
  | None => (None, None)
  end.

(** The dictionary [fn] that [visit_FunctionDef] builds. *)
Definition function_entity (node : FunctionDefNode) : FunctionEntity :=
  let ps := build_params (fd_params node) in
  let ret_annotation := option_map render_annotation (fd_returns node) in
  {| fn_name := fd_name node;
     fn_docstring := default "" (fd_docstring node);
     fn_signature :=
       build_signature (fd_asynchronous node) (fd_name node) ps ret_annotation;
     fn_decorators := render_decorators (fd_decorators node);
     fn_parameters := ps;
     fn_return_annotation := ret_annotation;
     fn_code_body := truncate_body (fd_code node);
     fn_pos := position (fd_pos node) |}.

(** The dictionary [cls] that [visit_ClassDef] builds. *)
Definition class_entity (node : ClassDefNode) : ClassEntity :=
  {| cls_name := cd_name node;
     cls_docstring := default "" (cd_docstring node);
     cls_bases :=
       map (fun b => match b with Name v => v | _ => node_str b end)
           (cd_bases node);
     cls_decorators := render_decorators (cd_decorators node);
     cls_methods := [];
     cls_code_body := truncate_body (cd_code node);
     cls_pos := position (cd_pos node) |}.

Definition add_method (fn : FunctionEntity) (c : ClassEntity) : ClassEntity :=
  {| cls_name := cls_name c; cls_docstring := cls_docstring c;
     cls_bases := cls_bases c; cls_decorators := cls_decorators c;
     cls_methods := cls_methods c ++ [fn];
     cls_code_body := cls_code_body c; cls_pos := cls_pos c |}.

(** [visit_ClassDef]: the new dictionary goes to [classes] and, the same
    object, on top of [class_stack]. *)
Definition visit_ClassDef (node : ClassDefNode) (self : Extractor) : Extractor :=
  {| class_stack := class_stack self ++ [length (classes self)];
     function_stack := function_stack self;
     classes := classes self ++ [class_entity node];
     functions := functions self |}.

Definition leave_ClassDef (self : Extractor) : Extractor :=
  {| class_stack := removelast (class_stack self);
     function_stack := function_stack self;
     classes := classes self;
     functions := functions self |}.

(** [visit_FunctionDef]: with a class on the stack the function is appended
    to the [methods] of [class_stack[-1]], otherwise to [functions]. *)
Definition visit_FunctionDef (node : FunctionDefNode) (self : Extractor)
  : Extractor :=
  let fn := function_entity node in
  match last (class_stack self) with
  | Some top =>
      {| class_stack := class_stack self;
         function_stack := function_stack self ++ [fd_name node];
         classes := alter (add_method fn) top (classes self);
         functions := functions self |}
  | None =>
      {| class_stack := class_stack self;
         function_stack := function_stack self ++ [fd_name node];
         classes := classes self;
         functions := functions self ++ [fn] |}
  end.

Definition leave_FunctionDef (self : Extractor) : Extractor :=
  {| class_stack := class_stack self;
     function_stack := removelast (function_stack self);
     classes := classes self;
     functions := functions self |}.

(** The depth-first walk of the visitor: [visit_X], the children in source
    order, [leave_X]. *)
Fixpoint visit (s : stmt) (self : Extractor) : Extractor :=
  let fix visit_all (l : list stmt) (self : Extractor) : Extractor :=
    match l with
    | [] => self
    | c :: l' => visit_all l' (visit c self)
    end in
  match s with
  | ClassDef node body => leave_ClassDef (visit_all body (visit_ClassDef node self))
  | FunctionDef node body =>
      leave_FunctionDef (visit_all body (visit_FunctionDef node self))
  | OtherStmt body => visit_all body self
  end.

Definition visit_body (l : list stmt) (self : Extractor) : Extractor :=
  fold_left (fun self c => visit c self) l self.

End Visitor.

(** ** [_parse_with_libcst] *)

(** A parsed module: its statements, what the constructor and the import
    visitors read off it (module docstring, rendered import lines), and
    whether wrapping it with its metadata or walking it raises (libcst
    recurses over the tree: a [RecursionError] on deeply nested
    expressions). *)
Record Module_ := {
  mod_body : list stmt;
  mod_docstring : string;
  mod_imports : list string;
  mod_walk_raises : bool
}.

Record ParsedPython := {
  file_path : string;
  module_path : string;
  module_docstring : string;
  imports : list string;
  pp_classes : list ClassEntity;
  pp_functions : list FunctionEntity;
  source_code : string
}.

(** [parsed] is the outcome of [cst.parse_module(source)]: [None] for a
    [ParserSyntaxError].  Every exception of the [try] block, also one
    raised by [MetadataWrapper] or by [wrapper.visit], is caught and turned
    into [None]. *)
Definition _parse_with_libcst (node_str code_for_node : expr -> string)
    (source : string) (parsed : option Module_) (file_path repo_path : Path)
  : option ParsedPython :=
  match parsed with
  | None => None
  | Some module =>
      match relative_to file_path repo_path,
            Discovery.compute_module_path file_path repo_path with
      | Some rel_path, Some module_path =>
          if mod_walk_raises module then None
          else
            let extractor :=
              visit_body node_str code_for_node (mod_body module)
                         empty_extractor in
            Some {| file_path := path_str rel_path;
                    module_path := module_path;
                    module_docstring := mod_docstring module;
                    imports := mod_imports module;
                    pp_classes := classes extractor;
                    pp_functions := functions extractor;
                    source_code := source |}
      | _, _ => None
      end
  end.

(** ** The reading of the specification: parameters in declaration order *)

(** The parameter list as Python's grammar lays it out: positional-only
    parameters and their [/], positional parameters, then [*name] or the bare
    [*], then the keyword-only parameters, then [**name]. *)
Definition declared_order (p : Parameters) : list string :=
  (match posonly_params p with [] => [] | l => l ++ ["/"] end)
  ++ params p
  ++ (match star_arg p with
      | Param nm => ["*" +:+ nm]
      | ParamStar => ["*"]
      | MaybeSentinel_DEFAULT => []
      end)
  ++ kwonly_params p
  ++ (match star_kwarg p with Some nm => ["**" +:+ nm] | None => [] end).

End Parser.

(* ===================================================================== *)
(** * Chunk assembly: [messages.py]                                       *)
(* ===================================================================== *)

Module Messages.
Import PyStr Parser.

Definition NL : string := String (ascii_of_nat 10) EmptyString.

(** A value of [type_annotations]: a dictionary read through
    [.get("inferred_types", [])] and [.get("declared_type")]. *)
Record TypeInfo := {
  declared_type : option string;
  inferred_types : option (list string)
}.

(** A reference site: line, column and the text of the line. *)
Record Reference := { ref_line : Z; ref_column : Z; ref_context : string }.

(** The three containers chunk assembly reads from an analysis. *)
Record Containers := {
  type_annotations : gmap string TypeInfo;
  references : gmap string (list Reference);
  definitions : gmap string TypeInfo
}.

Record JediAnalysis := {
  ja_file_path : string;
  ja_module_path : string;
  ja_containers : Containers
}.

(** The ad hoc [EmptyJediAnalysis] object. *)
Definition EmptyJediAnalysis : Containers :=
  {| type_annotations := ∅; references := ∅; definitions := ∅ |}.

(** [CodeMessage]: the text chunks, the speaker of its metadata (the
    recipients are always empty) and the tags. *)
Record CodeMessage := {
  text_chunks : list string;
  speaker : string;
  tags : list string
}.

(** [[t for t in d.get("inferred_types", []) if t]]. *)
Definition inferred_of (t : TypeInfo) : list string :=
  filter (fun s => truthy s = true) (default [] (inferred_types t)).

(** ["\n\n".join(bit for bit in summary_bits if bit)], with the fallback. *)
Definition summary_of (summary_bits : list string) (fallback : string) : string :=
  let summary_text :=
    join (NL +:+ NL) (filter (fun s => truthy s = true) summary_bits) in
  if truthy summary_text then summary_text else fallback.

(** [x["docstring"] and x["docstring"].strip()] guarding the first bit. *)
Definition docstring_bits (doc : string) : list string :=
  if truthy doc && truthy (strip doc) then [strip doc] else [].

(** [code_text = x["code_body"] or ""], with the fallback. *)
Definition code_text_of (code_body fallback : string) : string :=
  if truthy (strip code_body) then code_body else fallback.

(** The inner loop over [parameters] that fills [param_info]. *)
Definition param_info_of (ja : Containers) (fname : string)
    (parameters : list string) : list string :=
  flat_map (fun param =>
    match type_annotations ja !! (fname +:+ "." +:+ param) with
    | Some type_data =>
        match inferred_of type_data with
        | [] => []
        | inferred => [param +:+ ": " +:+ join ", " inferred]
        end
    | None => []
    end) parameters.

Definition param_bits (ja : Containers) (fname : string)
    (parameters : list string) : list string :=
  match param_info_of ja fname parameters with
  | [] => []
  | param_info => ["Inferred parameter types:" +:+ NL +:+ join NL param_info]
  end.

Definition class_message (ja : Containers) (parsed : ParsedPython)
    (cls : ClassEntity) : CodeMessage :=
  let cls_key := module_path parsed +:+ "." +:+ cls_name cls in
  let summary_bits :=
    docstring_bits (cls_docstring cls)
    ++ (match type_annotations ja !! cls_key with
        | Some type_info =>
            match inferred_of type_info with
            | [] => []
            | inferred => ["Type hints: " +:+ join ", " inferred]
            end
        | None => []
        end)
    ++ (match references ja !! cls_key with
        | Some refs =>
            ["Referenced " +:+ pretty (length refs) +:+ " time(s) in codebase"]
        | None => []
        end)
    ++ (match cls_decorators cls with
        | [] => []
        | ds => ["Decorators: "
                   +:+ join ", " (filter (fun d => truthy d = true) ds)]
        end) in
  let summary_text :=
    summary_of summary_bits ("Class " +:+ cls_name cls +:+ " summary unavailable.") in
  let bases_str :=
    match cls_bases cls with
    | [] => ""
    | bs => "(" +:+ join ", " bs +:+ ")"
    end in
  let signature_text := strip ("class " +:+ cls_name cls +:+ bases_str) in
  let signature_text :=
    if truthy signature_text then signature_text
    else "class " +:+ cls_name cls in
  let code_text :=
    code_text_of (cls_code_body cls)
                 ("class " +:+ cls_name cls +:+ " body unavailable.") in
  {| text_chunks := [summary_text; signature_text; code_text];
     speaker := module_path parsed +:+ ":" +:+ cls_name cls;
     tags := ["class"; "python"; cls_name cls; module_path parsed] |}.

Definition method_message (ja : Containers) (parsed : ParsedPython)
    (cls : ClassEntity) (method : FunctionEntity) : CodeMessage :=
  let summary_bits :=
    docstring_bits (fn_docstring method)
    ++ param_bits ja (fn_name method) (fn_parameters method) in
  let summary_text :=
    summary_of summary_bits
               ("Method " +:+ fn_name method +:+ " summary unavailable.") in
  let signature_text :=
    if truthy (strip (fn_signature method)) then strip (fn_signature method)
    else fn_name method in
  let code_text :=
    code_text_of (fn_code_body method)
                 ("Method " +:+ fn_name method +:+ " body unavailable.") in
  {| text_chunks := [summary_text; signature_text; code_text];
     speaker := module_path parsed +:+ ":" +:+ cls_name cls +:+ "."
                +:+ fn_name method;
     tags := ["method"; "python"; fn_name method; cls_name cls] |}.

Definition function_message (ja : Containers) (parsed : ParsedPython)
    (func : FunctionEntity) : CodeMessage :=
  let summary_bits :=
    docstring_bits (fn_docstring func)
    ++ param_bits ja (fn_name func) (fn_parameters func)
    ++ (match type_annotations ja !! (fn_name func +:+ ".__return__") with
        | Some ret_data =>
            match declared_type ret_data with
            | Some t => if truthy t then ["Return type: " +:+ t] else []
            | None => []
            end
        | None => []
        end) in
  let summary_text :=
    summary_of summary_bits
               ("Function " +:+ fn_name func +:+ " summary unavailable.") in
  let signature_text :=
    if truthy (strip (fn_signature func)) then strip (fn_signature func)
    else fn_name func in
  let code_text :=
    code_text_of (fn_code_body func)
                 ("Function " +:+ fn_name func +:+ " body unavailable.") in
  {| text_chunks := [summary_text; signature_text; code_text];
     speaker := module_path parsed +:+ ":" +:+ fn_name func;
     tags := ["function"; "python"; fn_name func; module_path parsed] |}.

(** [create_entity_messages_with_jedi]: a missing analysis is replaced by
    the empty containers; then one message per class, each followed by one
    per method, then one per top-level function. *)
Definition create_entity_messages_with_jedi (parsed : ParsedPython)
    (jedi_analysis : option JediAnalysis) (project_name : option string)
  : list CodeMessage :=
  let ja :=
    match jedi_analysis with
    | None => EmptyJediAnalysis
    | Some j => ja_containers j
    end in
  flat_map (fun cls =>
      class_message ja parsed cls
        :: map (method_message ja parsed cls) (cls_methods cls))
    (pp_classes parsed)
  ++ map (function_message ja parsed) (pp_functions parsed).

(** [create_module_message]. *)
Definition MODULE_LIMIT : Z := 50000.

Definition create_module_message (parsed : ParsedPython)
    (project_name : option string) : CodeMessage :=
  let summary_text :=
    if truthy (module_docstring parsed)
    then "Module docstring:" +:+ NL +:+ strip (module_docstring parsed)
    else "Module docstring: (none provided)" in
  let class_names := map cls_name (pp_classes parsed) in
  let func_names := map fn_name (pp_functions parsed) in
  let overview_parts :=
    (match class_names with
     | [] => []
     | _ => ["Classes: " +:+ join ", " class_names]
     end)
    ++ (match func_names with
        | [] => []
        | _ => ["Functions: " +:+ join ", " func_names]
        end) in
  let detail_sections :=
    (match imports parsed with
     | [] => []
     | l => ["Imports:" +:+ NL +:+ join NL l]
     end)
    ++ (match overview_parts with
        | [] => []
        | l => ["Overview:" +:+ NL +:+ join NL l]
        end) in
  let detail_text :=
    join (NL +:+ NL)
         (filter (fun s => truthy (strip s) = true) detail_sections) in
  let detail_text :=
    if truthy detail_text then detail_text
    else "No imports or symbol overview available." in
  let code_text := source_code parsed in
  let code_text :=
    if truthy code_text && (MODULE_LIMIT <? len code_text)%Z
    then slice_to MODULE_LIMIT code_text +:+ TRUNCATION_MARKER
    else code_text in
  let code_text :=
    if truthy (strip code_text) then code_text
    else "Module source unavailable." in
  {| text_chunks := [summary_text; detail_text; code_text];
     speaker := if truthy (module_path parsed) then module_path parsed
                else file_path parsed;
     tags := ["module"; "python"; default "" project_name] |}.

(** [parse_text_file]; [content] is what [read_text] returns, [None] when it
    raises (the exception is caught and [None] returned). *)
Definition parse_text_file (content : option string)
    (file_path repo_path : Path) (kind : string)
    (project_name : option string) : option CodeMessage :=
  match content with
  | None => None
  | Some content =>
      if negb (truthy content) || negb (truthy (strip content)) then None
      else
        match relative_to file_path repo_path with
        | None => None
        | Some rel =>
            let rel_path := path_str rel in
            let content :=
              if (MODULE_LIMIT <? len content)%Z
              then slice_to MODULE_LIMIT content +:+ TRUNCATION_MARKER
              else content in
            Some {| text_chunks := [content];
                    speaker := rel_path;
                    tags := [kind; suffix file_path; rel_path] |}
        end
  end.

(** What identifies a chunk and what it takes from the syntax alone: the
    speaker, the tags, and the signature and code segments. *)
Definition syntactic_part (m : CodeMessage) : string * list string * list string :=
  (speaker m, tags m, drop 1 (text_chunks m)).

End Messages.

(* ===================================================================== *)
(** * The orchestrator: [runner.py]                                       *)
(* ===================================================================== *)

Module Runner.
Import PyStr Discovery Parser Messages.

(** ** Events *)

Inductive Status := pending | active | complete | error.

(** [StageState]: the status and the progress percentage (the exact quotient
    the float approximates).  The [detail] text is presentation only and is
    not part of the embedding. *)
Record StageState := { status : Status; progress : Q }.

Record IngestResult := {
  files_processed : Z;
  messages_created : Z;
  symbols_indexed : Z;
  semrefs_added : Z;
  db_path : string;
  failures : list (string * string)
}.

(** The events; the summary text and the duration that accompany the
    completion event are presentation and wall-clock time. *)
Inductive Event :=
| IngestionProgress (stage : string) (state : StageState)
| IngestionComplete (result : IngestResult)
| IngestionError (error : string) (stage : string).

(** ** The collaborators *)

(** The outcome of a call that may raise. *)
Inductive Result (A : Type) :=
| Ok (a : A)
| Err (e : string).
Arguments Ok {A} a.
Arguments Err {A} e.

(** The outcome of awaiting a collaborator: its result, or an exception
    outside [Exception] raised at the await ([asyncio.CancelledError],
    [KeyboardInterrupt]), which [except Exception] does not catch. *)
Inductive Await (A : Type) :=
| Done (r : Result A)
| Interrupt (e : string).
Arguments Done {A} r.
Arguments Interrupt {A} e.
Coercion Done : Result >-> Await.

(** Everything a run reads from outside: the arguments of [run_ingestion],
    the file system, libcst, Jedi and the index collaborator.
    - [cancel_event]: [is_set()] as observed at the n-th poll of the run;
    - [fs_fault]: an error raised by the directory walk, if any;
    - [read_text]: the text of a file, [None] when reading raises;
    - [parse_module]: [cst.parse_module], [None] for a syntax error;
    - [analyze]: [analyze_python_file_with_jedi], which catches everything;
      the parse and analysis tasks are gathered before their loops and the
      two gathers are taken to complete;
    - [create_conversation], [add_messages_with_indexing]: the index
      collaborator, awaited; the latter returns
      [(semrefs_added, messages_added)] for the n-th batch it is handed. *)
Record Env := {
  repo_path : Path;
  output_db : option string;
  cancel_event : option (nat -> bool);
  repo_exists : bool;
  tree : list fsnode;
  fs_fault : option string;
  read_text : Path -> option string;
  parse_module : string -> option Module_;
  node_str : expr -> string;
  code_for_node : expr -> string;
  analyze : Path -> ParsedPython -> option JediAnalysis;
  create_conversation : Await unit;
  add_messages_with_indexing : nat -> list CodeMessage -> Await (Z * Z)
}.

(** ** The generator as a computation *)

(** What a run leaves behind: the events yielded so far, the number of times
    the cancellation flag was polled, and the batches handed to the index. *)
Record World := {
  events : list Event;
  polls : nat;
  index_calls : list (list CodeMessage)
}.

Definition initial_world : World :=
  {| events := []; polls := 0; index_calls := [] |}.

(** A step either goes on with a value, executes [return], raises an
    [Exception], or is interrupted by an exception outside [Exception]. *)
Inductive Outcome (A : Type) :=
| Value (a : A)
| Returned
| Raised (e : string)
| Interrupted (e : string).
Arguments Value {A} a.
Arguments Returned {A}.
Arguments Raised {A} e.
Arguments Interrupted {A} e.

Definition Gen (A : Type) : Type := World -> World * Outcome A.

Definition ret {A} (a : A) : Gen A := fun w => (w, Value a).

Definition bind {A B} (m : Gen A) (k : A -> Gen B) : Gen B :=
  fun w =>
    match m w with
    | (w', Value a) => k a w'
    | (w', Returned) => (w', Returned)
    | (w', Raised e) => (w', Raised e)
    | (w', Interrupted e) => (w', Interrupted e)
    end.

Notation "x <- m ;; k" := (bind m (fun x => k))
  (at level 100, m at next level, right associativity).
Notation "m ;;; k" := (bind m (fun _ => k))
  (at level 100, right associativity).

Definition yield (e : Event) : Gen unit :=
  fun w => ({| events := events w ++ [e]; polls := polls w;
               index_calls := index_calls w |}, Value tt).

Definition return_ {A} : Gen A := fun w => (w, Returned).
Definition raise {A} (e : string) : Gen A := fun w => (w, Raised e).
Definition interrupt {A} (e : string) : Gen A := fun w => (w, Interrupted e).

(** [await] of a collaborator's answer. *)
Definition await {A} (answer : Await A) : Gen A :=
  match answer with
  | Done (Ok a) => ret a
  | Done (Err e) => raise e
  | Interrupt e => interrupt e
  end.

Definition progress_event (stage : string) (st : Status) (p : Q) : Event :=
  IngestionProgress stage {| status := st; progress := p |}.

(** [done / total * 100]. *)
Definition percent (done total : Z) : Q :=
  Qred (Qmult (Qdiv (inject_Z done) (inject_Z total)) (inject_Z 100)).

(** [batch_size = 50] and the slices [all_messages[i : i + batch_size]]. *)
Definition batch_size : nat := 50.

Fixpoint batches_of (fuel : nat) (l : list CodeMessage) : list (list CodeMessage) :=
  match fuel, l with
  | S fuel', _ :: _ => take batch_size l :: batches_of fuel' (drop batch_size l)
  | _, _ => []
  end.

Definition kind_str (k : Kind) : string :=
  match k with
  | python => "python"
  | documentation => "documentation"
  | configuration => "configuration"
  end.

Definition is_text_kind (k : Kind) : bool :=
  match k with python => false | _ => true end.

Section Run.

Variable env : Env.

(** [if cancel_event and cancel_event.is_set(): return]. *)
Definition check_cancel : Gen unit :=
  fun w =>
    match cancel_event env with
    | None => (w, Value tt)
    | Some is_set =>
        let w' := {| events := events w; polls := S (polls w);
                     index_calls := index_calls w |} in
        if is_set (polls w) then (w', Returned) else (w', Value tt)
    end.

(** [discover_files(repo_path, [])]. *)
Definition discover : Gen (list FileKind) :=
  match fs_fault env with
  | Some e => raise e
  | None => ret (discover_files (repo_path env) (tree env) [])
  end.

(** [parse_python_file]: read, then [_parse_with_libcst]; any failure is
    [None]. *)
Definition parse_python_file (file_path : Path) : option ParsedPython :=
  match read_text env file_path with
  | None => None
  | Some source =>
      _parse_with_libcst (node_str env) (code_for_node env) source
                         (parse_module env source) file_path (repo_path env)
  end.

(** The loop over the gathered parse results. *)
Fixpoint parse_loop (total : Z) (i : Z)
    (results : list (Path * option ParsedPython))
    (all_parsed : list (Path * ParsedPython))
    (failures : list (string * string))
  : Gen (list (Path * ParsedPython) * list (string * string)) :=
  match results with
  | [] => ret (all_parsed, failures)
  | (file, result) :: rest =>
      check_cancel ;;;
      let all_parsed' :=
        match result with
        | Some r => all_parsed ++ [(file, r)]
        | None => all_parsed
        end in
      let failures' :=
        match result with
        | Some _ => failures
        | None => failures ++ [(path_str file, "Parse failed")]
        end in
      (if ((i + 1) mod 50 =? 0)%Z || (i =? total - 1)%Z
       then yield (progress_event "parsing" active (percent (i + 1) total))
       else ret tt) ;;;
      parse_loop total (i + 1)%Z rest all_parsed' failures'
  end.

(** The loop over the gathered analyses. *)
Fixpoint jedi_loop (total : Z) (i : Z)
    (results : list (option JediAnalysis))
    (all_jedi_analyses : list (option JediAnalysis))
  : Gen (list (option JediAnalysis)) :=
  match results with
  | [] => ret all_jedi_analyses
  | jedi_result :: rest =>
      check_cancel ;;;
      (if ((i + 1) mod 25 =? 0)%Z || (i =? total - 1)%Z
       then yield (progress_event "type_analysis" active (percent (i + 1) total))
       else ret tt) ;;;
      jedi_loop total (i + 1)%Z rest (all_jedi_analyses ++ [jedi_result])
  end.

Definition nonempty_chunks (m : CodeMessage) : bool :=
  match text_chunks m with [] => false | _ => true end.

(** The loop that assembles the chunks of the parsed files. *)
Fixpoint message_loop (project_name : option string)
    (all_jedi_analyses : list (option JediAnalysis))
    (n_parsed total_items : Z) (i : nat) (processed : Z)
    (items : list (Path * ParsedPython)) (all_messages : list CodeMessage)
  : Gen (list CodeMessage * Z) :=
  match items with
  | [] => ret (all_messages, processed)
  | (file, parsed) :: rest =>
      check_cancel ;;;
      let module_message := create_module_message parsed project_name in
      let all_messages :=
        if nonempty_chunks module_message
        then all_messages ++ [module_message] else all_messages in
      match all_jedi_analyses !! i with
      | None => raise "list index out of range"
      | Some jedi_analysis =>
          let entity_messages :=
            create_entity_messages_with_jedi parsed jedi_analysis project_name in
          let all_messages :=
            all_messages ++ filter (fun m => nonempty_chunks m = true) entity_messages in
          let processed := (processed + 1)%Z in
          (if (processed mod 25 =? 0)%Z || (processed =? n_parsed)%Z
           then yield (progress_event "message_creation" active
                                      (percent processed total_items))
           else ret tt) ;;;
          message_loop project_name all_jedi_analyses n_parsed total_items
                       (S i) processed rest all_messages
      end
  end.

(** The loop over the documentation and configuration files. *)
Fixpoint text_loop (project_name : option string) (files : list FileKind)
    (all_messages : list CodeMessage) : Gen (list CodeMessage) :=
  match files with
  | [] => ret all_messages
  | f :: rest =>
      check_cancel ;;;
      let all_messages :=
        if is_text_kind (kind f) then
          match parse_text_file (read_text env (path f)) (path f)
                                (repo_path env) (kind_str (kind f)) project_name with
          | Some msg =>
              if nonempty_chunks msg then all_messages ++ [msg] else all_messages
          | None => all_messages
          end
        else all_messages in
      text_loop project_name rest all_messages
  end.

(** [await conversation.add_messages_with_indexing(batch)]: the call is
    recorded, then it answers or raises. *)
Definition add_batch (batch : list CodeMessage) : Gen (Z * Z) :=
  fun w =>
    let w' := {| events := events w; polls := polls w;
                 index_calls := index_calls w ++ [batch] |} in
    await (add_messages_with_indexing env (length (index_calls w)) batch) w'.

(** The loop over the batches. *)
Fixpoint index_loop (total_batches : Z) (batch_num : Z)
    (batches : list (list CodeMessage)) (semrefs messages_added_total : Z)
  : Gen Z :=
  match batches with
  | [] => ret semrefs
  | batch :: rest =>
      check_cancel ;;;
      yield (progress_event "indexing" active
                            (percent (batch_num - 1) total_batches)) ;;;
      result <- add_batch batch ;;
      let '(semrefs_added, messages_added) := result in
      yield (progress_event "indexing" active
                            (percent batch_num total_batches)) ;;;
      index_loop total_batches (batch_num + 1)%Z rest
                 (semrefs + semrefs_added)%Z
                 (messages_added_total + messages_added)%Z
  end.

Definition zlen {A} (l : list A) : Z := Z.of_nat (length l).

(** The body of the [try] block of [run_ingestion]. *)
Definition run_body : Gen unit :=
  if negb (repo_exists env) then
    yield (IngestionError
             ("Repository path does not exist: " +:+ path_str (repo_path env))
             "discovery") ;;;
    return_
  else
    let repo_name := name (repo_path env) in
    let project_name := Some repo_name in
    (* Discovery *)
    yield (progress_event "discovery" active 0) ;;;
    check_cancel ;;;
    files <- discover ;;
    yield (progress_event "discovery" complete 100) ;;;
    check_cancel ;;;
    (* Parsing *)
    yield (progress_event "parsing" active 0) ;;;
    let python_files :=
      map path (filter (fun f => kind f = python) files) in
    let results := map (fun p => (p, parse_python_file p)) python_files in
    parsed_and_failed <- parse_loop (zlen python_files) 0 results [] [] ;;
    let '(all_parsed, failures) := parsed_and_failed in
    yield (progress_event "parsing" complete 100) ;;;
    (* Type analysis, only when something was parsed *)
    all_jedi_analyses <-
      (match all_parsed with
       | [] => ret []
       | _ =>
           check_cancel ;;;
           yield (progress_event "type_analysis" active 0) ;;;
           let jedi_results :=
             map (fun fp => analyze env (fst fp) (snd fp)) all_parsed in
           all_jedi <- jedi_loop (zlen all_parsed) 0 jedi_results [] ;;
           yield (progress_event "type_analysis" complete 100) ;;;
           ret all_jedi
       end) ;;
    (* Message creation *)
    check_cancel ;;;
    yield (progress_event "message_creation" active 0) ;;;
    let total_items :=
      (zlen all_parsed
       + zlen (filter (fun f => is_text_kind (kind f) = true) files))%Z in
    created <- message_loop project_name all_jedi_analyses (zlen all_parsed)
                            total_items 0 0 all_parsed [] ;;
    let '(all_messages, processed) := created in
    all_messages <- text_loop project_name files all_messages ;;
    yield (progress_event "message_creation" complete 100) ;;;
    check_cancel ;;;
    let symbols_count :=
      fold_right Z.add 0%Z
        (map (fun fp => (zlen (pp_classes (snd fp))
                         + zlen (pp_functions (snd fp)))%Z) all_parsed) in
    (* Indexing *)
    yield (progress_event "indexing" active 0) ;;;
    let db_path :=
      default (repo_name +:+ "_codebase.db") (output_db env) in
    _ <- await (create_conversation env) ;;
    let total_batches :=
      ((zlen all_messages + Z.of_nat batch_size - 1) / Z.of_nat batch_size)%Z in
    semrefs_added <-
      index_loop total_batches 1
                 (batches_of (length all_messages) all_messages) 0 0 ;;
    yield (progress_event "indexing" complete 100) ;;;
    yield (IngestionComplete
             {| files_processed := zlen files;
                messages_created := zlen all_messages;
                symbols_indexed := symbols_count;
                semrefs_added := semrefs_added;
                db_path := db_path;
                failures := failures |}).

(** [run_ingestion]: the [try] block, and the handler [except Exception]
    that turns an exception into one last event; an exception outside
    [Exception] leaves the generator as it is. *)
Definition run_ingestion : World :=
  match run_body initial_world with
  | (w, Raised e) =>
      {| events := events w ++ [IngestionError e "unknown"];
         polls := polls w; index_calls := index_calls w |}
  | (w, _) => w
  end.

End Run.

(** ** Reading the event stream *)

Definition stage_of (e : Event) : option string :=
  match e with
  | IngestionProgress stage _ => Some stage
  | IngestionError _ stage => Some stage
  | IngestionComplete _ => None
  end.

Definition is_error (e : Event) : bool :=
  match e with IngestionError _ _ => true | _ => false end.

(** The stage a run is in after the events [evs]: that of the latest
    progress event. *)
Fixpoint stage_in_progress (evs : list Event) : option string :=
  match evs with
  | [] => None
  | e :: rest =>
      match stage_in_progress rest with
      | Some s => Some s
      | None => match e with
                | IngestionProgress stage _ => Some stage
                | _ => None
                end
      end
  end.

Definition later_stage (e : Event) : bool :=
  match stage_of e with
  | Some s => String.eqb s "type_analysis" || String.eqb s "message_creation"
              || String.eqb s "indexing"
  | None => false
  end.

End Runner.

(* ===================================================================== *)
(** * Structural extraction: imports and call edges                       *)
(* ===================================================================== *)

Module ParserMore.
Import PyStr Parser.

(** An [ImportAlias]: the imported name and the optional [as] name. *)
Record ImportAlias := {
  ia_name : expr;
  ia_asname : option expr
}.

(** [node.names] of an import: the star or the aliases. *)
Inductive import_names :=
| ImportStar
| ImportAliases (names : list ImportAlias).

(** An [ImportFrom] node: the number of leading dots, the module
    expression if any, and the names. *)
Record ImportFromNode := {
  if_relative : nat;
  if_module : option expr;
  if_names : import_names
}.

(** A [Call] node: the called expression and the start line of its position
    metadata ([None] when the lookup raises). *)
Record CallNode := {
  call_func : expr;
  call_line : option Z
}.

(** An entry of [calls]. *)
Record CallEdge := {
  caller : string;
  callee : string;
  line : Z
}.

Section Visitor.

Variable node_str : expr -> string.

(** The [as] part of an alias. *)
Definition as_part (asname : option expr) : string :=
  match asname with
  | None => ""
  | Some (Name v) => " as " +:+ v
  | Some e => " as " +:+ node_str e
  end.

(** [visit_Import]: one line per alias. *)
Definition import_line (a : ImportAlias) : string :=
  let mod_name :=
    match ia_name a with
    | Name v => v
    | Attribute v at_ => _render_attribute v at_
    | e => node_str e
    end in
  "import " +:+ mod_name +:+ as_part (ia_asname a).

Definition visit_Import (names : import_names) (imports : list string)
  : list string :=
  match names with
  | ImportStar => imports
  | ImportAliases l => imports ++ map import_line l
  end.

(** ["." * len(node.relative)]. *)
Fixpoint dots (n : nat) : string :=
  match n with
  | O => ""
  | S n' => "." +:+ dots n'
  end.

(** [visit_ImportFrom]: one line for the star, one line for a non-empty list
    of names, none otherwise. *)
Definition from_name (a : ImportAlias) : string :=
  let imp_name :=
    match ia_name a with
    | Name v => v
    | e => node_str e
    end in
  imp_name +:+ as_part (ia_asname a).

Definition visit_ImportFrom (node : ImportFromNode) (imports : list string)
  : list string :=
  let module :=
    match if_module node with
    | Some (Name v) => v
    | Some (Attribute v at_) => _render_attribute v at_
    | Some e => node_str e
    | None => ""
    end in
  let mod_str := dots (if_relative node) +:+ module in
  match if_names node with
  | ImportStar => imports ++ ["from " +:+ mod_str +:+ " import *"]
  | ImportAliases l =>
      match map from_name l with
      | [] => imports
      | names =>
          imports ++ ["from " +:+ mod_str +:+ " import " +:+ join ", " names]
      end
  end.

End Visitor.

(** The name of the class on top of the stack: the entry of [class_stack]
    is the class dictionary itself, so the name is always there. *)
Definition top_class_name (self : Extractor) : option string :=
  match last (class_stack self) with
  | Some top => cls_name <$> classes self !! top
  | None => None
  end.

(** [visit_Call]: an edge is recorded for a call of a name or a dotted
    attribute, inside a function, whose line is known. *)
Definition visit_Call (module_path : string) (node : CallNode)
    (self : Extractor) (calls : list CallEdge) : list CallEdge :=
  let callee_text :=
    match call_func node with
    | Name v => Some v
    | Attribute v a => Some (_render_attribute v a)
    | _ => None
    end in
  match callee_text with
  | None => calls
  | Some callee_text =>
      if negb (truthy callee_text) then calls
      else
        let caller_id :=
          match last (function_stack self) with
          | None => None
          | Some fn =>
              match top_class_name self with
              | Some cls => Some (module_path +:+ ":" +:+ cls +:+ "." +:+ fn)
              | None => Some (module_path +:+ ":" +:+ fn)
              end
          end in
        match caller_id, call_line node with
        | Some caller_id, Some l =>
            if (l =? 0)%Z then calls
            else calls ++ [{| caller := caller_id; callee := callee_text;
                              line := l |}]
        | _, _ => calls
        end
  end.

End ParserMore.

(* ===================================================================== *)
(** * Properties                                                          *)
(* ===================================================================== *)

Module PyStrFacts.
Import PyStr.

Lemma append_cons a s t : String a s +:+ t = String a (s +:+ t).
Proof. reflexivity. Qed.

Lemma append_empty_l t : EmptyString +:+ t = t.
Proof. reflexivity. Qed.

Lemma append_empty_r s : s +:+ EmptyString = s.
Proof.
  induction s as [|a s IH]; [reflexivity|]. now rewrite append_cons, IH.
Qed.

Lemma take_drop_chars n s : take_chars n s +:+ drop_chars n s = s.
Proof.
  revert s; induction n as [|n IH]; intros [|a s]; simpl; try reflexivity.
  now rewrite append_cons, IH.
Qed.

Lemma length_take_chars n s :
  String.length (take_chars n s) = Nat.min n (String.length s).
Proof.
  revert s; induction n as [|n IH]; intros [|a s]; simpl; try reflexivity.
  now rewrite IH.
Qed.

Lemma take_chars_all n s : String.length s <= n -> take_chars n s = s.
Proof.
  revert s; induction n as [|n IH]; intros [|a s]; simpl; intros H;
    try reflexivity; try lia.
  rewrite IH; [reflexivity | lia].
Qed.

Lemma length_append s t :
  String.length (s +:+ t) = String.length s + String.length t.
Proof.
  induction s as [|a s IH]; [reflexivity|].
  rewrite append_cons. simpl. now rewrite IH.
Qed.

Lemma stem_suffix p : stem p +:+ suffix p = name p.
Proof.
  unfold stem, suffix. destruct (suffix_index (name p)) as [i|].
  - apply take_drop_chars.
  - apply append_empty_r.
Qed.

Lemma name_snoc (d : list string) (f : string) : name (d ++ [f]) = f.
Proof. unfold name. now rewrite last_last. Qed.

Lemma parent_parts_snoc (d : list string) (f : string) :
  parent_parts (d ++ [f]) = d.
Proof. unfold parent_parts. apply removelast_last. Qed.

(** Splitting undoes joining when no component contains the separator. *)
Lemma split_free c s : free_of c s = true -> split c s = [s].
Proof.
  induction s as [|a s IH]; simpl; [reflexivity|].
  intros [Ha Hs]%andb_prop. destruct (Ascii.eqb a c); [discriminate|].
  now rewrite IH.
Qed.

Lemma split_app_sep c x y :
  free_of c x = true ->
  split c (x +:+ String c y) = x :: split c y.
Proof.
  induction x as [|a x IH].
  - intros _. rewrite append_empty_l. simpl. now rewrite Ascii.eqb_refl.
  - intros [Ha Hx]%andb_prop. rewrite append_cons. simpl.
    destruct (Ascii.eqb a c); [discriminate|].
    now rewrite IH.
Qed.

Lemma split_join c (l : list string) :
  l <> [] ->
  Forall (fun s => free_of c s = true) l ->
  split c (join (String c EmptyString) l) = l.
Proof.
  induction l as [|x l IH]; [congruence|].
  intros _ Hall. inversion Hall as [|? ? Hx Hl]; subst.
  destruct l as [|y l].
  - simpl. now apply split_free.
  - change (join (String c EmptyString) (x :: y :: l))
      with (x +:+ String c (join (String c EmptyString) (y :: l))).
    rewrite split_app_sep by assumption.
    now rewrite IH.
Qed.

Lemma join_inj c (l1 l2 : list string) :
  l1 <> [] -> l2 <> [] ->
  Forall (fun s => free_of c s = true) l1 ->
  Forall (fun s => free_of c s = true) l2 ->
  join (String c EmptyString) l1 = join (String c EmptyString) l2 ->
  l1 = l2.
Proof.
  intros N1 N2 F1 F2 E.
  rewrite <- (split_join c l1), <- (split_join c l2) by assumption.
  now rewrite E.
Qed.

Lemma relative_to_app (p root rel : Path) :
  relative_to p root = Some rel -> p = root ++ rel.
Proof.
  revert p; induction root as [|r root IH]; intros p H.
  - destruct p; simpl in H; now inversion H.
  - destruct p as [|x p]; simpl in H; [discriminate|].
    destruct (String.eqb r x) eqn:E; [|discriminate].
    apply String.eqb_eq in E. subst x. simpl. f_equal. now apply IH.
Qed.

Lemma relative_to_prefix (root rel : Path) :
  relative_to (root ++ rel) root = Some rel.
Proof.
  induction root as [|r root IH]; simpl; [now destruct rel|].
  now rewrite String.eqb_refl.
Qed.

Lemma name_app (d rel : Path) : rel <> [] -> name (d ++ rel) = name rel.
Proof.
  intros H. destruct (exists_last H) as (l & x & ->).
  rewrite app_assoc. now rewrite !name_snoc.
Qed.

Lemma stem_name_only (p q : Path) : name p = name q -> stem p = stem q.
Proof. unfold stem. now intros ->. Qed.

Lemma suffix_name_only (p q : Path) : name p = name q -> suffix p = suffix q.
Proof. unfold suffix. now intros ->. Qed.

End PyStrFacts.

(* ===================================================================== *)
(** * Discovery: exclusion, classification, module paths                  *)
(* ===================================================================== *)

Module DiscoveryProps.
Import PyStr PyStrFacts Discovery.

(** ** The result of [discover_files], entry by entry *)

Lemma discover_entry_inv (excludes : gset string) (p : Path) (is_file : bool)
    (f : FileKind) :
  In f (discover_entry excludes (p, is_file)) ->
  in_excluded_dir excludes p = false /\ is_file = true
  /\ path f = p /\ classify p = Some (kind f).
Proof.
  unfold discover_entry.
  destruct (in_excluded_dir excludes p); [intros []|].
  destruct is_file; simpl; [|intros []].
  destruct (classify p) as [k|]; [|intros []].
  intros [<-|[]]. auto.
Qed.

Lemma discover_files_inv (repo_path : Path) (tree : list fsnode)
    (extra_excludes : list string) (f : FileKind) :
  In f (discover_files repo_path tree extra_excludes) ->
  in_excluded_dir (excludes_of extra_excludes) (path f) = false
  /\ classify (path f) = Some (kind f)
  /\ In (path f, true) (rglob repo_path tree).
Proof.
  unfold discover_files. intros H. apply in_flat_map in H.
  destruct H as ([p b] & Hin & Hf).
  apply discover_entry_inv in Hf. destruct Hf as (Hx & -> & <- & Hc).
  auto.
Qed.

Lemma excludes_of_spec (extra_excludes : list string) (excl : string) :
  excl ∈ excludes_of extra_excludes
  <-> excl ∈ DEFAULT_EXCLUDE_DIRS \/ In excl extra_excludes.
Proof.
  unfold excludes_of. destruct extra_excludes as [|x l].
  - simpl. tauto.
  - rewrite elem_of_union, elem_of_list_to_set, list_elem_of_In. tauto.
Qed.

Lemma discovered_not_excluded (repo_path : Path) (tree : list fsnode)
    (extra_excludes : list string) (f : FileKind) (excl : string) :
  In f (discover_files repo_path tree extra_excludes) ->
  excl ∈ excludes_of extra_excludes ->
  ~ In excl (path f).
Proof.
  intros Hf Hex Hin.
  apply discover_files_inv in Hf. destruct Hf as (Hx & _ & _).
  unfold in_excluded_dir in Hx. apply bool_decide_eq_false in Hx.
  apply Hx. exists excl. split; [assumption|].
  now apply list_elem_of_In.
Qed.

(** C7. [discover_files] returns no file whose path components contain a
    name of the fixed exclusion set or of [extra_excludes]; so a file
    below a directory named as an excluded pattern is never returned, whatever
    its own classification. *)
Theorem discover_skips_excluded (repo_path : Path) (tree : list fsnode)
    (extra_excludes : list string) (f : FileKind) (excl : string) :
  In f (discover_files repo_path tree extra_excludes) ->
  excl ∈ DEFAULT_EXCLUDE_DIRS \/ In excl extra_excludes ->
  ~ In excl (path f).
Proof.
  intros Hf Hex. apply (discovered_not_excluded _ _ _ _ _ Hf).
  now apply excludes_of_spec.
Qed.

(** Every entry that [rglob] finds in a directory has the directory's name
    among its components. *)
Definition node_name (n : fsnode) : string :=
  match n with
  | File nm => nm
  | Dir nm _ => nm
  end.

Lemma fsnode_ind_nested (P : fsnode -> Prop) :
  (forall nm, P (File nm)) ->
  (forall nm children, Forall P children -> P (Dir nm children)) ->
  forall n, P n.
Proof.
  intros Hf Hd. fix IH 1. intros [nm|nm children].
  - apply Hf.
  - apply Hd. induction children as [|c l IHl]; constructor;
      [apply IH|exact IHl].
Qed.

Lemma rglob_node_below (n : fsnode) :
  forall base p b,
    In (p, b) (rglob_node base n) ->
    exists rest, p = base ++ node_name n :: rest.
Proof.
  induction n as [nm|nm children IH] using fsnode_ind_nested; intros base p b H.
  - destruct H as [H|[]]. inversion H; subst. now exists [].
  - change (rglob_node base (Dir nm children))
      with ((base ++ [nm], false)
              :: flat_map (rglob_node (base ++ [nm])) children) in H.
    destruct H as [H|H].
    + inversion H; subst. now exists [].
    + apply in_flat_map in H. destruct H as (c & Hc & Hp).
      rewrite Forall_forall in IH.
      destruct (IH c (proj2 (list_elem_of_In _ _) Hc) _ _ _ Hp) as (rest & ->).
      exists (node_name c :: rest). now rewrite <- app_assoc.
Qed.

(** A directory named as an excluded pattern contributes nothing, whatever
    it contains. *)
Lemma excluded_directory_contributes_nothing (repo_path : Path)
    (nm : string) (children : list fsnode) (extra_excludes : list string) :
  nm ∈ excludes_of extra_excludes ->
  discover_files repo_path [Dir nm children] extra_excludes = [].
Proof.
  intros Hex.
  destruct (discover_files repo_path [Dir nm children] extra_excludes)
    as [|f l] eqn:E; [reflexivity|].
  assert (Hf : In f (discover_files repo_path [Dir nm children] extra_excludes))
    by (rewrite E; now left).
  exfalso. apply (discovered_not_excluded _ _ _ _ nm Hf Hex).
  apply discover_files_inv in Hf. destruct Hf as (_ & _ & Hin).
  unfold rglob in Hin. simpl in Hin. rewrite app_nil_r in Hin.
  destruct (rglob_node_below (Dir nm children) _ _ _ Hin) as (rest & ->).
  apply in_or_app. right. now left.
Qed.

(** A repository with a source file at the top, one in [build/] and one in a
    directory excluded on request. *)
Definition sample_tree : list fsnode :=
  [ File "main.py";
    Dir "build" [ File "gen.py"; Dir "lib" [ File "deep.py" ] ];
    Dir "vendor" [ File "dep.py" ];
    File "setup.py";
    File "requirements.txt";
    File "Pipfile" ].

Definition sample_repo : Path := ["/"; "home"; "repo"].

Example discover_sample :
  discover_files sample_repo sample_tree ["vendor"]
  = [ {| path := sample_repo ++ ["main.py"]; kind := python |};
      {| path := sample_repo ++ ["setup.py"]; kind := python |};
      {| path := sample_repo ++ ["requirements.txt"]; kind := documentation |};
      {| path := sample_repo ++ ["Pipfile"]; kind := configuration |} ].
Proof. vm_compute. reflexivity. Qed.

Lemma discover_skips_excluded_witness :
  ~ In "vendor" (sample_repo ++ ["main.py"])
  /\ ~ In "build" (sample_repo ++ ["main.py"]).
Proof.
  split.
  - apply (discover_skips_excluded sample_repo sample_tree ["vendor"]
             {| path := sample_repo ++ ["main.py"]; kind := python |} "vendor").
    + vm_compute. left. reflexivity.
    + right. simpl. left. reflexivity.
  - apply (discover_skips_excluded sample_repo sample_tree ["vendor"]
             {| path := sample_repo ++ ["main.py"]; kind := python |} "build").
    + vm_compute. left. reflexivity.
    + left. vm_compute. reflexivity.
Defined.

(** ** Classification order *)

Lemma classify_source_first (p : Path) :
  suffix p ∈ PYTHON_EXTS -> classify p = Some python.
Proof.
  intros H. unfold classify. now rewrite (bool_decide_eq_true_2 _ H).
Qed.

(** C10. A discovered file whose name is in the configuration-filename table
    but whose extension is the source extension is classified as [python],
    never as [configuration]: the source-extension table is consulted first. *)
Theorem config_named_source_is_python (repo_path : Path) (tree : list fsnode)
    (extra_excludes : list string) (f : FileKind) :
  In f (discover_files repo_path tree extra_excludes) ->
  name (path f) ∈ CONFIG_FILES ->
  suffix (path f) ∈ PYTHON_EXTS ->
  kind f = python.
Proof.
  intros Hf _ Hs. apply discover_files_inv in Hf. destruct Hf as (_ & Hc & _).
  rewrite (classify_source_first _ Hs) in Hc. now inversion Hc.
Qed.

Lemma config_named_source_is_python_witness :
  kind {| path := sample_repo ++ ["setup.py"]; kind := python |} = python.
Proof.
  apply (config_named_source_is_python sample_repo sample_tree ["vendor"]).
  - vm_compute. right. left. reflexivity.
  - vm_compute. reflexivity.
  - vm_compute. reflexivity.
Defined.

(** The same order puts the documentation table before the configuration
    names: [requirements.txt] is documentation. *)
Example classify_requirements_txt :
  classify (sample_repo ++ ["requirements.txt"]) = Some documentation.
Proof. vm_compute. reflexivity. Qed.

(** ** Module paths *)

(** The reading of the specification: the relative path without its
    extension, joined by dots, and for a package marker the enclosing
    directory. *)
Definition module_path_spec (rel_path : Path) : string :=
  if String.eqb (stem rel_path) "__init__"
  then join "." (parent_parts rel_path)
  else join "." (parent_parts rel_path ++ [stem rel_path]).

Example module_path_nested :
  compute_module_path (sample_repo ++ ["pkg"; "sub"; "mod.py"]) sample_repo
  = Some "pkg.sub.mod".
Proof. vm_compute. reflexivity. Qed.

Example module_path_marker :
  compute_module_path (sample_repo ++ ["pkg"; "sub"; "__init__.py"]) sample_repo
  = Some "pkg.sub".
Proof. vm_compute. reflexivity. Qed.

(** C5, as stated, fails for a package marker directly at the repository
    root: its module path is the stem [__init__], not the (empty) name of the
    enclosing directory. *)
Lemma module_path_root_marker_counterexample :
  compute_module_path (sample_repo ++ ["__init__.py"]) sample_repo
    = Some "__init__"
  /\ compute_module_path (sample_repo ++ ["__init__.py"]) sample_repo
    <> Some (module_path_spec ["__init__.py"]).
Proof. split; vm_compute; [reflexivity | discriminate]. Qed.

Lemma module_path_of_rel_snoc (dirs : list string) (nm : string) :
  module_path_of_rel (dirs ++ [nm])
  = if String.eqb (stem [nm]) "__init__"
    then match dirs with
         | [] => "__init__"
         | _ => join "." dirs
         end
    else join "." (dirs ++ [stem [nm]]).
Proof.
  unfold module_path_of_rel. rewrite parent_parts_snoc.
  rewrite (stem_name_only (dirs ++ [nm]) [nm]) by now rewrite name_snoc.
  destruct (String.eqb (stem [nm]) "__init__") eqn:E; simpl.
  - destruct dirs; [|reflexivity]. now apply String.eqb_eq in E.
  - destruct (dirs ++ [stem [nm]]) eqn:E'; [|reflexivity].
    now destruct dirs.
Qed.

(** C5, amended. For a file below the root with relative path
    [dirs ++ [nm]], the module path is the relative path without its
    extension, joined by dots; for a package marker it is the dotted path of
    the enclosing directory when that is below the root, and the stem
    [__init__] itself when the marker lies directly at the root. *)
Theorem compute_module_path_correct (file_path repo_path : Path)
    (dirs : list string) (nm : string) :
  relative_to file_path repo_path = Some (dirs ++ [nm]) ->
  compute_module_path file_path repo_path
  = Some (if String.eqb (stem [nm]) "__init__"
          then match dirs with
               | [] => "__init__"
               | _ => join "." dirs
               end
          else join "." (dirs ++ [stem [nm]])).
Proof.
  intros Hrel. unfold compute_module_path. rewrite Hrel. f_equal.
  apply module_path_of_rel_snoc.
Qed.

Lemma compute_module_path_correct_witness :
  compute_module_path (sample_repo ++ ["pkg"; "__init__.py"]) sample_repo
  = Some "pkg".
Proof.
  apply (compute_module_path_correct (sample_repo ++ ["pkg"; "__init__.py"])
           sample_repo ["pkg"] "__init__.py").
  vm_compute. reflexivity.
Defined.

End DiscoveryProps.

(* ===================================================================== *)
(** * Structural extraction: truncation, signatures, methods              *)
(* ===================================================================== *)

Module ParserProps.
Import PyStr PyStrFacts Discovery Parser.

(** ** Body truncation *)

Lemma len_append (s t : string) : len (s +:+ t) = (len s + len t)%Z.
Proof. unfold len. rewrite length_append. lia. Qed.

Lemma len_slice_to (n : Z) (s : string) :
  (0 <= n <= len s)%Z -> len (slice_to n s) = n.
Proof.
  unfold len, slice_to. intros H. rewrite length_take_chars. lia.
Qed.

Lemma truncate_body_short (code_body : string) :
  (len code_body <= BODY_LIMIT)%Z -> truncate_body code_body = code_body.
Proof.
  intros H. unfold truncate_body.
  destruct (BODY_LIMIT <? len code_body)%Z eqn:E; [|reflexivity].
  apply Z.ltb_lt in E. lia.
Qed.

Lemma truncate_body_long (code_body : string) :
  (BODY_LIMIT < len code_body)%Z ->
  truncate_body code_body = slice_to BODY_LIMIT code_body +:+ TRUNCATION_MARKER
  /\ len (truncate_body code_body) = (BODY_LIMIT + len TRUNCATION_MARKER)%Z.
Proof.
  intros H. unfold truncate_body.
  pose proof (proj2 (Z.ltb_lt _ _) H) as E. rewrite E. split; [reflexivity|].
  rewrite len_append, len_slice_to; [reflexivity|].
  unfold BODY_LIMIT in *. lia.
Qed.

(** C3. For a function and for a class entity alike, a body of exactly
    10,000 characters is stored as it is; a body of 10,001 characters or more
    is stored as its first 10,000 characters followed by the truncation
    marker, and the stored length is 10000 + len(marker). *)
Theorem stored_body_truncation (node_str code_for_node : expr -> string)
    (fnode : FunctionDefNode) (cnode : ClassDefNode) :
  let fn := function_entity node_str code_for_node fnode in
  let cls := class_entity node_str cnode in
  (len (fd_code fnode) = 10000%Z -> fn_code_body fn = fd_code fnode)
  /\ (len (cd_code cnode) = 10000%Z -> cls_code_body cls = cd_code cnode)
  /\ ((10001 <= len (fd_code fnode))%Z ->
      fn_code_body fn = slice_to 10000 (fd_code fnode) +:+ TRUNCATION_MARKER
      /\ len (fn_code_body fn) = (10000 + len TRUNCATION_MARKER)%Z)
  /\ ((10001 <= len (cd_code cnode))%Z ->
      cls_code_body cls = slice_to 10000 (cd_code cnode) +:+ TRUNCATION_MARKER
      /\ len (cls_code_body cls) = (10000 + len TRUNCATION_MARKER)%Z).
Proof.
  simpl. split; [|split; [|split]]; intros H.
  - apply truncate_body_short. unfold BODY_LIMIT. lia.
  - apply truncate_body_short. unfold BODY_LIMIT. lia.
  - apply truncate_body_long. unfold BODY_LIMIT. lia.
  - apply truncate_body_long. unfold BODY_LIMIT. lia.
Qed.

(** A body of [n] characters. *)
Fixpoint filler (n : nat) : string :=
  match n with
  | O => EmptyString
  | S n' => String "x"%char (filler n')
  end.

Definition no_params : Parameters :=
  {| params := []; star_arg := MaybeSentinel_DEFAULT; kwonly_params := [];
     star_kwarg := None; posonly_params := [] |}.

Definition function_node (nm : string) (ps : Parameters) (code : string)
  : FunctionDefNode :=
  {| fd_name := nm; fd_decorators := []; fd_docstring := None;
     fd_asynchronous := false; fd_params := ps; fd_returns := None;
     fd_code := code; fd_pos := None |}.

Definition class_node (nm : string) (code : string) : ClassDefNode :=
  {| cd_name := nm; cd_bases := []; cd_decorators := []; cd_docstring := None;
     cd_code := code; cd_pos := None |}.

Definition no_render : expr -> string := fun _ => EmptyString.

Lemma stored_body_truncation_witness :
  fn_code_body (function_entity no_render no_render
                  (function_node "f" no_params (filler (Z.to_nat 10000))))
    = filler (Z.to_nat 10000)
  /\ len (cls_code_body (class_entity no_render
                           (class_node "C" (filler (Z.to_nat 10001)))))
    = 10016%Z.
Proof.
  split.
  - apply (stored_body_truncation no_render no_render
             (function_node "f" no_params (filler (Z.to_nat 10000)))
             (class_node "C" (filler (Z.to_nat 10001)))).
    vm_compute. reflexivity.
  - apply (stored_body_truncation no_render no_render
             (function_node "f" no_params (filler (Z.to_nat 10000)))
             (class_node "C" (filler (Z.to_nat 10001)))).
    vm_compute. discriminate.
Defined.

(** ** Signatures *)

(** [def f(a, *args, b, **kw)], as libcst parses it. *)
Definition varargs_then_kwonly : Parameters :=
  {| params := ["a"]; star_arg := Param "args"; kwonly_params := ["b"];
     star_kwarg := Some "kw"; posonly_params := [] |}.

(** C1 at [def f(a, *args, b, **kw): pass]. The rendered parameter list puts
    a bare [*] and the keyword-only [b] before [*args]; the declaration has
    [*args] before [b] and no bare [*]. *)
Theorem signature_moves_kwonly_before_varargs
    (node_str code_for_node : expr -> string) :
  let fn := function_entity node_str code_for_node
              (function_node "f" varargs_then_kwonly "def f(a, *args, b, **kw): pass") in
  fn_parameters fn = ["a"; "*"; "b"; "*args"; "**kw"]
  /\ fn_signature fn = "def f(a, *, b, *args, **kw)"
  /\ declared_order varargs_then_kwonly = ["a"; "*args"; "b"; "**kw"]
  /\ fn_parameters fn <> declared_order varargs_then_kwonly.
Proof. vm_compute. repeat split; discriminate. Qed.

(** Where the two orders agree: a bare [*] before the keyword-only group,
    or [*name] with no keyword-only parameter after it, and no
    positional-only parameter. *)
Lemma build_params_declared_order (p : Parameters) :
  posonly_params p = [] ->
  match star_arg p with
  | ParamStar => kwonly_params p <> []
  | Param _ => kwonly_params p = []
  | MaybeSentinel_DEFAULT => False
  end ->
  build_params p = declared_order p.
Proof.
  destruct p as [ps sa ko sk po]. unfold build_params, declared_order. simpl.
  intros -> H.
  destruct sa; [contradiction| |subst ko].
  - destruct ko as [|k ko]; [congruence|].
    destruct ps, sk; simpl;
      repeat (rewrite <- app_assoc || rewrite app_nil_r || simpl); reflexivity.
  - destruct ps, sk; simpl;
      repeat (rewrite <- app_assoc || rewrite app_nil_r || simpl); reflexivity.
Qed.

(** A signature without any star: the [star_arg] block still runs, on the
    enum member. *)
Example signature_without_star (node_str code_for_node : expr -> string) :
  fn_signature
    (function_entity node_str code_for_node
       (function_node "h"
          {| params := ["a"; "b"]; star_arg := MaybeSentinel_DEFAULT;
             kwonly_params := []; star_kwarg := None; posonly_params := [] |}
          ""))
  = "def h(a, b, *DEFAULT)".
Proof. vm_compute. reflexivity. Qed.

Example signature_bare_star (node_str code_for_node : expr -> string) :
  fn_signature
    (function_entity node_str code_for_node
       (function_node "g"
          {| params := ["a"]; star_arg := ParamStar; kwonly_params := ["b"; "c"];
             star_kwarg := None; posonly_params := [] |} ""))
  = "def g(a, *, b, c)".
Proof. vm_compute. reflexivity. Qed.

(** ** Methods *)

(** The reading of the specification: the function definitions lexically
    nested directly in a class body (statements that are neither a class nor
    a function definition are looked through). *)
Fixpoint direct_functions (s : stmt) : list string :=
  match s with
  | FunctionDef node _ => [fd_name node]
  | ClassDef _ _ => []
  | OtherStmt body =>
      (fix all (l : list stmt) : list string :=
         match l with
         | [] => []
         | c :: l' => direct_functions c ++ all l'
         end) body
  end.

Definition direct_methods (body : list stmt) : list string :=
  flat_map direct_functions body.

Definition def_ (nm : string) (body : list stmt) : stmt :=
  FunctionDef (function_node nm no_params "") body.

Definition class_ (nm : string) (body : list stmt) : stmt :=
  ClassDef (class_node nm "") body.

Definition method_names (c : ClassEntity) : list string :=
  map fn_name (cls_methods c).

(** [class A:] with a method [m] that defines a local [helper]. *)
Definition helper_in_method : list stmt :=
  [ class_ "A" [ def_ "m" [ def_ "helper" [] ] ] ].

(** C2 at that module. The local function of the method is appended to the
    methods of the class: the class ends up with [m] and [helper], although
    only [m] is nested directly in it. *)
Theorem nested_function_becomes_method
    (node_str code_for_node : expr -> string) :
  let self := visit_body node_str code_for_node helper_in_method empty_extractor in
  map (fun c => (cls_name c, method_names c)) (classes self)
    = [("A", ["m"; "helper"])]
  /\ direct_methods [ def_ "m" [ def_ "helper" [] ] ] = ["m"]
  /\ class_stack self = [] /\ function_stack self = [].
Proof. vm_compute. repeat split. Qed.

(** The same attribution on the other branch: a function local to a
    top-level function is listed among the top-level functions. *)
Example nested_function_becomes_toplevel
    (node_str code_for_node : expr -> string) :
  map fn_name
      (functions (visit_body node_str code_for_node
                    [ def_ "f" [ def_ "inner" [] ] ] empty_extractor))
  = ["f"; "inner"].
Proof. vm_compute. reflexivity. Qed.

(** Two classes with a method of the same name: one entry each. *)
Example same_name_two_classes (node_str code_for_node : expr -> string) :
  map (fun c => (cls_name c, method_names c))
      (classes (visit_body node_str code_for_node
                  [ class_ "A" [ def_ "run" [] ]; class_ "B" [ def_ "run" [] ] ]
                  empty_extractor))
  = [("A", ["run"]); ("B", ["run"])].
Proof. vm_compute. reflexivity. Qed.

(** A class nested in a class receives its own methods; the outer class gets
    those that follow once the inner class is left. *)
Example nested_class_methods (node_str code_for_node : expr -> string) :
  map (fun c => (cls_name c, method_names c))
      (classes (visit_body node_str code_for_node
                  [ class_ "A" [ def_ "a1" [];
                                 class_ "B" [ def_ "b1" [] ];
                                 def_ "a2" [] ] ]
                  empty_extractor))
  = [("A", ["a1"; "a2"]); ("B", ["b1"])].
Proof. vm_compute. reflexivity. Qed.

(** ** What the walk computes *)

Section Walk.

Variable node_str : expr -> string.
Variable code_for_node : expr -> string.

Local Abbreviation visit := (visit node_str code_for_node).
Local Abbreviation visit_body := (visit_body node_str code_for_node).
Local Abbreviation function_entity := (function_entity node_str code_for_node).
Local Abbreviation visit_FunctionDef := (visit_FunctionDef node_str code_for_node).
Local Abbreviation visit_ClassDef := (visit_ClassDef node_str).

(** The functions a scope receives from a statement: every function
    definition in it that is not inside a class definition, in source order,
    at any depth of function nesting. *)
Fixpoint owned (s : stmt) : list FunctionEntity :=
  let fix owned_all (l : list stmt) : list FunctionEntity :=
    match l with
    | [] => []
    | c :: l' => owned c ++ owned_all l'
    end in
  match s with
  | FunctionDef node body => function_entity node :: owned_all body
  | ClassDef _ _ => []
  | OtherStmt body => owned_all body
  end.

Definition owned_all (l : list stmt) : list FunctionEntity :=
  flat_map owned l.

Definition add_methods (fs : list FunctionEntity) (c : ClassEntity) : ClassEntity :=
  {| cls_name := cls_name c; cls_docstring := cls_docstring c;
     cls_bases := cls_bases c; cls_decorators := cls_decorators c;
     cls_methods := cls_methods c ++ fs;
     cls_code_body := cls_code_body c; cls_pos := cls_pos c |}.

(** The classes of a statement, outer before inner, each with the functions
    its body owns. *)
Fixpoint classes_of (s : stmt) : list ClassEntity :=
  let fix classes_all (l : list stmt) : list ClassEntity :=
    match l with
    | [] => []
    | c :: l' => classes_of c ++ classes_all l'
    end in
  match s with
  | ClassDef node body =>
      add_methods (owned_all body) (class_entity node_str node)
        :: classes_all body
  | FunctionDef _ body => classes_all body
  | OtherStmt body => classes_all body
  end.

Definition classes_all (l : list stmt) : list ClassEntity :=
  flat_map classes_of l.

(** The effect of a walk on the visitor: functions [fs] go to the class on
    top of the stack, or to [functions] when the stack is empty; classes
    [cs] are appended. *)
Definition attribute (self : Extractor) (fs : list FunctionEntity)
    (cs : list ClassEntity) : Extractor :=
  match last (class_stack self) with
  | Some top =>
      {| class_stack := class_stack self;
         function_stack := function_stack self;
         classes := alter (add_methods fs) top (classes self) ++ cs;
         functions := functions self |}
  | None =>
      {| class_stack := class_stack self;
         function_stack := function_stack self;
         classes := classes self ++ cs;
         functions := functions self ++ fs |}
  end.

(** The references on the stack point into [classes]. *)
Definition stack_ok (self : Extractor) : Prop :=
  match last (class_stack self) with
  | Some top => top < length (classes self)
  | None => True
  end.

Lemma stmt_ind_nested (P : stmt -> Prop) :
  (forall node body, Forall P body -> P (ClassDef node body)) ->
  (forall node body, Forall P body -> P (FunctionDef node body)) ->
  (forall body, Forall P body -> P (OtherStmt body)) ->
  forall s, P s.
Proof.
  intros Hc Hf Ho. fix IH 1. intros [node body|node body|body].
  - apply Hc. induction body as [|c l IHl]; constructor; [apply IH|exact IHl].
  - apply Hf. induction body as [|c l IHl]; constructor; [apply IH|exact IHl].
  - apply Ho. induction body as [|c l IHl]; constructor; [apply IH|exact IHl].
Qed.

Lemma owned_FunctionDef node body :
  owned (FunctionDef node body) = function_entity node :: owned_all body.
Proof. reflexivity. Qed.

Lemma owned_OtherStmt body : owned (OtherStmt body) = owned_all body.
Proof. reflexivity. Qed.

Lemma visit_all_fix body self :
  (fix visit_all (l : list stmt) (self : Extractor) : Extractor :=
     match l with
     | [] => self
     | c :: l' => visit_all l' (visit c self)
     end) body self = visit_body body self.
Proof.
  revert self. induction body as [|c l IH]; intros self; simpl; [reflexivity|].
  apply IH.
Qed.

Lemma add_methods_nil c : add_methods [] c = c.
Proof. destruct c. unfold add_methods. simpl. now rewrite app_nil_r. Qed.

Lemma add_methods_app fs gs c :
  add_methods gs (add_methods fs c) = add_methods (fs ++ gs) c.
Proof. unfold add_methods. simpl. now rewrite app_assoc. Qed.

Lemma add_method_one fn c : add_method fn c = add_methods [fn] c.
Proof. reflexivity. Qed.

Lemma attribute_nil self : attribute self [] [] = self.
Proof.
  unfold attribute. destruct self as [cs fs cl fn]. simpl.
  destruct (last cs); simpl; rewrite !app_nil_r; [|reflexivity].
  now rewrite (list_alter_id _ _ _ add_methods_nil).
Qed.

Lemma attribute_attribute self fs1 cs1 fs2 cs2 :
  stack_ok self ->
  attribute (attribute self fs1 cs1) fs2 cs2
  = attribute self (fs1 ++ fs2) (cs1 ++ cs2).
Proof.
  unfold stack_ok, attribute. destruct self as [cs fs cl fn]. simpl.
  destruct (last cs) as [top|] eqn:E; simpl; rewrite E; intros Hok.
  - f_equal. rewrite alter_app_l by now rewrite length_alter.
    rewrite list_alter_alter_eq, <- app_assoc. f_equal.
    apply list_alter_ext; [|reflexivity]. intros c _. simpl.
    apply add_methods_app.
  - now rewrite <- !app_assoc.
Qed.

Lemma stack_ok_attribute self fs cs :
  stack_ok self -> stack_ok (attribute self fs cs).
Proof.
  unfold stack_ok, attribute. destruct (last (class_stack self)) eqn:E; simpl;
    rewrite E; [|auto].
  rewrite length_app, length_alter. lia.
Qed.

(** Walking a list of statements, given that each of them obeys the rule. *)
Lemma visit_body_attribute (body : list stmt) :
  Forall (fun s => forall self, stack_ok self ->
            visit s self = attribute self (owned s) (classes_of s)) body ->
  forall self, stack_ok self ->
    visit_body body self = attribute self (owned_all body) (classes_all body).
Proof.
  induction 1 as [|c l Hc Hl IH]; intros self Hok.
  - symmetry. apply attribute_nil.
  - change (visit_body (c :: l) self) with (visit_body l (visit c self)).
    rewrite Hc by assumption.
    rewrite IH by now apply stack_ok_attribute.
    now rewrite attribute_attribute.
Qed.

(** The walk of one statement: the functions it owns go to the innermost
    enclosing class, whatever their depth inside other functions. *)
Lemma visit_attribute (s : stmt) :
  forall self, stack_ok self ->
    visit s self = attribute self (owned s) (classes_of s).
Proof.
  induction s as [node body IH|node body IH|body IH] using stmt_ind_nested;
    intros self Hok.
  - (* class *)
    change (visit (ClassDef node body) self)
      with (leave_ClassDef
              ((fix visit_all (l : list stmt) (self : Extractor) : Extractor :=
                  match l with
                  | [] => self
                  | c :: l' => visit_all l' (visit c self)
                  end) body (visit_ClassDef node self))).
    rewrite visit_all_fix.
    rewrite (visit_body_attribute body IH).
    2:{ unfold stack_ok. simpl. rewrite last_snoc, length_app. simpl. lia. }
    change (classes_of (ClassDef node body))
      with (add_methods (owned_all body) (class_entity node_str node)
              :: classes_all body).
    unfold attribute, leave_ClassDef. simpl. rewrite last_snoc. simpl.
    rewrite removelast_last.
    rewrite alter_app_r_alt by lia. rewrite Nat.sub_diag. simpl.
    destruct (last (class_stack self)) as [top|] eqn:E.
    + f_equal. rewrite (list_alter_id _ _ _ add_methods_nil).
      now rewrite <- app_assoc.
    + f_equal; [now rewrite <- app_assoc | now rewrite app_nil_r].
  - (* function *)
    change (visit (FunctionDef node body) self)
      with (leave_FunctionDef
              ((fix visit_all (l : list stmt) (self : Extractor) : Extractor :=
                  match l with
                  | [] => self
                  | c :: l' => visit_all l' (visit c self)
                  end) body (visit_FunctionDef node self))).
    rewrite visit_all_fix, owned_FunctionDef.
    change (classes_of (FunctionDef node body)) with (classes_all body).
    assert (Hv : visit_FunctionDef node self
                 = {| class_stack := class_stack self;
                      function_stack := function_stack self ++ [fd_name node];
                      classes := classes (attribute self [function_entity node] []);
                      functions := functions (attribute self [function_entity node] []) |}).
    { unfold Parser.visit_FunctionDef, attribute.
      destruct (last (class_stack self)); simpl; now rewrite ?app_nil_r. }
    rewrite (visit_body_attribute body IH).
    2:{ rewrite Hv. unfold stack_ok in *. simpl. unfold attribute.
        destruct (last (class_stack self)); simpl; [|exact I].
        rewrite app_nil_r, length_alter. exact Hok. }
    rewrite Hv. unfold leave_FunctionDef, attribute. simpl.
    unfold stack_ok in Hok.
    destruct (last (class_stack self)) as [top|] eqn:E; simpl.
    + rewrite removelast_last. f_equal. rewrite app_nil_r. f_equal.
      rewrite list_alter_alter_eq.
      apply list_alter_ext; [|reflexivity]. intros c _. simpl.
      apply add_methods_app.
    + rewrite removelast_last, !app_nil_r. f_equal. now rewrite <- app_assoc.
  - (* any other statement *)
    change (visit (OtherStmt body) self)
      with ((fix visit_all (l : list stmt) (self : Extractor) : Extractor :=
               match l with
               | [] => self
               | c :: l' => visit_all l' (visit c self)
               end) body self).
    rewrite visit_all_fix, owned_OtherStmt.
    change (classes_of (OtherStmt body)) with (classes_all body).
    now apply visit_body_attribute.
Qed.

(** The extraction of a module: both stacks end empty, [functions] holds
    every function definition that is outside all classes, and each class
    holds every function definition whose innermost enclosing class it is. *)
Lemma visit_body_module (body : list stmt) :
  visit_body body empty_extractor
  = {| class_stack := []; function_stack := [];
       classes := classes_all body; functions := owned_all body |}.
Proof.
  rewrite visit_body_attribute; [reflexivity| |exact I].
  apply Forall_forall. intros s _. apply visit_attribute.
Qed.

End Walk.

(** ** Module paths of the parsed files *)

Lemma parse_module_path (node_str code_for_node : expr -> string)
    (source : string) (parsed : option Module_) (file repo : Path)
    (p : ParsedPython) :
  _parse_with_libcst node_str code_for_node source parsed file repo = Some p ->
  compute_module_path file repo = Some (module_path p).
Proof.
  unfold _parse_with_libcst. destruct parsed as [m|]; [|discriminate].
  destruct (relative_to file repo) as [rel|]; [|discriminate].
  destruct (compute_module_path file repo) as [mp|]; [|discriminate].
  destruct (mod_walk_raises m); [discriminate|].
  intros H. inversion H. reflexivity.
Qed.

(** The claim of C6 for the files of one run. *)
Definition module_paths_unique (repo : Path) (files : list Path) : Prop :=
  forall node_str code_for_node src1 src2 cst1 cst2 f1 f2 p1 p2,
    In f1 files -> In f2 files -> f1 <> f2 ->
    _parse_with_libcst node_str code_for_node src1 cst1 f1 repo = Some p1 ->
    _parse_with_libcst node_str code_for_node src2 cst2 f2 repo = Some p2 ->
    module_path p1 <> module_path p2.

(** A package [pkg/] next to a module [pkg.py]. *)
Definition package_and_module : list fsnode :=
  [ Dir "pkg" [ File "__init__.py" ]; File "pkg.py" ].

Definition python_files (files : list FileKind) : list Path :=
  map path (filter (fun f => kind f = python) files).

Definition empty_module : Module_ :=
  {| mod_body := []; mod_docstring := ""; mod_imports := [];
     mod_walk_raises := false |}.

(** C6, as stated, fails: discovery returns both [pkg/__init__.py] and
    [pkg.py], both parse, and both get the module path [pkg]. *)
Lemma module_path_collision_counterexample :
  ~ module_paths_unique
      DiscoveryProps.sample_repo
      (python_files
         (discover_files DiscoveryProps.sample_repo package_and_module [])).
Proof.
  intros H.
  refine (H no_render no_render "" "" (Some empty_module) (Some empty_module)
            (DiscoveryProps.sample_repo ++ ["pkg"; "__init__.py"])
            (DiscoveryProps.sample_repo ++ ["pkg.py"])
            _ _ _ _ _ eq_refl eq_refl _).
  - vm_compute. left. reflexivity.
  - vm_compute. right. left. reflexivity.
  - vm_compute. discriminate.
  - vm_compute. reflexivity.
Qed.

(** A dotted directory name collides with a nested path in the same way. *)
Example module_path_dotted_collision :
  compute_module_path (DiscoveryProps.sample_repo ++ ["a.b"; "c.py"])
                      DiscoveryProps.sample_repo
  = compute_module_path (DiscoveryProps.sample_repo ++ ["a"; "b"; "c.py"])
                        DiscoveryProps.sample_repo.
Proof. vm_compute. reflexivity. Qed.

(** A file properly below the root none of whose directory names and stem
    contains a dot. *)
Definition dot_free (repo_path file_path : Path) : bool :=
  match relative_to file_path repo_path with
  | Some [] => false
  | Some rel =>
      forallb (free_of ".") (parent_parts rel) && free_of "." (stem rel)
  | None => false
  end.

(** [marker] is the package marker of a directory and [module] is the source
    file named after that directory, beside it.  A directory named
    [__init__] counts only directly below the root: elsewhere the file
    beside it is itself a package marker and names its own directory. *)
Definition shadows (repo_path marker module : Path) : Prop :=
  exists dirs s,
    marker = repo_path ++ dirs ++ [s; "__init__.py"]
    /\ module = repo_path ++ dirs ++ [s +:+ ".py"]
    /\ (s = "__init__" -> dirs = []).

(** The components that [compute_module_path] joins, for a file in the
    directories [dirs] with stem [s]. *)
Definition module_parts (dirs : list string) (s : string) : list string :=
  if String.eqb s "__init__"
  then match dirs with [] => ["__init__"] | _ => dirs end
  else dirs ++ [s].

Lemma append_cancel_r (a b c : string) : a +:+ c = b +:+ c -> a = b.
Proof.
  revert b. induction a as [|x a IH]; intros [|y b] H.
  - reflexivity.
  - apply (f_equal String.length) in H.
    rewrite append_empty_l, append_cons in H. simpl in H.
    rewrite length_append in H. lia.
  - apply (f_equal String.length) in H.
    rewrite append_empty_l, append_cons in H. simpl in H.
    rewrite length_append in H. lia.
  - rewrite !append_cons in H. inversion H; subst. f_equal. now apply IH.
Qed.

Lemma dot_free_inv (repo file : Path) :
  suffix file = ".py" -> dot_free repo file = true ->
  exists dirs s,
    file = repo ++ dirs ++ [s +:+ ".py"]
    /\ Forall (fun x => free_of "." x = true) dirs
    /\ free_of "." s = true
    /\ compute_module_path file repo = Some (join "." (module_parts dirs s)).
Proof.
  intros Hsuf. unfold dot_free.
  destruct (relative_to file repo) as [rel|] eqn:Hrel; [|discriminate].
  intros H.
  destruct (exists_last (l := rel)) as (dirs & nm & ->).
  { intros ->. discriminate H. }
  assert (H' : forallb (free_of ".") (parent_parts (dirs ++ [nm]))
               && free_of "." (stem (dirs ++ [nm])) = true).
  { destruct (dirs ++ [nm]) eqn:E; [discriminate|exact H]. }
  clear H. rewrite parent_parts_snoc in H'.
  rewrite (stem_name_only (dirs ++ [nm]) [nm]) in H' by now rewrite name_snoc.
  apply andb_prop in H'. destruct H' as [Hdirs Hstem].
  pose proof (relative_to_app _ _ _ Hrel) as Hfile.
  assert (Hnm : nm = stem [nm] +:+ ".py").
  { rewrite <- Hsuf, (suffix_name_only file [nm]).
    - rewrite stem_suffix. change [nm] with ([] ++ [nm]). now rewrite name_snoc.
    - rewrite Hfile, app_assoc, name_snoc.
      change [nm] with ([] ++ [nm]). now rewrite name_snoc. }
  exists dirs, (stem [nm]). split; [now rewrite <- Hnm|].
  split.
  { apply Forall_forall. intros x Hx.
    rewrite forallb_forall in Hdirs. apply Hdirs. now apply list_elem_of_In. }
  split; [exact Hstem|].
  unfold compute_module_path. rewrite Hrel.
  rewrite DiscoveryProps.module_path_of_rel_snoc. unfold module_parts.
  destruct (String.eqb (stem [nm]) "__init__"); [|reflexivity].
  now destruct dirs.
Qed.

Lemma module_parts_spec dirs s :
  Forall (fun x => free_of "." x = true) dirs -> free_of "." s = true ->
  module_parts dirs s <> []
  /\ Forall (fun x => free_of "." x = true) (module_parts dirs s).
Proof.
  intros Hd Hs. unfold module_parts.
  destruct (String.eqb s "__init__").
  - destruct dirs as [|d dirs]; [split; [discriminate|]|split; [discriminate|exact Hd]].
    now repeat constructor.
  - split; [now destruct dirs|]. apply Forall_app. split; [exact Hd|].
    now repeat constructor.
Qed.

(** Two files give the same components only as a marker and the file named
    after its directory. *)
Lemma module_parts_eq (d1 d2 : list string) (s1 s2 : string) :
  (d1, s1) <> (d2, s2) ->
  module_parts d1 s1 = module_parts d2 s2
  <-> (s1 = "__init__" /\ d1 = d2 ++ [s2] /\ (s2 = "__init__" -> d2 = []))
      \/ (s2 = "__init__" /\ d2 = d1 ++ [s1] /\ (s1 = "__init__" -> d1 = [])).
Proof.
  intros Hne. unfold module_parts.
  destruct (String.eqb_spec s1 "__init__") as [E1|N1];
    destruct (String.eqb_spec s2 "__init__") as [E2|N2].
  - subst s1 s2. destruct d1 as [|x1 d1], d2 as [|x2 d2].
    + now elim Hne.
    + split.
      * intros H. right. split; [reflexivity|]. split; [now rewrite <- H|auto].
      * intros [(_ & H & _)|(_ & H & _)]; [discriminate H|now rewrite H].
    + split.
      * intros H. left. split; [reflexivity|]. split; [now rewrite H|auto].
      * intros [(_ & H & _)|(_ & H & _)]; [now rewrite H|discriminate H].
    + split.
      * intros H. elim Hne. now rewrite H.
      * intros [(_ & H & Hd)|(_ & H & Hd)]; specialize (Hd eq_refl);
          discriminate Hd.
  - subst s1. split.
    + intros H. left. split; [reflexivity|].
      destruct d1 as [|x1 d1].
      * change ["__init__"] with ([] ++ ["__init__"]) in H.
        apply app_inj_tail in H. destruct H as [_ H]. now elim N2.
      * split; [exact H|]. intros E. now elim N2.
    + intros [(_ & H & _)|(E & _)]; [|now elim N2].
      rewrite H. now destruct d2.
  - subst s2. split.
    + intros H. right. split; [reflexivity|].
      destruct d2 as [|x2 d2].
      * change ["__init__"] with ([] ++ ["__init__"]) in H.
        apply app_inj_tail in H. destruct H as [_ H]. now elim N1.
      * split; [now rewrite H|]. intros E. now elim N1.
    + intros [(E & _)|(_ & H & _)]; [now elim N1|].
      rewrite H. now destruct d1.
  - split.
    + intros H. apply app_inj_tail in H. destruct H as [-> ->]. now elim Hne.
    + intros [(E & _)|(E & _)]; [now elim N1|now elim N2].
Qed.

Lemma shadows_parts repo (d1 d2 : list string) (s1 s2 : string) :
  shadows repo (repo ++ d1 ++ [s1 +:+ ".py"]) (repo ++ d2 ++ [s2 +:+ ".py"])
  <-> s1 = "__init__" /\ d1 = d2 ++ [s2] /\ (s2 = "__init__" -> d2 = []).
Proof.
  split.
  - intros (dirs & s & Hm & Hf & Hs).
    apply app_inv_head in Hm, Hf.
    change (dirs ++ [s; "__init__.py"])
      with (dirs ++ [s] ++ ["__init__.py"]) in Hm.
    rewrite app_assoc in Hm.
    apply app_inj_tail in Hm, Hf. destruct Hm as [-> Hm], Hf as [-> Hf].
    change "__init__.py" with ("__init__" +:+ ".py") in Hm.
    apply append_cancel_r in Hm, Hf. subst s1 s2. auto.
  - intros (-> & -> & Hs). exists d2, s2. split; [|split; [reflexivity|exact Hs]].
    now rewrite <- app_assoc.
Qed.

(** C6, amended. Within a run, two distinct parsed source files none of
    whose directory names and stems contains a dot share their module path
    exactly when one is the package marker of a directory and the other is
    the file named after that directory, beside it. *)
Theorem module_path_unique_up_to_markers
    (node_str code_for_node : expr -> string)
    (repo f1 f2 : Path) (src1 src2 : string) (cst1 cst2 : option Module_)
    (p1 p2 : ParsedPython) :
  suffix f1 = ".py" -> suffix f2 = ".py" ->
  dot_free repo f1 = true -> dot_free repo f2 = true ->
  f1 <> f2 ->
  _parse_with_libcst node_str code_for_node src1 cst1 f1 repo = Some p1 ->
  _parse_with_libcst node_str code_for_node src2 cst2 f2 repo = Some p2 ->
  (module_path p1 = module_path p2
   <-> shadows repo f1 f2 \/ shadows repo f2 f1).
Proof.
  intros S1 S2 P1 P2 Hne Q1 Q2.
  apply parse_module_path in Q1, Q2.
  destruct (dot_free_inv _ _ S1 P1) as (d1 & s1 & -> & F1 & G1 & M1).
  destruct (dot_free_inv _ _ S2 P2) as (d2 & s2 & -> & F2 & G2 & M2).
  rewrite M1 in Q1. rewrite M2 in Q2.
  injection Q1 as E1. injection Q2 as E2. rewrite <- E1, <- E2.
  rewrite !shadows_parts.
  assert (Hpair : (d1, s1) <> (d2, s2)).
  { intros E. inversion E; subst. now elim Hne. }
  rewrite <- (module_parts_eq d1 d2 s1 s2 Hpair).
  destruct (module_parts_spec d1 s1 F1 G1) as [N1 A1].
  destruct (module_parts_spec d2 s2 F2 G2) as [N2 A2].
  split; [|now intros ->].
  intros E. now apply (join_inj "."%char).
Qed.

Lemma module_path_unique_up_to_markers_witness :
  "a.util" = "b.util"
  <-> shadows DiscoveryProps.sample_repo
        (DiscoveryProps.sample_repo ++ ["a"; "util.py"])
        (DiscoveryProps.sample_repo ++ ["b"; "util.py"])
      \/ shadows DiscoveryProps.sample_repo
           (DiscoveryProps.sample_repo ++ ["b"; "util.py"])
           (DiscoveryProps.sample_repo ++ ["a"; "util.py"]).
Proof.
  apply (module_path_unique_up_to_markers no_render no_render
           DiscoveryProps.sample_repo
           (DiscoveryProps.sample_repo ++ ["a"; "util.py"])
           (DiscoveryProps.sample_repo ++ ["b"; "util.py"])
           "" "" (Some empty_module) (Some empty_module)
           {| file_path := "a/util.py"; module_path := "a.util";
              module_docstring := ""; imports := []; pp_classes := [];
              pp_functions := []; source_code := "" |}
           {| file_path := "b/util.py"; module_path := "b.util";
              module_docstring := ""; imports := []; pp_classes := [];
              pp_functions := []; source_code := "" |});
    vm_compute; try reflexivity; discriminate.
Defined.

(** Package markers of different directories, which the amended claim
    covers, and a marker against a module that is not its sibling. *)
Example markers_of_two_packages :
  compute_module_path (DiscoveryProps.sample_repo ++ ["a"; "__init__.py"])
                      DiscoveryProps.sample_repo = Some "a"
  /\ compute_module_path (DiscoveryProps.sample_repo ++ ["b"; "__init__.py"])
                         DiscoveryProps.sample_repo = Some "b"
  /\ compute_module_path (DiscoveryProps.sample_repo ++ ["a"; "b.py"])
                         DiscoveryProps.sample_repo = Some "a.b".
Proof. vm_compute. repeat split; reflexivity. Qed.

End ParserProps.

(* ===================================================================== *)
(** * Chunk assembly without enrichment                                   *)
(* ===================================================================== *)

Module MessagesProps.
Import PyStr Parser Messages.

(** The number of entities of a parsed file: its classes, their methods and
    its top-level functions. *)
Definition entity_count (parsed : ParsedPython) : nat :=
  list_sum (map (fun c => S (length (cls_methods c))) (pp_classes parsed))
  + length (pp_functions parsed).

(** ** The chunk of an entity, from the syntax alone *)

(** [text], or [fallback] when [text] is empty. *)
Definition or_else (text fallback : string) : string :=
  if truthy text then text else fallback.

(** The non-empty [parts], separated by blank lines. *)
Definition paragraphs (parts : list string) : string :=
  join (NL +:+ NL) (filter (fun s => truthy s = true) parts).

Definition decorators_line (decorators : list string) : string :=
  match decorators with
  | [] => ""
  | _ => "Decorators: "
           +:+ join ", " (filter (fun d => truthy d = true) decorators)
  end.

Definition bases_text (bases : list string) : string :=
  match bases with
  | [] => ""
  | _ => "(" +:+ join ", " bases +:+ ")"
  end.

(** The stored body, or [fallback] when the body is blank. *)
Definition body_or (code_body fallback : string) : string :=
  if truthy (strip code_body) then code_body else fallback.

(** The chunk of a class: its docstring and decorators, its header line, its
    body. *)
Definition syntactic_class_chunk (parsed : ParsedPython) (cls : ClassEntity)
  : CodeMessage :=
  {| text_chunks :=
       [ or_else (paragraphs [ strip (cls_docstring cls);
                               decorators_line (cls_decorators cls) ])
                 ("Class " +:+ cls_name cls +:+ " summary unavailable.");
         or_else (strip ("class " +:+ cls_name cls
                         +:+ bases_text (cls_bases cls)))
                 ("class " +:+ cls_name cls);
         body_or (cls_code_body cls)
                 ("class " +:+ cls_name cls +:+ " body unavailable.") ];
     speaker := module_path parsed +:+ ":" +:+ cls_name cls;
     tags := ["class"; "python"; cls_name cls; module_path parsed] |}.

(** The chunk of a method or a function: its docstring, its signature, its
    body. *)
Definition syntactic_function_chunk (label : string) (speaker_ : string)
    (tags_ : list string) (f : FunctionEntity) : CodeMessage :=
  {| text_chunks :=
       [ or_else (strip (fn_docstring f))
                 (label +:+ " " +:+ fn_name f +:+ " summary unavailable.");
         or_else (strip (fn_signature f)) (fn_name f);
         body_or (fn_code_body f)
                 (label +:+ " " +:+ fn_name f +:+ " body unavailable.") ];
     speaker := speaker_;
     tags := tags_ |}.

Definition syntactic_method_chunk (parsed : ParsedPython) (cls : ClassEntity)
    (f : FunctionEntity) : CodeMessage :=
  syntactic_function_chunk "Method"
    (module_path parsed +:+ ":" +:+ cls_name cls +:+ "." +:+ fn_name f)
    ["method"; "python"; fn_name f; cls_name cls] f.

Definition syntactic_toplevel_chunk (parsed : ParsedPython)
    (f : FunctionEntity) : CodeMessage :=
  syntactic_function_chunk "Function"
    (module_path parsed +:+ ":" +:+ fn_name f)
    ["function"; "python"; fn_name f; module_path parsed] f.

(** The chunks of a parsed file built from the syntax alone: each class
    followed by its methods, then the top-level functions. *)
Definition syntactic_chunks (parsed : ParsedPython) : list CodeMessage :=
  flat_map (fun cls =>
      syntactic_class_chunk parsed cls
        :: map (syntactic_method_chunk parsed cls) (cls_methods cls))
    (pp_classes parsed)
  ++ map (syntactic_toplevel_chunk parsed) (pp_functions parsed).

Lemma class_message_syntactic (ja1 ja2 : Containers) parsed cls :
  syntactic_part (class_message ja1 parsed cls)
  = syntactic_part (class_message ja2 parsed cls).
Proof. reflexivity. Qed.

Lemma method_message_syntactic (ja1 ja2 : Containers) parsed cls m :
  syntactic_part (method_message ja1 parsed cls m)
  = syntactic_part (method_message ja2 parsed cls m).
Proof. reflexivity. Qed.

Lemma function_message_syntactic (ja1 ja2 : Containers) parsed f :
  syntactic_part (function_message ja1 parsed f)
  = syntactic_part (function_message ja2 parsed f).
Proof. reflexivity. Qed.

Lemma entity_messages_syntactic (parsed : ParsedPython)
    (j1 j2 : option JediAnalysis) (pn1 pn2 : option string) :
  map syntactic_part (create_entity_messages_with_jedi parsed j1 pn1)
  = map syntactic_part (create_entity_messages_with_jedi parsed j2 pn2).
Proof.
  unfold create_entity_messages_with_jedi.
  set (ja1 := match j1 with None => _ | Some j => _ end).
  set (ja2 := match j2 with None => _ | Some j => _ end).
  clearbody ja1 ja2. rewrite !map_app. f_equal.
  - induction (pp_classes parsed) as [|c l IH]; [reflexivity|].
    simpl. rewrite !map_app. simpl. rewrite IH. do 2 f_equal.
    rewrite !map_map. apply map_ext. intros m.
    apply method_message_syntactic.
  - rewrite !map_map. apply map_ext. intros f.
    apply function_message_syntactic.
Qed.

Lemma entity_messages_length (parsed : ParsedPython)
    (j : option JediAnalysis) (pn : option string) :
  length (create_entity_messages_with_jedi parsed j pn) = entity_count parsed.
Proof.
  unfold create_entity_messages_with_jedi, entity_count.
  rewrite length_app, length_map. f_equal.
  induction (pp_classes parsed) as [|c l IH]; [reflexivity|].
  simpl. rewrite length_app, length_map, IH. reflexivity.
Qed.

Lemma strip_of_falsy (s : string) :
  truthy s = false -> truthy (strip s) = false.
Proof. destruct s; [reflexivity|discriminate]. Qed.

Lemma summary_of_docstring (doc fallback : string) (more : list string) :
  summary_of (docstring_bits doc ++ more) fallback
  = or_else (paragraphs (strip doc :: more)) fallback.
Proof.
  unfold summary_of, or_else, paragraphs, docstring_bits.
  rewrite (filter_cons _ (strip doc)).
  destruct (truthy doc) eqn:Ed.
  - destruct (truthy (strip doc)) eqn:Es; simpl.
    + rewrite filter_cons, Es.
      now destruct (decide (true = true)).
    + now destruct (decide (false = true)).
  - rewrite (strip_of_falsy _ Ed). simpl.
    now destruct (decide (false = true)).
Qed.

Lemma paragraphs_one (s : string) : or_else (paragraphs [s]) = or_else s.
Proof.
  unfold paragraphs, or_else. rewrite filter_cons, filter_nil.
  destruct (decide (truthy s = true)) as [E|E].
  - reflexivity.
  - apply not_true_is_false in E. now rewrite E.
Qed.

Lemma no_param_bits fname parameters :
  param_bits EmptyJediAnalysis fname parameters = [].
Proof.
  unfold param_bits.
  replace (param_info_of EmptyJediAnalysis fname parameters) with (@nil string);
    [reflexivity|].
  unfold param_info_of. induction parameters as [|p l IH]; [reflexivity|].
  cbn [flat_map]. rewrite <- IH. reflexivity.
Qed.

Lemma class_message_syntax parsed cls :
  class_message EmptyJediAnalysis parsed cls = syntactic_class_chunk parsed cls.
Proof.
  unfold class_message, syntactic_class_chunk. cbv zeta.
  cbn [type_annotations references EmptyJediAnalysis].
  rewrite !lookup_empty. cbn [app]. rewrite summary_of_docstring.
  unfold decorators_line, bases_text, paragraphs.
  destruct (cls_decorators cls) as [|d ds], (cls_bases cls) as [|b bs];
    reflexivity.
Qed.

Lemma method_message_syntax parsed cls f :
  method_message EmptyJediAnalysis parsed cls f
  = syntactic_method_chunk parsed cls f.
Proof.
  unfold method_message, syntactic_method_chunk, syntactic_function_chunk.
  cbv zeta. rewrite no_param_bits, summary_of_docstring, paragraphs_one.
  reflexivity.
Qed.

Lemma function_message_syntax parsed f :
  function_message EmptyJediAnalysis parsed f
  = syntactic_toplevel_chunk parsed f.
Proof.
  unfold function_message, syntactic_toplevel_chunk, syntactic_function_chunk.
  cbv zeta. cbn [type_annotations EmptyJediAnalysis].
  rewrite lookup_empty, no_param_bits. cbn [app].
  rewrite summary_of_docstring, paragraphs_one. reflexivity.
Qed.

Lemma entity_messages_syntax parsed project_name :
  create_entity_messages_with_jedi parsed None project_name
  = syntactic_chunks parsed.
Proof.
  unfold create_entity_messages_with_jedi, syntactic_chunks. f_equal.
  - induction (pp_classes parsed) as [|c l IH]; [reflexivity|].
    cbn [flat_map]. rewrite IH, class_message_syntax. do 2 f_equal.
    apply map_ext. intros f. apply method_message_syntax.
  - apply map_ext. intros f. apply function_message_syntax.
Qed.

(** C9. With the enrichment absent, chunk assembly returns (it cannot fail)
    the chunks built from the syntax alone: for every class its docstring
    and decorators, its header line and its body, for every method and
    function its docstring, its signature and its body, each with its
    fallback line.  They are the chunks obtained from an analysis whose
    containers are all empty; there is one per class, method and function;
    and by speaker, tags, signature and code segments they are the chunks
    produced with any enrichment present. *)
Theorem missing_enrichment_is_empty (parsed : ParsedPython)
    (project_name : option string) :
  create_entity_messages_with_jedi parsed None project_name
    = syntactic_chunks parsed
  /\ (forall fp mp,
        create_entity_messages_with_jedi parsed None project_name
        = create_entity_messages_with_jedi parsed
            (Some {| ja_file_path := fp; ja_module_path := mp;
                     ja_containers := EmptyJediAnalysis |}) project_name)
  /\ length (create_entity_messages_with_jedi parsed None project_name)
     = entity_count parsed
  /\ (forall j,
        map syntactic_part
            (create_entity_messages_with_jedi parsed (Some j) project_name)
        = map syntactic_part (syntactic_chunks parsed)).
Proof.
  split; [apply entity_messages_syntax|]. split; [reflexivity|]. split.
  - apply entity_messages_length.
  - intros j. rewrite <- (entity_messages_syntax parsed project_name).
    apply entity_messages_syntactic.
Qed.

(** A documented function with an inferred parameter type: the enrichment
    only adds to the summary segment. *)
Definition sample_function : FunctionEntity :=
  {| fn_name := "area"; fn_docstring := "Area of a disc.";
     fn_signature := "def area(r)"; fn_decorators := [];
     fn_parameters := ["r"]; fn_return_annotation := None;
     fn_code_body := "def area(r): return 3 * r * r"; fn_pos := (Some 1%Z, Some 1%Z) |}.

Definition sample_parsed : ParsedPython :=
  {| file_path := "geo.py"; module_path := "geo"; module_docstring := "";
     imports := []; pp_classes := []; pp_functions := [sample_function];
     source_code := "def area(r): return 3 * r * r" |}.

Definition sample_analysis : JediAnalysis :=
  {| ja_file_path := "geo.py"; ja_module_path := "geo";
     ja_containers :=
       {| type_annotations :=
            {[ "area.r" := {| declared_type := Some "parameter";
                              inferred_types := Some ["float"] |} ]};
          references := ∅; definitions := ∅ |} |}.

Example chunks_without_enrichment :
  map text_chunks (create_entity_messages_with_jedi sample_parsed None None)
  = [ [ "Area of a disc."; "def area(r)"; "def area(r): return 3 * r * r" ] ].
Proof. vm_compute. reflexivity. Qed.

Example chunks_with_enrichment :
  map text_chunks
      (create_entity_messages_with_jedi sample_parsed (Some sample_analysis) None)
  = [ [ "Area of a disc." +:+ NL +:+ NL +:+ "Inferred parameter types:"
          +:+ NL +:+ "r: float";
        "def area(r)"; "def area(r): return 3 * r * r" ] ].
Proof. vm_compute. reflexivity. Qed.

End MessagesProps.

(* ===================================================================== *)
(** * The orchestrator: cancellation and failure                          *)
(* ===================================================================== *)

Module RunnerProps.
Import PyStr Discovery Parser Messages Runner.

(** ** Sample runs *)

(** A repository with one source file, [m.py], that parses; nobody cancels;
    the index collaborator rejects the first batch. *)
Definition failing_index_env : Env :=
  {| repo_path := ["/"; "home"; "repo"];
     output_db := None;
     cancel_event := None;
     repo_exists := true;
     tree := [ File "m.py" ];
     fs_fault := None;
     read_text := fun _ => Some "";
     parse_module := fun _ => Some ParserProps.empty_module;
     node_str := ParserProps.no_render;
     code_for_node := ParserProps.no_render;
     analyze := fun _ _ => None;
     create_conversation := Ok tt;
     add_messages_with_indexing := fun _ _ => Err "index write failed" |}.

Example failing_index_run :
  map stage_of (events (run_ingestion failing_index_env))
  = [ Some "discovery"; Some "discovery"; Some "parsing"; Some "parsing";
      Some "parsing"; Some "type_analysis"; Some "type_analysis";
      Some "type_analysis"; Some "message_creation"; Some "message_creation";
      Some "message_creation"; Some "indexing"; Some "indexing";
      Some "unknown" ]
  /\ length (index_calls (run_ingestion failing_index_env)) = 1.
Proof. vm_compute. split; reflexivity. Qed.

(** ** Cancellation between discovery and parsing *)

(** C8. When the cancellation flag is unset at the first poll (before
    discovery) and set at the second (after the discovery stage has
    completed, before parsing starts), the run ends without any
    [type_analysis], [message_creation] or [indexing] event and without a
    single call of the index collaborator's batch append; when discovery
    itself succeeded the event stream is exactly the two discovery events. *)
Theorem cancel_after_discovery (env : Env) (is_set : nat -> bool) :
  repo_exists env = true ->
  cancel_event env = Some is_set ->
  is_set 0 = false ->
  is_set 1 = true ->
  Forall (fun e => later_stage e = false) (events (run_ingestion env))
  /\ index_calls (run_ingestion env) = []
  /\ (fs_fault env = None ->
      events (run_ingestion env)
      = [ progress_event "discovery" active 0;
          progress_event "discovery" complete 100 ]).
Proof.
  intros Hex Hc H0 H1.
  unfold run_ingestion, run_body. rewrite Hex. simpl.
  unfold bind, yield, check_cancel, discover. rewrite Hc. simpl. rewrite H0.
  destruct (fs_fault env) as [e|]; simpl.
  - split; [|split; [reflexivity|discriminate]].
    repeat constructor.
  - rewrite H1. simpl. split; [|split; [reflexivity|reflexivity]].
    repeat constructor.
Qed.

(** The run of [failing_index_env], cancelled right after discovery. *)
Definition cancelled_env : Env :=
  {| repo_path := repo_path failing_index_env;
     output_db := None;
     cancel_event := Some (fun n => Nat.leb 1 n);
     repo_exists := true;
     tree := tree failing_index_env;
     fs_fault := None;
     read_text := read_text failing_index_env;
     parse_module := parse_module failing_index_env;
     node_str := node_str failing_index_env;
     code_for_node := code_for_node failing_index_env;
     analyze := analyze failing_index_env;
     create_conversation := Ok tt;
     add_messages_with_indexing := fun _ _ => Ok (0%Z, 0%Z) |}.

Lemma cancel_after_discovery_witness :
  Forall (fun e => later_stage e = false) (events (run_ingestion cancelled_env))
  /\ index_calls (run_ingestion cancelled_env) = []
  /\ (fs_fault cancelled_env = None ->
      events (run_ingestion cancelled_env)
      = [ progress_event "discovery" active 0;
          progress_event "discovery" complete 100 ]).
Proof.
  apply (cancel_after_discovery cancelled_env (fun n => Nat.leb 1 n));
    reflexivity.
Defined.

(** ** Exceptions *)









Section Quiet.

Variable env : Env.













End Quiet.



Example failing_index_stage :
  stage_in_progress (events (fst (run_body failing_index_env initial_world)))
    = Some "indexing"
  /\ last (events (run_ingestion failing_index_env))
    = Some (IngestionError "index write failed" "unknown").
Proof. vm_compute. split; reflexivity. Qed.




(** The index is cancelled while it takes the first batch: the run of
    [failing_index_env] then ends after the progress event of that batch. *)
Definition cancelled_index_env : Env :=
  {| repo_path := repo_path failing_index_env;
     output_db := None;
     cancel_event := None;
     repo_exists := true;
     tree := tree failing_index_env;
     fs_fault := None;
     read_text := read_text failing_index_env;
     parse_module := parse_module failing_index_env;
     node_str := node_str failing_index_env;
     code_for_node := code_for_node failing_index_env;
     analyze := analyze failing_index_env;
     create_conversation := Ok tt;
     add_messages_with_indexing := fun _ _ => Interrupt "CancelledError" |}.

Example cancelled_index_run :
  snd (run_body cancelled_index_env initial_world)
    = Interrupted "CancelledError"
  /\ map stage_of (events (run_ingestion cancelled_index_env))
     = [ Some "discovery"; Some "discovery"; Some "parsing"; Some "parsing";
         Some "parsing"; Some "type_analysis"; Some "type_analysis";
         Some "type_analysis"; Some "message_creation";
         Some "message_creation"; Some "message_creation"; Some "indexing";
         Some "indexing" ]
  /\ filter (fun ev => is_error ev = true)
            (events (run_ingestion cancelled_index_env)) = [].
Proof. vm_compute. repeat split; reflexivity. Qed.

(** The one error event that does name a stage: a missing repository. *)
Example missing_repository_run :
  events (run_ingestion
            {| repo_path := ["/"; "nowhere"]; output_db := None;
               cancel_event := None; repo_exists := false; tree := [];
               fs_fault := None; read_text := fun _ => None;
               parse_module := fun _ => None;
               node_str := ParserProps.no_render;
               code_for_node := ParserProps.no_render;
               analyze := fun _ _ => None; create_conversation := Ok tt;
               add_messages_with_indexing := fun _ _ => Ok (0%Z, 0%Z) |})
  = [ IngestionError "Repository path does not exist: /nowhere" "discovery" ].
Proof. vm_compute. reflexivity. Qed.

End RunnerProps.

(* ===================================================================== *)
(** * Discovery: what is returned, and module paths of what is returned   *)
(* ===================================================================== *)

Module DiscoveryExtra.
Import PyStr PyStrFacts Discovery DiscoveryProps.

(** [discover_files] returns exactly the files the walk finds that have no
    excluded component and that one of the three tables classifies, each
    with the kind of the first table that matches. *)
Theorem discover_files_iff (repo_path : Path) (tree : list fsnode)
    (extra_excludes : list string) (f : FileKind) :
  In f (discover_files repo_path tree extra_excludes)
  <-> In (path f, true) (rglob repo_path tree)
      /\ in_excluded_dir (excludes_of extra_excludes) (path f) = false
      /\ classify (path f) = Some (kind f).
Proof.
  split.
  - intros H. apply discover_files_inv in H. tauto.
  - intros (Hin & Hx & Hc). unfold discover_files. apply in_flat_map.
    exists (path f, true). split; [assumption|].
    unfold discover_entry. rewrite Hx, Hc. simpl. left. now destruct f.
Qed.

Lemma in_excluded_dir_mono (ex1 ex2 : gset string) (p : Path) :
  ex1 ⊆ ex2 -> in_excluded_dir ex2 p = false -> in_excluded_dir ex1 p = false.
Proof.
  unfold in_excluded_dir. intros Hsub H2.
  apply bool_decide_eq_false in H2. apply bool_decide_eq_false.
  intros (x & Hx & Hp). apply H2. exists x. split; [set_solver|assumption].
Qed.

(** Extra exclusions only remove files: whatever is returned with
    [extra_excludes] is returned, with the same kind, without them. *)
Theorem extra_excludes_only_remove (repo_path : Path) (tree : list fsnode)
    (extra_excludes : list string) (f : FileKind) :
  In f (discover_files repo_path tree extra_excludes) ->
  In f (discover_files repo_path tree []).
Proof.
  rewrite !discover_files_iff. intros (Hin & Hx & Hc).
  split; [assumption|]. split; [|assumption].
  apply (in_excluded_dir_mono _ (excludes_of extra_excludes)); [|assumption].
  intros x Hx'. apply excludes_of_spec. left. exact Hx'.
Qed.

Lemma extra_excludes_only_remove_witness :
  In {| path := sample_repo ++ ["main.py"]; kind := python |}
     (discover_files sample_repo sample_tree []).
Proof.
  apply (extra_excludes_only_remove sample_repo sample_tree ["vendor"]).
  vm_compute. left. reflexivity.
Defined.

Lemma rglob_below (base : Path) (tree : list fsnode) (p : Path) (b : bool) :
  In (p, b) (rglob base tree) -> exists nm rest, p = base ++ nm :: rest.
Proof.
  unfold rglob. intros H. apply in_flat_map in H. destruct H as (n & _ & Hn).
  destruct (rglob_node_below n _ _ _ Hn) as (rest & ->). eauto.
Qed.

(** Every discovered file lies properly below the repository root, so
    [compute_module_path] never raises on a discovered file. *)
Theorem discovered_has_module_path (repo_path : Path) (tree : list fsnode)
    (extra_excludes : list string) (f : FileKind) :
  In f (discover_files repo_path tree extra_excludes) ->
  exists rel,
    rel <> [] /\ path f = repo_path ++ rel
    /\ compute_module_path (path f) repo_path = Some (module_path_of_rel rel).
Proof.
  intros H. apply discover_files_inv in H. destruct H as (_ & _ & Hin).
  destruct (rglob_below _ _ _ _ Hin) as (nm & rest & E).
  exists (nm :: rest). split; [discriminate|]. split; [assumption|].
  unfold compute_module_path. rewrite E. now rewrite relative_to_prefix.
Qed.

Lemma discovered_has_module_path_witness :
  exists rel,
    rel <> [] /\ sample_repo ++ ["main.py"] = sample_repo ++ rel
    /\ compute_module_path (sample_repo ++ ["main.py"]) sample_repo
       = Some (module_path_of_rel rel).
Proof.
  apply (discovered_has_module_path sample_repo sample_tree ["vendor"]
           {| path := sample_repo ++ ["main.py"]; kind := python |}).
  vm_compute. left. reflexivity.
Defined.

(** The kind of a discovered file, read off its name: [python] exactly for
    the suffix [.py], [documentation] exactly for [.md], [.rst] and [.txt],
    and [configuration] exactly for a listed file name with none of these
    suffixes. *)
Theorem discovered_kind (repo_path : Path) (tree : list fsnode)
    (extra_excludes : list string) (f : FileKind) :
  In f (discover_files repo_path tree extra_excludes) ->
  (kind f = python <-> suffix (path f) = ".py")
  /\ (kind f = documentation <-> suffix (path f) ∈ DOC_EXTS)
  /\ (kind f = configuration
      <-> name (path f) ∈ CONFIG_FILES
          /\ suffix (path f) <> ".py" /\ suffix (path f) ∉ DOC_EXTS).
Proof.
  intros H. apply discover_files_inv in H. destruct H as (_ & Hc & _).
  unfold classify in Hc.
  assert (Hpy : suffix (path f) ∈ PYTHON_EXTS <-> suffix (path f) = ".py")
    by (unfold PYTHON_EXTS; apply elem_of_singleton).
  assert (Hdisj : suffix (path f) = ".py" -> suffix (path f) ∉ DOC_EXTS).
  { intros ->. unfold DOC_EXTS.
    rewrite !elem_of_union, !elem_of_singleton. intuition discriminate. }
  repeat case_bool_decide; inversion Hc as [Hk];
    (split; [|split]); split; try discriminate; try tauto;
    try (intros; exfalso; tauto).
Qed.

Lemma discovered_kind_witness :
  kind {| path := sample_repo ++ ["requirements.txt"]; kind := documentation |}
    = documentation
  <-> suffix (sample_repo ++ ["requirements.txt"]) ∈ DOC_EXTS.
Proof.
  apply (discovered_kind sample_repo sample_tree ["vendor"]
           {| path := sample_repo ++ ["requirements.txt"];
              kind := documentation |}).
  vm_compute. right. right. left. reflexivity.
Defined.

End DiscoveryExtra.

(* ===================================================================== *)
(** * Structural extraction: counts, bounds, renderings                   *)
(* ===================================================================== *)

Module ParserExtra.
Import PyStr PyStrFacts Discovery Parser ParserMore ParserProps.

(** ** Nothing is lost, nothing is duplicated *)

(** The function and class definitions of a statement, at any depth. *)
Fixpoint count_functions (s : stmt) : nat :=
  let fix count_all (l : list stmt) : nat :=
    match l with
    | [] => 0
    | c :: l' => count_functions c + count_all l'
    end in
  match s with
  | FunctionDef _ body => S (count_all body)
  | ClassDef _ body => count_all body
  | OtherStmt body => count_all body
  end.

Fixpoint count_classes (s : stmt) : nat :=
  let fix count_all (l : list stmt) : nat :=
    match l with
    | [] => 0
    | c :: l' => count_classes c + count_all l'
    end in
  match s with
  | ClassDef _ body => S (count_all body)
  | FunctionDef _ body => count_all body
  | OtherStmt body => count_all body
  end.

Fixpoint count_functions_all (l : list stmt) : nat :=
  match l with
  | [] => 0
  | c :: l' => count_functions c + count_functions_all l'
  end.

Fixpoint count_classes_all (l : list stmt) : nat :=
  match l with
  | [] => 0
  | c :: l' => count_classes c + count_classes_all l'
  end.

(** The methods held by a list of classes. *)
Definition methods_total (cs : list ClassEntity) : nat :=
  list_sum (map (fun c => length (cls_methods c)) cs).

Lemma methods_total_app cs1 cs2 :
  methods_total (cs1 ++ cs2) = methods_total cs1 + methods_total cs2.
Proof. unfold methods_total. now rewrite map_app, list_sum_app. Qed.

Section Counts.

Variable node_str : expr -> string.
Variable code_for_node : expr -> string.

Local Abbreviation owned := (owned node_str code_for_node).
Local Abbreviation owned_all := (owned_all node_str code_for_node).
Local Abbreviation classes_of := (classes_of node_str code_for_node).
Local Abbreviation classes_all := (classes_all node_str code_for_node).

Lemma counts_all (body : list stmt) :
  Forall (fun s =>
            length (classes_of s) = count_classes s
            /\ length (owned s) + methods_total (classes_of s)
               = count_functions s) body ->
  length (classes_all body) = count_classes_all body
  /\ length (owned_all body) + methods_total (classes_all body)
     = count_functions_all body.
Proof.
  induction 1 as [|s l [Hc Hf] _ [IHc IHf]]; [split; reflexivity|].
  unfold ParserProps.classes_all, ParserProps.owned_all in *. simpl.
  rewrite !length_app, methods_total_app. split; lia.
Qed.

Lemma counts_stmt (s : stmt) :
  length (classes_of s) = count_classes s
  /\ length (owned s) + methods_total (classes_of s) = count_functions s.
Proof.
  induction s as [node body IH|node body IH|body IH] using stmt_ind_nested;
    apply counts_all in IH; destruct IH as [IHc IHf].
  - change (classes_of (ClassDef node body))
      with (add_methods (owned_all body) (class_entity node_str node)
              :: classes_all body).
    change (owned (ClassDef node body)) with (@nil FunctionEntity).
    change (count_classes (ClassDef node body))
      with (S (count_classes_all body)).
    change (count_functions (ClassDef node body))
      with (count_functions_all body).
    simpl. unfold methods_total in *. simpl. rewrite IHc. split; lia.
  - change (classes_of (FunctionDef node body)) with (classes_all body).
    change (owned (FunctionDef node body))
      with (function_entity node_str code_for_node node :: owned_all body).
    change (count_classes (FunctionDef node body))
      with (count_classes_all body).
    change (count_functions (FunctionDef node body))
      with (S (count_functions_all body)).
    simpl. split; lia.
  - change (classes_of (OtherStmt body)) with (classes_all body).
    change (owned (OtherStmt body)) with (owned_all body).
    change (count_classes (OtherStmt body)) with (count_classes_all body).
    change (count_functions (OtherStmt body)) with (count_functions_all body).
    split; assumption.
Qed.

(** After the walk of a module both stacks are empty, [functions] holds
    every function definition that is outside all classes, and each class
    holds in [methods] every function definition whose innermost enclosing
    class it is, in source order and at any depth of function nesting;
    classes are listed outer before inner. *)
Theorem module_walk_result (body : list stmt) :
  visit_body node_str code_for_node body empty_extractor
  = {| class_stack := []; function_stack := [];
       classes := classes_all body; functions := owned_all body |}.
Proof. apply visit_body_module. Qed.

(** The extraction of a module yields one class entity per class
    definition of the source and, counting top-level functions and methods
    together, one function entity per function definition: no definition is
    lost and none is recorded twice. *)
Theorem extraction_counts (body : list stmt) :
  let self := visit_body node_str code_for_node body empty_extractor in
  length (classes self) = count_classes_all body
  /\ length (functions self) + methods_total (classes self)
     = count_functions_all body.
Proof.
  simpl. rewrite visit_body_module. simpl.
  apply counts_all. apply Forall_forall. intros s _. apply counts_stmt.
Qed.

End Counts.

(** ** Bounds on the stored body *)

Lemma take_chars_append_ge n s t :
  n <= String.length s -> take_chars n (s +:+ t) = take_chars n s.
Proof.
  revert s. induction n as [|n IH]; intros s H.
  - now destruct s, t.
  - destruct s as [|a s]; [simpl in H; lia|].
    rewrite append_cons. simpl. f_equal. apply IH. simpl in H. lia.
Qed.

Lemma take_chars_take_chars n s : take_chars n (take_chars n s) = take_chars n s.
Proof.
  revert s. induction n as [|n IH]; intros [|a s]; simpl; try reflexivity.
  now rewrite IH.
Qed.

(** Whatever the source text, the stored body is at most 10,016 characters
    long and agrees with the source text on the first 10,000 characters. *)
Theorem truncate_body_bounded (code_body : string) :
  (len (truncate_body code_body) <= 10016)%Z
  /\ slice_to 10000 (truncate_body code_body) = slice_to 10000 code_body.
Proof.
  destruct (Z.le_gt_cases (len code_body) BODY_LIMIT) as [H|H].
  - rewrite (truncate_body_short _ H). unfold BODY_LIMIT in H. split; [lia|].
    reflexivity.
  - destruct (truncate_body_long _ H) as [E L]. rewrite L. split.
    + vm_compute. discriminate.
    + rewrite E. unfold slice_to, BODY_LIMIT in *.
      rewrite take_chars_append_ge.
      * apply take_chars_take_chars.
      * rewrite length_take_chars. unfold len in H. lia.
Qed.

(** ** Decorators *)

(** A decorator the loop has no branch for: a call of something that is
    neither a name nor a dotted attribute. *)
Definition dropped_decorator (d : expr) : bool :=
  match d with
  | Call (Name _) => false
  | Call (Attribute _ _) => false
  | Call _ => true
  | _ => false
  end.

(** The decorator list has one entry per decorator, except that a decorator
    calling anything but a name or dotted attribute (such as [@f(x)(y)]) is
    dropped without trace. *)
Theorem decorators_rendered (node_str : expr -> string) (ds : list expr) :
  length (render_decorators node_str ds)
  = length (filter (fun d => dropped_decorator d = false) ds)
  /\ length (render_decorators node_str ds) <= length ds.
Proof.
  unfold render_decorators.
  induction ds as [|d ds [IH1 IH2]]; [split; reflexivity|].
  simpl. rewrite length_app, filter_cons.
  assert (Hd : length (decorator_entry node_str d)
               = if dropped_decorator d then 0 else 1).
  { destruct d as [v|v a|[v|v a|f|c]|c]; reflexivity. }
  rewrite Hd. destruct (dropped_decorator d); simpl.
  - destruct (decide (true = false)); [discriminate|]. split; lia.
  - destruct (decide (false = false)); [|congruence]. simpl. split; lia.
Qed.

(** ** Dotted names *)

(** The expression [n0.n1. ... .nk]. *)
Definition dotted (n0 : string) (ns : list string) : expr :=
  fold_left Attribute ns (Name n0).

Lemma attribute_chain_dotted (n0 : string) (ns : list string) :
  attribute_chain (dotted n0 ns) = n0 :: ns.
Proof.
  unfold dotted. induction ns as [|n ns IH] using rev_ind; [reflexivity|].
  rewrite fold_left_app. simpl. now rewrite IH.
Qed.

(** A dotted name is rendered as its components joined by dots, and when no
    component contains a dot, splitting the text at the dots gives the
    components back. *)
Theorem render_attribute_dotted (n0 : string) (ns : list string) (a : string) :
  _render_attribute (dotted n0 ns) a = join "." (n0 :: ns ++ [a])
  /\ (Forall (fun s => free_of "." s = true) (n0 :: ns ++ [a]) ->
      split "." (_render_attribute (dotted n0 ns) a) = n0 :: ns ++ [a]).
Proof.
  unfold _render_attribute. rewrite attribute_chain_dotted. simpl.
  split; [reflexivity|]. intros H.
  now apply (split_join "."%char (n0 :: ns ++ [a])).
Qed.

Lemma render_attribute_dotted_witness :
  split "." (_render_attribute (dotted "os" ["path"]) "join")
  = ["os"; "path"; "join"].
Proof.
  apply (render_attribute_dotted "os" ["path"] "join").
  repeat constructor.
Defined.

(** An attribute of anything that is not a name keeps only the attribute
    names: the root of [f().x.y] is dropped. *)
Example render_attribute_of_call :
  _render_attribute (Attribute (Call (Name "f")) "x") "y" = "x.y".
Proof. reflexivity. Qed.

(** ** Signatures that follow the declaration *)

Lemma build_params_declared_order_witness :
  build_params {| params := ["self"; "x"]; star_arg := ParamStar;
                  kwonly_params := ["key"]; star_kwarg := Some "opts";
                  posonly_params := [] |}
  = ["self"; "x"; "*"; "key"; "**opts"].
Proof.
  rewrite (build_params_declared_order
             {| params := ["self"; "x"]; star_arg := ParamStar;
                kwonly_params := ["key"]; star_kwarg := Some "opts";
                posonly_params := [] |}).
  - reflexivity.
  - reflexivity.
  - simpl. discriminate.
Defined.

(** ** [_parse_with_libcst] *)

(** Parsing a file gives a result exactly when libcst accepts the source,
    [relative_to] finds the file below the repository root, and neither the
    metadata wrapper nor the walk raises; in every other case it gives
    [None], never an exception.  The result carries the source text
    unchanged, the relative path, its module path, and the entities of the
    walk. *)
Theorem parse_with_libcst_result (node_str code_for_node : expr -> string)
    (source : string) (parsed : option Module_) (file repo : Path) :
  match _parse_with_libcst node_str code_for_node source parsed file repo with
  | Some p =>
      exists m rel,
        parsed = Some m /\ mod_walk_raises m = false
        /\ relative_to file repo = Some rel
        /\ source_code p = source
        /\ file_path p = path_str rel
        /\ module_path p = module_path_of_rel rel
        /\ module_docstring p = mod_docstring m
        /\ imports p = mod_imports m
        /\ pp_classes p = classes_all node_str code_for_node (mod_body m)
        /\ pp_functions p = owned_all node_str code_for_node (mod_body m)
  | None =>
      parsed = None
      \/ (exists m, parsed = Some m /\ mod_walk_raises m = true)
      \/ relative_to file repo = None
  end.
Proof.
  unfold _parse_with_libcst, compute_module_path.
  destruct parsed as [m|]; [|now left].
  destruct (relative_to file repo) as [rel|] eqn:E; [|now right; right].
  destruct (mod_walk_raises m) eqn:W; [right; left; eauto|].
  exists m, rel. rewrite visit_body_module. simpl. repeat split; auto.
Qed.

(** ** Imports *)

(** An [import] statement adds one line per imported name, each starting
    with [import], after the lines already collected. *)
Theorem visit_Import_lines (node_str : expr -> string)
    (l : list ImportAlias) (imports : list string) :
  exists lines,
    visit_Import node_str (ImportAliases l) imports = imports ++ lines
    /\ length lines = length l
    /\ Forall (fun s => take_chars 7 s = "import ") lines.
Proof.
  exists (map (import_line node_str) l). split; [reflexivity|].
  split; [apply length_map|].
  apply Forall_forall. intros s Hs. apply list_elem_of_In, in_map_iff in Hs.
  destruct Hs as (a & <- & _). reflexivity.
Qed.

(** A [from ... import] statement adds at most one line, after the lines
    already collected: one for the star, one for a non-empty list of names
    (the names joined by commas), none for an empty list. *)
Theorem visit_ImportFrom_lines (node_str : expr -> string)
    (node : ImportFromNode) (imports : list string) :
  exists lines,
    visit_ImportFrom node_str node imports = imports ++ lines
    /\ length lines <= 1
    /\ (length lines = 0 <-> if_names node = ImportAliases [])
    /\ Forall (fun s => take_chars 5 s = "from ") lines.
Proof.
  unfold visit_ImportFrom. destruct node as [rel m names]. simpl.
  destruct names as [|l].
  - eexists. split; [reflexivity|]. simpl.
    split; [lia|]. split; [split; [lia|discriminate]|].
    repeat constructor.
  - destruct l as [|a l]; simpl.
    + exists []. rewrite app_nil_r. repeat split; auto.
    + eexists. split; [reflexivity|]. simpl.
      split; [lia|]. split; [split; [lia|discriminate]|].
      repeat constructor.
Qed.

(** A relative import without a module keeps its dots. *)
Example relative_import (node_str : expr -> string) :
  visit_ImportFrom node_str
    {| if_relative := 2; if_module := None;
       if_names := ImportAliases
                     [ {| ia_name := Name "util"; ia_asname := Some (Name "u") |};
                       {| ia_name := Name "core"; ia_asname := None |} ] |}
    ["import os"]
  = ["import os"; "from .. import util as u, core"].
Proof. reflexivity. Qed.

(** ** Call edges *)

(** A call adds at most one edge, after the edges already recorded; it adds
    none outside every function, none when the line is unknown and none when
    the callee is neither a name nor a dotted attribute; a recorded edge
    names a caller that starts with the module path and a colon and ends with
    the innermost function's name. *)
Theorem visit_Call_edge (module_path : string) (node : CallNode)
    (self : Extractor) (calls : list CallEdge) :
  (visit_Call module_path node self calls = calls
   \/ exists e fn,
        visit_Call module_path node self calls = calls ++ [e]
        /\ last (function_stack self) = Some fn
        /\ call_line node = Some (line e)
        /\ (caller e = module_path +:+ ":" +:+ fn
            \/ exists cls, top_class_name self = Some cls
                 /\ caller e = module_path +:+ ":" +:+ cls +:+ "." +:+ fn))
  /\ (function_stack self = [] ->
      visit_Call module_path node self calls = calls)
  /\ (call_line node = None ->
      visit_Call module_path node self calls = calls)
  /\ (match call_func node with
      | Name _ | Attribute _ _ => False
      | _ => True
      end -> visit_Call module_path node self calls = calls).
Proof.
  unfold visit_Call.
  split; [|split; [|split]].
  - assert (Hcase : forall callee_text,
      (if negb (truthy callee_text) then calls
       else match
              match last (function_stack self) with
              | Some fn =>
                  match top_class_name self with
                  | Some cls =>
                      Some (module_path +:+ ":" +:+ cls +:+ "." +:+ fn)
                  | None => Some (module_path +:+ ":" +:+ fn)
                  end
              | None => None
              end, call_line node
            with
            | Some caller_id, Some l =>
                if (l =? 0)%Z then calls
                else calls ++ [{| caller := caller_id;
                                  callee := callee_text; line := l |}]
            | _, _ => calls
            end) = calls
      \/ exists e fn,
           (if negb (truthy callee_text) then calls
            else match
                   match last (function_stack self) with
                   | Some fn =>
                       match top_class_name self with
                       | Some cls =>
                           Some (module_path +:+ ":" +:+ cls +:+ "." +:+ fn)
                       | None => Some (module_path +:+ ":" +:+ fn)
                       end
                   | None => None
                   end, call_line node
                 with
                 | Some caller_id, Some l =>
                     if (l =? 0)%Z then calls
                     else calls ++ [{| caller := caller_id;
                                       callee := callee_text; line := l |}]
                 | _, _ => calls
                 end) = calls ++ [e]
           /\ last (function_stack self) = Some fn
           /\ call_line node = Some (line e)
           /\ (caller e = module_path +:+ ":" +:+ fn
               \/ exists cls, top_class_name self = Some cls
                    /\ caller e
                       = module_path +:+ ":" +:+ cls +:+ "." +:+ fn)).
    { intros callee_text.
      destruct (negb (truthy callee_text)); [now left|].
      destruct (last (function_stack self)) as [fn|]; [|now left].
      destruct (call_line node) as [l|];
        [|destruct (top_class_name self); now left].
      destruct (l =? 0)%Z;
        [destruct (top_class_name self); now left|].
      right. destruct (top_class_name self) as [cls|].
      - eexists. exists fn. repeat (split; [reflexivity|]).
        right. eauto.
      - eexists. exists fn. repeat (split; [reflexivity|]).
        left. reflexivity. }
    destruct (call_func node); try (now left); apply Hcase.
  - intros ->. simpl.
    destruct (call_func node); try reflexivity;
      destruct (negb (truthy _)); reflexivity.
  - intros ->.
    destruct (call_func node); try reflexivity;
      destruct (negb (truthy _)); try reflexivity;
      destruct (last (function_stack self)); try reflexivity;
      destruct (top_class_name self); reflexivity.
  - destruct (call_func node); intros H; try contradiction; reflexivity.
Qed.

Lemma visit_Call_edge_witness :
  visit_Call "pkg.mod" {| call_func := dotted "os" ["getcwd"]; call_line := Some 3%Z |}
    {| class_stack := []; function_stack := []; classes := []; functions := [] |}
    []
  = [].
Proof.
  apply (proj1 (proj2 (visit_Call_edge "pkg.mod"
           {| call_func := dotted "os" ["getcwd"]; call_line := Some 3%Z |}
           {| class_stack := []; function_stack := []; classes := [];
              functions := [] |} []))).
  reflexivity.
Defined.

(** A call in a method is attributed to [module:Class.method]. *)
Example call_in_method :
  visit_Call "pkg.mod"
    {| call_func := dotted "os" ["getcwd"]; call_line := Some 3%Z |}
    {| class_stack := [0]; function_stack := ["run"];
       classes := [class_entity no_render (class_node "Job" "")];
       functions := [] |}
    []
  = [ {| caller := "pkg.mod:Job.run"; callee := "os.getcwd"; line := 3 |} ].
Proof. reflexivity. Qed.

End ParserExtra.

(* ===================================================================== *)
(** * Chunk assembly: segments are never blank                            *)
(* ===================================================================== *)

Module MessagesExtra.
Import PyStr PyStrFacts Discovery Parser ParserProps Messages.

(** ** Blank and solid strings *)

(** A string is blank when all its characters are white space; it is solid
    when it starts with a character that is not. *)
Fixpoint blank (s : string) : bool :=
  match s with
  | EmptyString => true
  | String a s' => is_space a && blank s'
  end.

Definition solid (s : string) : bool :=
  match s with
  | String a _ => negb (is_space a)
  | EmptyString => false
  end.

Lemma solid_not_blank s : solid s = true -> blank s = false.
Proof.
  destruct s as [|a s]; simpl; [discriminate|].
  intros H. apply negb_true_iff in H. now rewrite H.
Qed.

Lemma solid_truthy s : solid s = true -> truthy s = true.
Proof. destruct s; [discriminate|reflexivity]. Qed.

Lemma solid_append s t : solid s = true -> solid (s +:+ t) = true.
Proof. destruct s; [discriminate|]. now rewrite append_cons. Qed.

Lemma blank_append s t : blank (s +:+ t) = blank s && blank t.
Proof.
  induction s as [|a s IH]; [reflexivity|].
  rewrite append_cons. simpl. rewrite IH. now rewrite andb_assoc.
Qed.

Lemma lstrip_blank s : blank s = true -> lstrip s = EmptyString.
Proof.
  induction s as [|a s IH]; simpl; [reflexivity|].
  intros [Ha Hs]%andb_prop. rewrite Ha. now apply IH.
Qed.

Lemma lstrip_solid s : blank s = false -> solid (lstrip s) = true.
Proof.
  induction s as [|a s IH]; simpl; [discriminate|].
  destruct (is_space a) eqn:Ha; simpl.
  - exact IH.
  - intros _. now rewrite Ha.
Qed.

Lemma rstrip_solid s : solid s = true -> solid (rstrip s) = true.
Proof.
  destruct s as [|a s]; simpl; [discriminate|].
  intros H. destruct (rstrip s); [|exact H].
  apply negb_true_iff in H. rewrite H. simpl. now rewrite H.
Qed.

Lemma strip_blank s : blank s = true -> strip s = EmptyString.
Proof. intros H. unfold strip. now rewrite lstrip_blank. Qed.

Lemma strip_solid s : blank s = false -> solid (strip s) = true.
Proof. intros H. unfold strip. now apply rstrip_solid, lstrip_solid. Qed.

Lemma truthy_strip s : truthy (strip s) = negb (blank s).
Proof.
  destruct (blank s) eqn:E.
  - now rewrite strip_blank.
  - simpl. now apply solid_truthy, strip_solid.
Qed.

Lemma solid_join sep x l : solid x = true -> solid (join sep (x :: l)) = true.
Proof.
  intros H. unfold join. destruct l as [|y l]; [exact H|].
  change (String.concat sep (x :: y :: l))
    with (x +:+ sep +:+ String.concat sep (y :: l)).
  now apply solid_append.
Qed.

Lemma filter_truthy_solid (l : list string) :
  Forall (fun s => solid s = true) l ->
  filter (fun s => truthy s = true) l = l.
Proof.
  induction 1 as [|x l Hx _ IH]; [reflexivity|].
  rewrite filter_cons, IH.
  destruct (decide (truthy x = true)) as [_|N]; [reflexivity|].
  now rewrite solid_truthy in N.
Qed.

(** ** The three segments *)

Lemma summary_of_solid (summary_bits : list string) (fallback : string) :
  Forall (fun s => solid s = true) summary_bits ->
  solid fallback = true ->
  solid (summary_of summary_bits fallback) = true.
Proof.
  intros Hb Hf. unfold summary_of. rewrite (filter_truthy_solid _ Hb).
  destruct Hb as [|x l Hx Hl]; [exact Hf|].
  rewrite (solid_truthy _ (solid_join _ x l Hx)). now apply solid_join.
Qed.

Lemma docstring_bits_solid (doc : string) :
  Forall (fun s => solid s = true) (docstring_bits doc).
Proof.
  unfold docstring_bits. destruct (truthy doc && truthy (strip doc)) eqn:E;
    [|constructor].
  apply andb_prop in E. destruct E as [_ E]. rewrite truthy_strip in E.
  apply negb_true_iff in E. repeat constructor. now apply strip_solid.
Qed.

Lemma param_bits_solid (ja : Containers) fname parameters :
  Forall (fun s => solid s = true) (param_bits ja fname parameters).
Proof.
  unfold param_bits. destruct (param_info_of ja fname parameters);
    repeat constructor.
Qed.

Lemma code_text_of_not_blank (code_body fallback : string) :
  solid fallback = true -> blank (code_text_of code_body fallback) = false.
Proof.
  intros Hf. unfold code_text_of. rewrite truthy_strip.
  destruct (blank code_body) eqn:E; simpl; [now apply solid_not_blank|exact E].
Qed.

Lemma signature_text_not_blank (sig nm : string) :
  blank sig = false \/ blank nm = false ->
  blank (if truthy (strip sig) then strip sig else nm) = false.
Proof.
  rewrite truthy_strip. destruct (blank sig) eqn:E; simpl.
  - intros [H|H]; [discriminate|exact H].
  - intros _. now apply solid_not_blank, strip_solid.
Qed.

(** A function entity whose chunk gets a signature segment: its signature
    or, failing that, its name is not blank. *)
Definition has_signature (f : FunctionEntity) : Prop :=
  blank (fn_signature f) = false \/ blank (fn_name f) = false.

Definition well_segmented (m : CodeMessage) : Prop :=
  exists summary_text signature_text code_text,
    text_chunks m = [summary_text; signature_text; code_text]
    /\ solid summary_text = true
    /\ blank signature_text = false
    /\ blank code_text = false.

Lemma class_message_segments ja parsed cls :
  well_segmented (class_message ja parsed cls).
Proof.
  unfold class_message. do 3 eexists. split; [reflexivity|]. split; [|split].
  - apply summary_of_solid; [|reflexivity].
    repeat apply Forall_app_2.
    + apply docstring_bits_solid.
    + destruct (type_annotations ja !! _) as [t|]; [|constructor].
      destruct (inferred_of t); repeat constructor.
    + destruct (references ja !! _); repeat constructor.
    + destruct (cls_decorators cls); repeat constructor.
  - match goal with
    | |- blank (if truthy ?x then _ else _) = false =>
        assert (Hs : solid x = true) by (apply strip_solid; reflexivity)
    end.
    rewrite (solid_truthy _ Hs). now apply solid_not_blank.
  - apply code_text_of_not_blank. reflexivity.
Qed.

Lemma method_message_segments ja parsed cls f :
  has_signature f -> well_segmented (method_message ja parsed cls f).
Proof.
  intros Hf. unfold method_message. do 3 eexists. split; [reflexivity|].
  split; [|split].
  - apply summary_of_solid; [|reflexivity]. apply Forall_app_2.
    + apply docstring_bits_solid.
    + apply param_bits_solid.
  - now apply signature_text_not_blank.
  - apply code_text_of_not_blank. reflexivity.
Qed.

Lemma function_message_segments ja parsed f :
  has_signature f -> well_segmented (function_message ja parsed f).
Proof.
  intros Hf. unfold function_message. do 3 eexists. split; [reflexivity|].
  split; [|split].
  - apply summary_of_solid; [|reflexivity]. repeat apply Forall_app_2.
    + apply docstring_bits_solid.
    + apply param_bits_solid.
    + destruct (type_annotations ja !! _) as [t|]; [|constructor].
      destruct (declared_type t) as [d|]; [|constructor].
      destruct (truthy d); repeat constructor.
  - now apply signature_text_not_blank.
  - apply code_text_of_not_blank. reflexivity.
Qed.

Lemma entity_message_segments (parsed : ParsedPython)
    (jedi_analysis : option JediAnalysis) (project_name : option string)
    (m : CodeMessage) :
  Forall has_signature (pp_functions parsed) ->
  Forall (fun c => Forall has_signature (cls_methods c)) (pp_classes parsed) ->
  In m (create_entity_messages_with_jedi parsed jedi_analysis project_name) ->
  well_segmented m.
Proof.
  intros Hf Hc Hm. unfold create_entity_messages_with_jedi in Hm.
  apply in_app_or in Hm. destruct Hm as [Hm|Hm].
  - apply in_flat_map in Hm. destruct Hm as (cls & Hcls & [<-|Hm]).
    + apply class_message_segments.
    + apply in_map_iff in Hm. destruct Hm as (f & <- & Hin).
      apply method_message_segments.
      rewrite Forall_forall in Hc.
      specialize (Hc cls (proj2 (list_elem_of_In _ _) Hcls)).
      rewrite Forall_forall in Hc. apply Hc. now apply list_elem_of_In.
  - apply in_map_iff in Hm. destruct Hm as (f & <- & Hin).
    apply function_message_segments.
    rewrite Forall_forall in Hf. apply Hf. now apply list_elem_of_In.
Qed.

(** Every chunk of a class, method or function has exactly three segments:
    a summary that starts with a visible character, and a signature and a
    code segment that are not blank, provided each function entity has a
    signature or a name that is not blank.  No chunk has an empty segment
    list, with or without enrichment. *)
Theorem entity_chunks_never_blank (parsed : ParsedPython)
    (jedi_analysis : option JediAnalysis) (project_name : option string)
    (m : CodeMessage) :
  Forall has_signature (pp_functions parsed) ->
  Forall (fun c => Forall has_signature (cls_methods c)) (pp_classes parsed) ->
  In m (create_entity_messages_with_jedi parsed jedi_analysis project_name) ->
  well_segmented m.
Proof. apply entity_message_segments. Qed.

Lemma entity_chunks_never_blank_witness :
  well_segmented
    (function_message EmptyJediAnalysis MessagesProps.sample_parsed
       MessagesProps.sample_function).
Proof.
  apply (entity_chunks_never_blank MessagesProps.sample_parsed None None).
  - repeat constructor.
  - constructor.
  - left. reflexivity.
Defined.

(** ** Entities that come from the parser *)

Lemma function_entity_signature node_str code_for_node node :
  solid (fn_signature (function_entity node_str code_for_node node)) = true.
Proof.
  simpl. unfold build_signature.
  assert (H : solid ((if fd_asynchronous node then "async " else "")
                     +:+ "def " +:+ fd_name node +:+ "("
                     +:+ join ", " (build_params (fd_params node)) +:+ ")")
              = true)
    by (destruct (fd_asynchronous node); reflexivity).
  destruct (option_map _ (fd_returns node)) as [r|]; [|exact H].
  destruct (truthy r); [|exact H]. now apply solid_append.
Qed.

Lemma owned_all_Forall node_str code_for_node (Q : FunctionEntity -> Prop) :
  (forall node, Q (function_entity node_str code_for_node node)) ->
  forall body, Forall Q (owned_all node_str code_for_node body).
Proof.
  intros HQ.
  assert (Hs : forall s, Forall Q (owned node_str code_for_node s)).
  { induction s as [node body IH|node body IH|body IH] using stmt_ind_nested.
    - constructor.
    - change (owned node_str code_for_node (FunctionDef node body))
        with (function_entity node_str code_for_node node
                :: owned_all node_str code_for_node body).
      constructor; [apply HQ|].
      unfold owned_all. induction IH; simpl; [constructor|].
      now apply Forall_app_2.
    - change (owned node_str code_for_node (OtherStmt body))
        with (owned_all node_str code_for_node body).
      unfold owned_all. induction IH; simpl; [constructor|].
      now apply Forall_app_2. }
  intros body. unfold owned_all.
  induction body as [|s l IH]; simpl; [constructor|].
  apply Forall_app_2; [apply Hs|exact IH].
Qed.

Lemma classes_all_methods node_str code_for_node (Q : FunctionEntity -> Prop) :
  (forall node, Q (function_entity node_str code_for_node node)) ->
  forall body,
    Forall (fun c => Forall Q (cls_methods c))
           (classes_all node_str code_for_node body).
Proof.
  intros HQ.
  assert (Hs : forall s, Forall (fun c => Forall Q (cls_methods c))
                                (classes_of node_str code_for_node s)).
  { induction s as [node body IH|node body IH|body IH] using stmt_ind_nested.
    - change (classes_of node_str code_for_node (ClassDef node body))
        with (add_methods (owned_all node_str code_for_node body)
                          (class_entity node_str node)
                :: classes_all node_str code_for_node body).
      constructor.
      + simpl. now apply owned_all_Forall.
      + unfold classes_all. induction IH; simpl; [constructor|].
        now apply Forall_app_2.
    - change (classes_of node_str code_for_node (FunctionDef node body))
        with (classes_all node_str code_for_node body).
      unfold classes_all. induction IH; simpl; [constructor|].
      now apply Forall_app_2.
    - change (classes_of node_str code_for_node (OtherStmt body))
        with (classes_all node_str code_for_node body).
      unfold classes_all. induction IH; simpl; [constructor|].
      now apply Forall_app_2. }
  intros body. unfold classes_all.
  induction body as [|s l IH]; simpl; [constructor|].
  apply Forall_app_2; [apply Hs|exact IH].
Qed.

(** For a file the parser produced, every class, method and function chunk
    has its three segments, none of them blank, whatever the enrichment: the
    extracted signatures always start with [def] or [async def]. *)
Theorem parsed_file_chunks_never_blank (node_str code_for_node : expr -> string)
    (source : string) (cst : option Module_) (file repo : Path)
    (parsed : ParsedPython) (jedi_analysis : option JediAnalysis)
    (project_name : option string) (m : CodeMessage) :
  _parse_with_libcst node_str code_for_node source cst file repo = Some parsed ->
  In m (create_entity_messages_with_jedi parsed jedi_analysis project_name) ->
  well_segmented m.
Proof.
  intros Hp. apply entity_message_segments.
  - unfold _parse_with_libcst in Hp. destruct cst as [mo|]; [|discriminate].
    destruct (relative_to file repo); [|discriminate].
    destruct (compute_module_path file repo); [|discriminate].
    destruct (mod_walk_raises mo); [discriminate|].
    inversion Hp; subst; clear Hp. simpl. rewrite visit_body_module. simpl.
    apply owned_all_Forall. intros node. left.
    apply solid_not_blank, function_entity_signature.
  - unfold _parse_with_libcst in Hp. destruct cst as [mo|]; [|discriminate].
    destruct (relative_to file repo); [|discriminate].
    destruct (compute_module_path file repo); [|discriminate].
    destruct (mod_walk_raises mo); [discriminate|].
    inversion Hp; subst; clear Hp. simpl. rewrite visit_body_module. simpl.
    apply classes_all_methods. intros node. left.
    apply solid_not_blank, function_entity_signature.
Qed.

Definition one_function_module : Module_ :=
  {| mod_body := [ def_ "f" [] ]; mod_docstring := ""; mod_imports := [];
     mod_walk_raises := false |}.

Lemma parsed_file_chunks_never_blank_witness :
  Forall well_segmented
    (create_entity_messages_with_jedi
       {| file_path := "m.py"; module_path := "m"; module_docstring := "";
          imports := [];
          pp_classes := [];
          pp_functions := [function_entity no_render no_render
                             (function_node "f" no_params "")];
          source_code := "" |} None None).
Proof.
  apply Forall_forall. intros m Hm. apply list_elem_of_In in Hm.
  apply (parsed_file_chunks_never_blank no_render no_render ""
           (Some one_function_module)
           (DiscoveryProps.sample_repo ++ ["m.py"]) DiscoveryProps.sample_repo
           _ None None m eq_refl Hm).
Defined.

(** ** The module chunk *)

(** The module chunk always has three segments: two that start with a
    visible character and a code segment that is not blank and is at most
    50,016 characters long. *)
Theorem module_message_segments (parsed : ParsedPython)
    (project_name : option string) :
  exists summary_text detail_text code_text,
    text_chunks (create_module_message parsed project_name)
      = [summary_text; detail_text; code_text]
    /\ solid summary_text = true
    /\ solid detail_text = true
    /\ blank code_text = false
    /\ (len code_text <= 50016)%Z.
Proof.
  unfold create_module_message. do 3 eexists. split; [reflexivity|].
  split; [|split; [|split]].
  - destruct (truthy (module_docstring parsed)); reflexivity.
  - match goal with
    | |- solid (if truthy (join _ (filter _ ?l)) then _ else _) = true =>
        assert (Hl : Forall (fun s => solid s = true) l)
    end.
    { apply Forall_app_2.
      - destruct (imports parsed); repeat constructor.
      - match goal with
        | |- Forall _ (match ?o with [] => _ | _ => _ end) =>
            destruct o; repeat constructor
        end. }
    match goal with
    | |- solid (if truthy (join _ (filter _ ?l)) then _ else _) = true =>
        assert (Hf : filter (fun s => truthy (strip s) = true) l = l)
    end.
    { clear -Hl. induction Hl as [|x l Hx _ IH]; [reflexivity|].
      rewrite filter_cons, IH.
      destruct (decide (truthy (strip x) = true)) as [_|N]; [reflexivity|].
      rewrite truthy_strip, (solid_not_blank _ Hx) in N. now elim N. }
    rewrite Hf. destruct Hl as [|x l Hx Hl]; [reflexivity|].
    rewrite (solid_truthy _ (solid_join _ x l Hx)). now apply solid_join.
  - match goal with
    | |- blank (if truthy (strip ?c) then _ else _) = false =>
        rewrite (truthy_strip c); destruct (blank c) eqn:E; simpl;
        [reflexivity|exact E]
    end.
  - match goal with
    | |- (len (if truthy (strip ?c) then _ else _) <= _)%Z =>
        assert (Hc : (len c <= 50016)%Z)
    end.
    { destruct (truthy (source_code parsed)
                && (MODULE_LIMIT <? len (source_code parsed))%Z) eqn:E.
      - apply andb_prop in E. destruct E as [_ E]. apply Z.ltb_lt in E.
        rewrite len_append, len_slice_to by (unfold MODULE_LIMIT in *; lia).
        vm_compute. discriminate.
      - apply andb_false_iff in E. destruct E as [E|E].
        + destruct (source_code parsed); [vm_compute; discriminate|
                                          discriminate].
        + apply Z.ltb_ge in E. unfold MODULE_LIMIT in E. lia. }
    match goal with
    | |- (len (if ?b then _ else _) <= _)%Z => destruct b
    end; [exact Hc | vm_compute; discriminate].
Qed.

(** ** Text files *)

(** [parse_text_file] gives no chunk exactly when the file cannot be read,
    is blank, or is not below the root; otherwise it gives one chunk with a
    single segment, not blank and at most 50,016 characters long, whose
    speaker is the relative path. *)
Theorem parse_text_file_result (content : option string)
    (file_path repo_path : Path) (kind : string)
    (project_name : option string) :
  match parse_text_file content file_path repo_path kind project_name with
  | None =>
      content = None
      \/ (exists c, content = Some c /\ blank c = true)
      \/ relative_to file_path repo_path = None
  | Some m =>
      exists c rel text,
        content = Some c /\ blank c = false
        /\ relative_to file_path repo_path = Some rel
        /\ text_chunks m = [text]
        /\ blank text = false
        /\ (len text <= 50016)%Z
        /\ slice_to 50000 text = slice_to 50000 c
        /\ speaker m = path_str rel
  end.
Proof.
  unfold parse_text_file. destruct content as [c|]; [|now left].
  rewrite truthy_strip, negb_involutive.
  destruct (blank c) eqn:Eb.
  - rewrite orb_true_r. right. left. eauto.
  - assert (Ht : truthy c = true) by (destruct c; [discriminate|reflexivity]).
    rewrite Ht. simpl.
    destruct (relative_to file_path repo_path) as [rel|]; [|now right; right].
    exists c, rel. eexists. split; [reflexivity|]. split; [exact Eb|].
    split; [reflexivity|]. split; [reflexivity|].
    destruct (MODULE_LIMIT <? len c)%Z eqn:E.
    + apply Z.ltb_lt in E. split; [|split; [|split; [|reflexivity]]].
      * rewrite blank_append. apply andb_false_iff. right. reflexivity.
      * rewrite len_append, len_slice_to by (unfold MODULE_LIMIT in *; lia).
        vm_compute. discriminate.
      * unfold slice_to, MODULE_LIMIT in *.
        rewrite ParserExtra.take_chars_append_ge.
        -- apply ParserExtra.take_chars_take_chars.
        -- rewrite length_take_chars. unfold len in E. lia.
    + apply Z.ltb_ge in E. unfold MODULE_LIMIT in E.
      split; [exact Eb|]. split; [lia|]. split; reflexivity.
Qed.

(** ** The summary keeps the docstring *)

Lemma summary_of_starts (x : string) (more : list string) (fallback : string) :
  solid x = true ->
  exists rest, summary_of (x :: more) fallback = x +:+ rest.
Proof.
  intros Hx. unfold summary_of. rewrite filter_cons.
  destruct (decide (truthy x = true)) as [_|N];
    [|now rewrite solid_truthy in N].
  rewrite (solid_truthy _ (solid_join _ x _ Hx)).
  unfold join. destruct (filter _ more) as [|y l].
  - exists EmptyString. simpl. now rewrite append_empty_r.
  - eexists. reflexivity.
Qed.

(** Whenever an entity has a docstring that is not blank, the summary
    segment of its chunk begins with the stripped docstring, with or without
    enrichment: type facts are only ever appended after it. *)
Theorem summary_begins_with_docstring (ja : Containers) (parsed : ParsedPython)
    (cls : ClassEntity) (f : FunctionEntity) :
  (blank (cls_docstring cls) = false ->
   exists rest summary_text others,
     text_chunks (class_message ja parsed cls) = summary_text :: others
     /\ summary_text = strip (cls_docstring cls) +:+ rest)
  /\ (blank (fn_docstring f) = false ->
      (exists rest summary_text others,
         text_chunks (method_message ja parsed cls f) = summary_text :: others
         /\ summary_text = strip (fn_docstring f) +:+ rest)
      /\ (exists rest summary_text others,
            text_chunks (function_message ja parsed f) = summary_text :: others
            /\ summary_text = strip (fn_docstring f) +:+ rest)).
Proof.
  assert (Hd : forall doc, blank doc = false ->
                 docstring_bits doc = [strip doc]).
  { intros doc H. unfold docstring_bits. rewrite truthy_strip, H.
    now destruct doc. }
  assert (Hs : forall doc more fb others, blank doc = false ->
            exists rest summary_text others',
              summary_of (docstring_bits doc ++ more) fb :: others
                = summary_text :: others'
              /\ summary_text = strip doc +:+ rest).
  { intros doc more fb others H. rewrite (Hd _ H).
    destruct (summary_of_starts (strip doc) more fb (strip_solid _ H))
      as (rest & E).
    exists rest. do 2 eexists. split; [reflexivity|]. exact E. }
  split.
  - intros H. unfold class_message. cbv zeta. cbn [text_chunks].
    now apply Hs.
  - intros H. split.
    + unfold method_message. cbv zeta. cbn [text_chunks]. now apply Hs.
    + unfold function_message. cbv zeta. cbn [text_chunks]. now apply Hs.
Qed.

Lemma summary_begins_with_docstring_witness :
  exists rest summary_text others,
    text_chunks (function_message (ja_containers MessagesProps.sample_analysis)
                   MessagesProps.sample_parsed MessagesProps.sample_function)
      = summary_text :: others
    /\ summary_text = "Area of a disc." +:+ rest.
Proof.
  apply (summary_begins_with_docstring
           (ja_containers MessagesProps.sample_analysis)
           MessagesProps.sample_parsed
           {| cls_name := "C"; cls_docstring := ""; cls_bases := [];
              cls_decorators := []; cls_methods := []; cls_code_body := "";
              cls_pos := (None, None) |}
           MessagesProps.sample_function).
  reflexivity.
Defined.

End MessagesExtra.

(* ===================================================================== *)
(** * The orchestrator: batches, stage order, cancellation, a clean run   *)
(* ===================================================================== *)

Module RunnerExtra.
Import PyStr Discovery Parser Messages Runner.

(** ** Batches *)

Lemma batches_of_cons fuel x (l : list CodeMessage) :
  batches_of (S fuel) (x :: l)
  = take batch_size (x :: l) :: batches_of fuel (drop batch_size (x :: l)).
Proof. reflexivity. Qed.

Lemma batches_of_concat fuel (l : list CodeMessage) :
  length l <= fuel -> concat (batches_of fuel l) = l.
Proof.
  revert l. induction fuel as [|fuel IH]; intros l H.
  - destruct l; [reflexivity|simpl in H; lia].
  - destruct l as [|x l]; [reflexivity|].
    rewrite batches_of_cons. cbn [concat]. rewrite IH.
    + apply take_drop.
    + rewrite length_drop. unfold batch_size. cbn [length] in *. lia.
Qed.

Lemma batches_of_sizes fuel (l : list CodeMessage) :
  Forall (fun b => 1 <= length b <= batch_size) (batches_of fuel l).
Proof.
  revert l. induction fuel as [|fuel IH]; intros l; [constructor|].
  destruct l as [|x l]; [constructor|].
  rewrite batches_of_cons. constructor; [|apply IH].
  rewrite length_take. unfold batch_size. cbn [length]. lia.
Qed.

Lemma batches_of_count fuel (l : list CodeMessage) :
  length l <= fuel ->
  zlen (batches_of fuel l)
  = ((zlen l + Z.of_nat batch_size - 1) / Z.of_nat batch_size)%Z.
Proof.
  unfold zlen, batch_size.
  revert l. induction fuel as [|fuel IH]; intros l H.
  - destruct l; [reflexivity|simpl in H; lia].
  - destruct l as [|x l]; [reflexivity|].
    rewrite batches_of_cons. cbn [length]. rewrite Nat2Z.inj_succ, IH.
    + rewrite length_drop. unfold batch_size. cbn [length].
      destruct (le_lt_dec (S (length l)) 50) as [Hs|Hs].
      * replace (S (length l) - 50) with 0 by lia.
        change (Z.of_nat 0) with 0%Z.
        assert (1 <= Z.of_nat (S (length l)) <= 50)%Z by lia.
        Z.div_mod_to_equations. lia.
      * rewrite Nat2Z.inj_sub by lia.
        assert (50 < Z.of_nat (S (length l)))%Z by lia.
        change (Z.of_nat 50) with 50%Z.
        Z.div_mod_to_equations. lia.
    + rewrite length_drop. unfold batch_size. cbn [length] in *. lia.
Qed.

Lemma batches_of_lookup fuel (l : list CodeMessage) (i : nat) :
  length l <= fuel -> batch_size * i < length l ->
  batches_of fuel l !! i = Some (take batch_size (drop (batch_size * i) l)).
Proof.
  revert l i. induction fuel as [|fuel IH]; intros l i H Hi; [lia|].
  destruct l as [|x l]; [simpl in Hi; lia|].
  rewrite batches_of_cons. destruct i as [|i].
  - rewrite Nat.mul_0_r. reflexivity.
  - cbn [lookup list_lookup]. rewrite IH.
    + rewrite drop_drop. do 3 f_equal. lia.
    + rewrite length_drop. unfold batch_size. cbn [length] in *. lia.
    + rewrite length_drop. unfold batch_size in *. cbn [length] in *. lia.
Qed.

(** The slices [all_messages[i : i + 50]] for [i] in
    [range(0, len(all_messages), 50)] partition the messages: put together
    they are the messages, in order; none is empty and none is longer than
    fifty; the k-th slice holds the messages from position [50 k]; and their
    number is [total_batches], so the last batch reports 100 percent. *)
Theorem batches_partition (all_messages : list CodeMessage) :
  let batches := batches_of (length all_messages) all_messages in
  concat batches = all_messages
  /\ Forall (fun b => 1 <= length b <= batch_size) batches
  /\ zlen batches
     = ((zlen all_messages + Z.of_nat batch_size - 1) / Z.of_nat batch_size)%Z
  /\ (forall k, batch_size * k < length all_messages ->
        batches !! k
        = Some (take batch_size (drop (batch_size * k) all_messages))).
Proof.
  cbv zeta. split; [|split; [|split]].
  - now apply batches_of_concat.
  - apply batches_of_sizes.
  - now apply batches_of_count.
  - intros k Hk. now apply batches_of_lookup.
Qed.

(** ** The order of the stages *)

Definition stage_rank (stage : string) : option nat :=
  if String.eqb stage "discovery" then Some 0
  else if String.eqb stage "parsing" then Some 1
  else if String.eqb stage "type_analysis" then Some 2
  else if String.eqb stage "message_creation" then Some 3
  else if String.eqb stage "indexing" then Some 4
  else None.

(** The rank of an event: that of its stage for a progress event, none for
    the completion and the error event. *)
Definition event_rank (e : Event) : option nat :=
  match e with
  | IngestionProgress stage _ => stage_rank stage
  | _ => None
  end.

(** [climbs lo hi evs]: the events are progress events whose ranks never
    decrease, starting at [lo] or above and ending at [hi] or below. *)
Fixpoint climbs (lo hi : nat) (evs : list Event) : bool :=
  match evs with
  | [] => lo <=? hi
  | e :: rest =>
      match event_rank e with
      | Some r => (lo <=? r) && climbs r hi rest
      | None => false
      end
  end.

Lemma climbs_le lo hi evs : climbs lo hi evs = true -> lo <= hi.
Proof.
  revert lo. induction evs as [|e evs IH]; intros lo H; simpl in H.
  - now apply Nat.leb_le.
  - destruct (event_rank e) as [r|]; [|discriminate].
    apply andb_prop in H. destruct H as [H1 H2].
    apply Nat.leb_le in H1. apply IH in H2. lia.
Qed.

Lemma climbs_weaken lo lo' hi hi' evs :
  lo' <= lo -> hi <= hi' -> climbs lo hi evs = true -> climbs lo' hi' evs = true.
Proof.
  revert lo lo'. induction evs as [|e evs IH]; intros lo lo' Hlo Hhi H;
    simpl in *.
  - apply Nat.leb_le in H. apply Nat.leb_le. lia.
  - destruct (event_rank e) as [r|]; [|discriminate].
    apply andb_prop in H. destruct H as [H1 H2]. apply Nat.leb_le in H1.
    apply andb_true_intro. split; [apply Nat.leb_le; lia|].
    now apply (IH r r).
Qed.

Lemma climbs_app lo mid hi evs1 evs2 :
  climbs lo mid evs1 = true -> climbs mid hi evs2 = true ->
  climbs lo hi (evs1 ++ evs2) = true.
Proof.
  revert lo. induction evs1 as [|e evs1 IH]; intros lo H1 H2; simpl in *.
  - apply Nat.leb_le in H1. now apply (climbs_weaken mid lo hi hi).
  - destruct (event_rank e) as [r|]; [|discriminate].
    apply andb_prop in H1. destruct H1 as [Ha Hb].
    rewrite Ha. simpl. now apply IH.
Qed.

Lemma climbs_bounds lo hi evs e :
  climbs lo hi evs = true -> In e evs ->
  exists r, event_rank e = Some r /\ lo <= r <= hi.
Proof.
  revert lo. induction evs as [|x evs IH]; intros lo H Hin; [destruct Hin|].
  simpl in H. destruct (event_rank x) as [r|] eqn:Er; [|discriminate].
  apply andb_prop in H. destruct H as [H1 H2]. apply Nat.leb_le in H1.
  destruct Hin as [<-|Hin].
  - exists r. split; [exact Er|]. apply climbs_le in H2. lia.
  - destruct (IH r H2 Hin) as (r' & E & B). exists r'. split; [exact E|lia].
Qed.

Lemma climbs_ordered lo hi evs i j e1 e2 :
  climbs lo hi evs = true -> i <= j ->
  evs !! i = Some e1 -> evs !! j = Some e2 ->
  exists r1 r2, event_rank e1 = Some r1 /\ event_rank e2 = Some r2 /\ r1 <= r2.
Proof.
  revert lo i j. induction evs as [|x evs IH]; intros lo i j H Hij H1 H2;
    [discriminate|].
  simpl in H. destruct (event_rank x) as [r|] eqn:Er; [|discriminate].
  apply andb_prop in H. destruct H as [_ H].
  destruct i as [|i].
  - simpl in H1. inversion H1; subst x. destruct j as [|j].
    + simpl in H2. inversion H2; subst e2. exists r, r. auto.
    + simpl in H2. apply list_elem_of_lookup_2, list_elem_of_In in H2.
      destruct (climbs_bounds _ _ _ _ H H2) as (r2 & E2 & B).
      exists r, r2. split; [exact Er|]. split; [exact E2|lia].
  - destruct j as [|j]; [lia|]. simpl in H1, H2.
    apply (IH r i j); auto. lia.
Qed.

(** A computation is staged between [lo] and [hi] when the events it
    yields, however it ends, climb from [lo] to [hi]. *)
Definition staged {A} (lo hi : nat) (m : Gen A) : Prop :=
  forall w w' o, m w = (w', o) ->
    exists evs, events w' = events w ++ evs /\ climbs lo hi evs = true.

(** A computation finishes from [lo] when its events climb from [lo] to the
    last stage and are followed by the completion event exactly when it
    ends normally. *)
Definition finishing {A} (lo : nat) (m : Gen A) : Prop :=
  forall w w' o, m w = (w', o) ->
    exists evs tail,
      events w' = events w ++ evs ++ tail
      /\ climbs lo 4 evs = true
      /\ match o with
         | Value _ => exists r, tail = [IngestionComplete r]
         | _ => tail = []
         end.

Lemma staged_silent {A} lo hi (m : Gen A) :
  (forall w w' o, m w = (w', o) -> events w' = events w) ->
  lo <= hi -> staged lo hi m.
Proof.
  intros Hm Hle w w' o H. exists []. rewrite app_nil_r.
  split; [eapply Hm; eauto|]. now apply Nat.leb_le.
Qed.

Lemma staged_ret {A} lo hi (a : A) : lo <= hi -> staged lo hi (ret a).
Proof. apply staged_silent. intros w w' o H. now inversion H. Qed.

Lemma staged_raise {A} lo hi e : lo <= hi -> staged lo hi (@raise A e).
Proof. apply staged_silent. intros w w' o H. now inversion H. Qed.

Lemma staged_check_cancel env lo hi : lo <= hi -> staged lo hi (check_cancel env).
Proof.
  apply staged_silent. intros w w' o H. unfold check_cancel in H.
  destruct (cancel_event env) as [f|].
  - destruct (f (polls w)); now inversion H.
  - now inversion H.
Qed.

Lemma staged_discover env lo hi : lo <= hi -> staged lo hi (discover env).
Proof.
  unfold discover.
  destruct (fs_fault env); [apply staged_raise|apply staged_ret].
Qed.

Lemma staged_await {A} (answer : Await A) lo hi :
  lo <= hi -> staged lo hi (await answer).
Proof.
  apply staged_silent. intros w w' o H.
  destruct answer as [[a|e]|e]; now inversion H.
Qed.

Lemma staged_add_batch env batch lo hi :
  lo <= hi -> staged lo hi (add_batch env batch).
Proof.
  apply staged_silent. intros w w' o H. unfold add_batch, await in H.
  destruct (add_messages_with_indexing env _ batch) as [[r|e]|e];
    now inversion H.
Qed.

Lemma staged_yield lo hi e : climbs lo hi [e] = true -> staged lo hi (yield e).
Proof. intros He w w' o H. inversion H; subst. now exists [e]. Qed.

Lemma staged_bind {A B} lo mid hi (m : Gen A) (k : A -> Gen B) :
  staged lo mid m -> mid <= hi -> (forall a, staged mid hi (k a)) ->
  staged lo hi (bind m k).
Proof.
  intros Hm Hle Hk w w' o H. unfold bind in H.
  destruct (m w) as [w1 [a| |e|e]] eqn:Em;
    destruct (Hm _ _ _ Em) as (evs1 & E1 & C1).
  - destruct (Hk a _ _ _ H) as (evs2 & E2 & C2).
    exists (evs1 ++ evs2). rewrite E2, E1, app_assoc.
    split; [reflexivity|]. now apply (climbs_app lo mid hi).
  - inversion H; subst. exists evs1. split; [exact E1|].
    apply (climbs_weaken lo lo mid hi); auto.
  - inversion H; subst. exists evs1. split; [exact E1|].
    apply (climbs_weaken lo lo mid hi); auto.
  - inversion H; subst. exists evs1. split; [exact E1|].
    apply (climbs_weaken lo lo mid hi); auto.
Qed.

Lemma finishing_complete lo r :
  lo <= 4 -> finishing lo (yield (IngestionComplete r)).
Proof.
  intros Hle w w' o H. inversion H; subst. exists [], [IngestionComplete r].
  split; [reflexivity|]. split; [now apply Nat.leb_le|]. now exists r.
Qed.

Lemma finishing_bind {A B} lo mid (m : Gen A) (k : A -> Gen B) :
  staged lo mid m -> mid <= 4 -> (forall a, finishing mid (k a)) ->
  finishing lo (bind m k).
Proof.
  intros Hm Hle Hk w w' o H. unfold bind in H.
  destruct (m w) as [w1 [a| |e|e]] eqn:Em;
    destruct (Hm _ _ _ Em) as (evs1 & E1 & C1).
  - destruct (Hk a _ _ _ H) as (evs2 & tail & E2 & C2 & T).
    exists (evs1 ++ evs2), tail. rewrite E2, E1, !app_assoc.
    split; [reflexivity|]. split; [|exact T].
    now apply (climbs_app lo mid 4).
  - inversion H; subst. exists evs1, []. rewrite app_nil_r.
    split; [exact E1|]. split; [|reflexivity].
    apply (climbs_weaken lo lo mid 4); auto.
  - inversion H; subst. exists evs1, []. rewrite app_nil_r.
    split; [exact E1|]. split; [|reflexivity].
    apply (climbs_weaken lo lo mid 4); auto.
  - inversion H; subst. exists evs1, []. rewrite app_nil_r.
    split; [exact E1|]. split; [|reflexivity].
    apply (climbs_weaken lo lo mid 4); auto.
Qed.

Section Stages.

Variable env : Env.

Ltac stage_leaf :=
  first
    [ apply staged_ret; lia | apply staged_raise; lia
    | apply staged_await; lia
    | apply staged_check_cancel; lia | apply staged_discover; lia
    | apply staged_add_batch; lia
    | apply staged_yield; reflexivity ].

Ltac stage_same r :=
  first
    [ stage_leaf
    | apply (staged_bind r r r); [|lia|intros ?]
    | match goal with
      | |- staged _ _ (match ?x with _ => _ end) => destruct x
      end ].

Lemma staged_parse_loop total i results all_parsed failures :
  staged 1 1 (parse_loop env total i results all_parsed failures).
Proof.
  revert i all_parsed failures.
  induction results as [|[file result] rest IH]; intros; simpl;
    repeat (stage_same 1 || apply IH).
Qed.

Lemma staged_jedi_loop total i results acc :
  staged 2 2 (jedi_loop env total i results acc).
Proof.
  revert i acc. induction results as [|r rest IH]; intros; simpl;
    repeat (stage_same 2 || apply IH).
Qed.

Lemma staged_message_loop pn jedi n total i processed items msgs :
  staged 3 3 (message_loop env pn jedi n total i processed items msgs).
Proof.
  revert i processed msgs.
  induction items as [|[file parsed] rest IH]; intros; simpl;
    repeat (stage_same 3 || apply IH).
Qed.

Lemma staged_text_loop pn files msgs :
  staged 3 3 (text_loop env pn files msgs).
Proof.
  revert msgs. induction files as [|f rest IH]; intros; simpl;
    repeat (stage_same 3 || apply IH).
Qed.

Lemma staged_index_loop total n batches semrefs added :
  staged 4 4 (index_loop env total n batches semrefs added).
Proof.
  revert n semrefs added. induction batches as [|b rest IH]; intros; simpl;
    repeat (stage_same 4 || apply IH).
Qed.

(** The type analysis block, entered only when something was parsed. *)
Lemma staged_type_analysis (all_parsed : list (Path * ParsedPython)) :
  staged 1 2
    (match all_parsed with
     | [] => ret []
     | _ =>
         check_cancel env ;;;
         yield (progress_event "type_analysis" active 0) ;;;
         (all_jedi <- jedi_loop env (zlen all_parsed) 0
                        (map (fun fp => analyze env (fst fp) (snd fp)) all_parsed)
                        [] ;;
          yield (progress_event "type_analysis" complete 100) ;;;
          ret all_jedi)
     end).
Proof.
  destruct all_parsed as [|x l]; [apply staged_ret; lia|].
  apply (staged_bind 1 1 2); [stage_leaf|lia|intros _].
  apply (staged_bind 1 2 2); [stage_leaf|lia|intros _].
  apply (staged_bind 2 2 2); [apply staged_jedi_loop|lia|intros a].
  apply (staged_bind 2 2 2); [stage_leaf|lia|intros _].
  stage_leaf.
Qed.

Lemma finishing_run_body : repo_exists env = true -> finishing 0 (run_body env).
Proof.
  intros Hex. unfold run_body. rewrite Hex. cbn [negb]. cbv zeta.
  apply (finishing_bind 0 0); [stage_leaf|lia|intros _].
  apply (finishing_bind 0 0); [stage_leaf|lia|intros _].
  apply (finishing_bind 0 0); [stage_leaf|lia|intros files].
  apply (finishing_bind 0 0); [stage_leaf|lia|intros _].
  apply (finishing_bind 0 0); [stage_leaf|lia|intros _].
  apply (finishing_bind 0 1); [stage_leaf|lia|intros _].
  apply (finishing_bind 1 1); [apply staged_parse_loop|lia|].
  intros [all_parsed failures].
  apply (finishing_bind 1 1); [stage_leaf|lia|intros _].
  apply (finishing_bind 1 2); [apply staged_type_analysis|lia|].
  intros all_jedi_analyses.
  apply (finishing_bind 2 2); [stage_leaf|lia|intros _].
  apply (finishing_bind 2 3); [stage_leaf|lia|intros _].
  apply (finishing_bind 3 3); [apply staged_message_loop|lia|].
  intros [all_messages processed].
  apply (finishing_bind 3 3); [apply staged_text_loop|lia|].
  intros all_messages'.
  apply (finishing_bind 3 3); [stage_leaf|lia|intros _].
  apply (finishing_bind 3 3); [stage_leaf|lia|intros _].
  apply (finishing_bind 3 4); [stage_leaf|lia|intros _].
  apply (finishing_bind 4 4); [stage_leaf|lia|intros _].
  apply (finishing_bind 4 4); [apply staged_index_loop|lia|intros semrefs].
  apply (finishing_bind 4 4); [stage_leaf|lia|intros _].
  apply finishing_complete. lia.
Qed.

End Stages.

(** In every run on an existing repository the events are progress events in
    pipeline order (discovery, parsing, type analysis, message creation,
    indexing: a stage once left is never reported again), followed by at
    most one closing event: the completion event when the pipeline ran to
    its end, the error event when an [Exception] was raised, and nothing
    when the run was cancelled or when an exception outside [Exception]
    (a [CancelledError], a [KeyboardInterrupt]) was raised at an await:
    that one leaves the generator unhandled. *)
Theorem events_in_pipeline_order (env : Env) :
  repo_exists env = true ->
  exists evs tail,
    events (run_ingestion env) = evs ++ tail
    /\ (forall i j e1 e2, i <= j ->
          evs !! i = Some e1 -> evs !! j = Some e2 ->
          exists r1 r2,
            event_rank e1 = Some r1 /\ event_rank e2 = Some r2 /\ r1 <= r2)
    /\ match snd (run_body env initial_world) with
       | Value _ => exists r, tail = [IngestionComplete r]
       | Returned => tail = []
       | Raised e => tail = [IngestionError e "unknown"]
       | Interrupted _ => tail = []
       end.
Proof.
  intros Hex. unfold run_ingestion.
  destruct (run_body env initial_world) as [w o] eqn:Er.
  destruct (finishing_run_body env Hex _ _ _ Er) as (evs & tail & E & C & T).
  simpl in E.
  assert (Ho : forall i j e1 e2, i <= j ->
            evs !! i = Some e1 -> evs !! j = Some e2 ->
            exists r1 r2,
              event_rank e1 = Some r1 /\ event_rank e2 = Some r2 /\ r1 <= r2).
  { intros i j e1 e2. now apply (climbs_ordered 0 4). }
  destruct o as [a| |e|e]; simpl.
  - exists evs, tail. auto.
  - exists evs, []. subst tail. auto.
  - exists evs, [IngestionError e "unknown"]. subst tail.
    rewrite app_nil_r in E. rewrite E. auto.
  - exists evs, []. subst tail. auto.
Qed.

Lemma events_in_pipeline_order_witness :
  exists evs tail,
    events (run_ingestion RunnerProps.failing_index_env) = evs ++ tail
    /\ (forall i j e1 e2, i <= j ->
          evs !! i = Some e1 -> evs !! j = Some e2 ->
          exists r1 r2,
            event_rank e1 = Some r1 /\ event_rank e2 = Some r2 /\ r1 <= r2)
    /\ match snd (run_body RunnerProps.failing_index_env initial_world) with
       | Value _ => exists r, tail = [IngestionComplete r]
       | Returned => tail = []
       | Raised e => tail = [IngestionError e "unknown"]
       | Interrupted _ => tail = []
       end.
Proof.
  apply (events_in_pipeline_order RunnerProps.failing_index_env).
  reflexivity.
Defined.

(** ** Cancellation *)

(** What a computation does with the cancellation flag [is_set]: it ends by
    [return] only at a poll that observes the flag set, and every other poll
    it makes observes the flag unset. *)
Definition polled {A} (is_set : nat -> bool) (m : Gen A) : Prop :=
  forall w w' o, m w = (w', o) ->
    match o with
    | Returned =>
        polls w < polls w' /\ is_set (polls w' - 1) = true
        /\ forall n, polls w <= n < polls w' - 1 -> is_set n = false
    | _ =>
        polls w <= polls w'
        /\ forall n, polls w <= n < polls w' -> is_set n = false
    end.

Definition grows {A} (m : Gen A) : Prop :=
  forall w w' o, m w = (w', o) -> polls w < polls w'.

Lemma polled_le {A} is_set (m : Gen A) w w' o :
  polled is_set m -> m w = (w', o) -> polls w <= polls w'.
Proof.
  intros Hm H. specialize (Hm _ _ _ H). destruct o; destruct Hm; lia.
Qed.

Lemma polled_silent {A} is_set (m : Gen A) :
  (forall w w' o, m w = (w', o) -> polls w' = polls w /\ o <> Returned) ->
  polled is_set m.
Proof.
  intros Hm w w' o H. destruct (Hm _ _ _ H) as [E N].
  destruct o; [|congruence| |]; rewrite E; split; try lia; intros; lia.
Qed.

Lemma polled_ret {A} is_set (a : A) : polled is_set (ret a).
Proof.
  apply polled_silent. intros w w' o H. inversion H. split; [auto|discriminate].
Qed.

Lemma polled_raise {A} is_set e : polled is_set (@raise A e).
Proof.
  apply polled_silent. intros w w' o H. inversion H. split; [auto|discriminate].
Qed.

Lemma polled_yield is_set e : polled is_set (yield e).
Proof.
  apply polled_silent. intros w w' o H. inversion H. split; [auto|discriminate].
Qed.

Lemma polled_bind {A B} is_set (m : Gen A) (k : A -> Gen B) :
  polled is_set m -> (forall a, polled is_set (k a)) -> polled is_set (bind m k).
Proof.
  intros Hm Hk w w' o H. unfold bind in H.
  destruct (m w) as [w1 [a| |e|e]] eqn:Em; specialize (Hm _ _ _ Em);
    simpl in Hm.
  - destruct Hm as [L1 U1]. specialize (Hk a _ _ _ H).
    destruct o as [b| |e|e].
    + destruct Hk as [L2 U2]. split; [lia|]. intros n Hn.
      destruct (le_lt_dec (polls w1) n); [apply U2|apply U1]; lia.
    + destruct Hk as (L2 & S2 & U2). split; [lia|]. split; [exact S2|].
      intros n Hn. destruct (le_lt_dec (polls w1) n); [apply U2|apply U1]; lia.
    + destruct Hk as [L2 U2]. split; [lia|]. intros n Hn.
      destruct (le_lt_dec (polls w1) n); [apply U2|apply U1]; lia.
    + destruct Hk as [L2 U2]. split; [lia|]. intros n Hn.
      destruct (le_lt_dec (polls w1) n); [apply U2|apply U1]; lia.
  - inversion H; subst. exact Hm.
  - inversion H; subst. exact Hm.
  - inversion H; subst. exact Hm.
Qed.

Section Polls.

Variable env : Env.
Variable is_set : nat -> bool.
Hypothesis flag : cancel_event env = Some is_set.

Lemma polled_check_cancel : polled is_set (check_cancel env).
Proof using flag.
  intros w w' o H. unfold check_cancel in H. rewrite flag in H.
  destruct (is_set (polls w)) eqn:E; inversion H; subst; simpl.
  - split; [lia|]. rewrite Nat.sub_0_r. split; [exact E|]. intros; lia.
  - split; [lia|]. intros n Hn. now replace n with (polls w) by lia.
Qed.

Lemma grows_check_cancel : grows (check_cancel env).
Proof using flag.
  intros w w' o H. unfold check_cancel in H. rewrite flag in H.
  destruct (is_set (polls w)); inversion H; subst; simpl; lia.
Qed.

Lemma polled_discover : polled is_set (discover env).
Proof.
  unfold discover.
  destruct (fs_fault env); [apply polled_raise|apply polled_ret].
Qed.

Lemma polled_await {A} (answer : Await A) : polled is_set (await answer).
Proof.
  apply polled_silent. intros w w' o H.
  destruct answer as [[a|e]|e]; inversion H;
    (split; [reflexivity|discriminate]).
Qed.

Lemma polled_add_batch batch : polled is_set (add_batch env batch).
Proof.
  apply polled_silent. intros w w' o H. unfold add_batch, await in H.
  destruct (add_messages_with_indexing env _ batch) as [[r|e]|e];
    inversion H; (split; [reflexivity|discriminate]).
Qed.

Ltac poll_step :=
  first
    [ apply polled_ret | apply polled_raise | apply polled_yield
    | apply polled_await
    | apply polled_check_cancel | apply polled_discover
    | apply polled_add_batch
    | apply polled_bind; [|intros ?]
    | match goal with
      | |- polled _ (match ?x with _ => _ end) => destruct x
      end ].

Lemma polled_parse_loop total i results all_parsed failures :
  polled is_set (parse_loop env total i results all_parsed failures).
Proof using flag.
  revert i all_parsed failures.
  induction results as [|[file result] rest IH]; intros; simpl;
    repeat (poll_step || apply IH).
Qed.

Lemma polled_jedi_loop total i results acc :
  polled is_set (jedi_loop env total i results acc).
Proof using flag.
  revert i acc. induction results as [|r rest IH]; intros; simpl;
    repeat (poll_step || apply IH).
Qed.

Lemma polled_message_loop pn jedi n total i processed items msgs :
  polled is_set (message_loop env pn jedi n total i processed items msgs).
Proof using flag.
  revert i processed msgs.
  induction items as [|[file parsed] rest IH]; intros; simpl;
    repeat (poll_step || apply IH).
Qed.

Lemma polled_text_loop pn files msgs :
  polled is_set (text_loop env pn files msgs).
Proof using flag.
  revert msgs. induction files as [|f rest IH]; intros; simpl;
    repeat (poll_step || apply IH).
Qed.

Lemma polled_index_loop total n batches semrefs added :
  polled is_set (index_loop env total n batches semrefs added).
Proof using flag.
  revert n semrefs added. induction batches as [|b rest IH]; intros; simpl;
    repeat (poll_step || apply IH).
Qed.

Lemma polled_run_body :
  repo_exists env = true -> polled is_set (run_body env).
Proof using flag.
  intros Hex. unfold run_body. rewrite Hex. cbn [negb]. cbv zeta.
  repeat (poll_step || apply polled_parse_loop || apply polled_jedi_loop
          || apply polled_message_loop || apply polled_text_loop
          || apply polled_index_loop).
Qed.

(** The first poll is always made. *)
Lemma grows_run_body : repo_exists env = true -> grows (run_body env).
Proof using flag.
  intros Hex w w' o H.
  pose proof (polled_run_body Hex) as Hp.
  unfold run_body in H, Hp. rewrite Hex in H, Hp. cbn [negb] in H, Hp.
  cbv zeta in H, Hp.
  match type of H with
  | bind (yield ?e) (fun _ => bind (check_cancel env) ?k) w = _ =>
      set (rest := k) in *;
      assert (Hk : forall a, polled is_set (rest a))
  end.
  { intros a. subst rest. cbv beta.
    repeat (poll_step || apply polled_parse_loop || apply polled_jedi_loop
            || apply polled_message_loop || apply polled_text_loop
            || apply polled_index_loop). }
  unfold bind at 1 in H. cbn [yield] in H. unfold bind at 1 in H.
  match type of H with
  | match check_cancel env ?w1 with _ => _ end = _ =>
      destruct (check_cancel env w1) as [w2 o2] eqn:Ec;
      pose proof (grows_check_cancel _ _ _ Ec) as Hg; simpl in Hg
  end.
  destruct o2 as [a| |e|e].
  - pose proof (polled_le _ _ _ _ _ (Hk a) H). lia.
  - inversion H; subst. exact Hg.
  - inversion H; subst. exact Hg.
  - inversion H; subst. exact Hg.
Qed.

End Polls.

(** With a cancellation flag, a run on an existing repository polls the flag
    at least once, and it is cut short exactly when its last poll observed
    the flag set: every earlier poll observed it unset, so the first poll
    that sees the flag ends the run.  A run that was cut short has yielded
    progress events only: no completion event and no error event. *)
Theorem cancellation_at_first_set_poll (env : Env) (is_set : nat -> bool)
    (w : World) (o : Outcome unit) :
  repo_exists env = true ->
  cancel_event env = Some is_set ->
  run_body env initial_world = (w, o) ->
  0 < polls w
  /\ (forall n, n < polls w - 1 -> is_set n = false)
  /\ (o = Returned <-> is_set (polls w - 1) = true)
  /\ (o = Returned ->
      events (run_ingestion env) = events w
      /\ Forall (fun e => is_Some (event_rank e)) (events w)).
Proof.
  intros Hex Hc Hrun.
  pose proof (grows_run_body env is_set Hc Hex _ _ _ Hrun) as Hg.
  pose proof (polled_run_body env is_set Hc Hex _ _ _ Hrun) as Hp.
  simpl in Hg. split; [exact Hg|].
  destruct o as [a| |e|e]; simpl in Hp.
  - destruct Hp as [_ U]. split; [intros n Hn; apply U; lia|].
    split; [|discriminate]. split; [discriminate|].
    intros E. rewrite U in E by lia. discriminate.
  - destruct Hp as (_ & S & U). split; [intros n Hn; apply U; lia|].
    split; [tauto|]. intros _. unfold run_ingestion. rewrite Hrun.
    split; [reflexivity|].
    destruct (finishing_run_body env Hex _ _ _ Hrun) as (evs & tail & E & C & T).
    subst tail. simpl in E. rewrite app_nil_r in E. rewrite E.
    apply Forall_forall. intros x Hx. apply list_elem_of_In in Hx.
    destruct (climbs_bounds _ _ _ _ C Hx) as (r & Er & _).
    rewrite Er. now exists r.
  - destruct Hp as [_ U]. split; [intros n Hn; apply U; lia|].
    split; [|discriminate]. split; [discriminate|].
    intros E. rewrite U in E by lia. discriminate.
  - destruct Hp as [_ U]. split; [intros n Hn; apply U; lia|].
    split; [|discriminate]. split; [discriminate|].
    intros E. rewrite U in E by lia. discriminate.
Qed.

Lemma cancellation_at_first_set_poll_witness :
  polls (fst (run_body RunnerProps.cancelled_env initial_world)) = 2
  /\ 0 < polls (fst (run_body RunnerProps.cancelled_env initial_world)).
Proof.
  split; [reflexivity|].
  apply (cancellation_at_first_set_poll RunnerProps.cancelled_env
           (fun n => Nat.leb 1 n)
           (fst (run_body RunnerProps.cancelled_env initial_world))
           Returned);
    reflexivity.
Defined.

(** ** A run that nothing disturbs *)

(** Nobody cancels: there is no flag, or no poll ever observes it set. *)
Definition never_cancelled (env : Env) : Prop :=
  match cancel_event env with
  | None => True
  | Some is_set => forall n, is_set n = false
  end.

(** [gives n m a calls]: started after [n] batches were handed to the index,
    [m] goes on with the value [a], having handed over [calls]. *)
Definition gives {A} (n : nat) (m : Gen A) (a : A)
    (calls : list (list CodeMessage)) : Prop :=
  forall w, length (index_calls w) = n ->
    exists w' evs,
      m w = (w', Value a)
      /\ events w' = events w ++ evs
      /\ index_calls w' = index_calls w ++ calls.

(** [ends_with n m e calls]: [m] ends normally and [e] is its last event. *)
Definition ends_with (n : nat) (m : Gen unit) (e : Event)
    (calls : list (list CodeMessage)) : Prop :=
  forall w, length (index_calls w) = n ->
    exists w' evs,
      m w = (w', Value tt)
      /\ events w' = events w ++ evs ++ [e]
      /\ index_calls w' = index_calls w ++ calls.

Lemma gives_eq {A} n (m : Gen A) a a' calls :
  gives n m a calls -> a = a' -> gives n m a' calls.
Proof. now intros H <-. Qed.

Lemma gives_ret {A} n (a : A) : gives n (ret a) a [].
Proof.
  intros w _. exists w, []. now rewrite !app_nil_r.
Qed.

Lemma gives_yield n e : gives n (yield e) tt [].
Proof.
  intros w _. eexists. exists [e]. split; [reflexivity|].
  simpl. now rewrite app_nil_r.
Qed.

Lemma gives_bind {A B} n (m : Gen A) (k : A -> Gen B) a b calls :
  gives n m a [] -> gives n (k a) b calls -> gives n (bind m k) b calls.
Proof.
  intros Hm Hk w Hw. destruct (Hm w Hw) as (w1 & evs1 & E1 & V1 & I1).
  rewrite app_nil_r in I1.
  destruct (Hk w1) as (w2 & evs2 & E2 & V2 & I2); [congruence|].
  exists w2, (evs1 ++ evs2). unfold bind. rewrite E1.
  split; [exact E2|]. split; [now rewrite V2, V1, app_assoc|].
  now rewrite I2, I1.
Qed.

Lemma ends_yield n e : ends_with n (yield e) e [].
Proof.
  intros w _. eexists. exists []. split; [reflexivity|].
  simpl. now rewrite app_nil_r.
Qed.

Lemma ends_bind {A} n (m : Gen A) (k : A -> Gen unit) a e calls :
  gives n m a [] -> ends_with n (k a) e calls -> ends_with n (bind m k) e calls.
Proof.
  intros Hm Hk w Hw. destruct (Hm w Hw) as (w1 & evs1 & E1 & V1 & I1).
  rewrite app_nil_r in I1.
  destruct (Hk w1) as (w2 & evs2 & E2 & V2 & I2); [congruence|].
  exists w2, (evs1 ++ evs2). unfold bind. rewrite E1.
  split; [exact E2|]. split; [now rewrite V2, V1, !app_assoc|].
  now rewrite I2, I1.
Qed.

Lemma ends_bind_calls {A} n (m : Gen A) (k : A -> Gen unit) a e calls :
  gives n m a calls -> ends_with (n + length calls) (k a) e [] ->
  ends_with n (bind m k) e calls.
Proof.
  intros Hm Hk w Hw. destruct (Hm w Hw) as (w1 & evs1 & E1 & V1 & I1).
  destruct (Hk w1) as (w2 & evs2 & E2 & V2 & I2).
  { rewrite I1, length_app. lia. }
  rewrite app_nil_r in I2.
  exists w2, (evs1 ++ evs2). unfold bind. rewrite E1.
  split; [exact E2|]. split; [now rewrite V2, V1, !app_assoc|].
  now rewrite I2, I1.
Qed.

(** What the loops of a run compute. *)
Definition parsed_of (env : Env) (python_files : list Path)
  : list (Path * ParsedPython) :=
  flat_map (fun p => match parse_python_file env p with
                     | Some r => [(p, r)]
                     | None => []
                     end) python_files.

Definition failed_of (env : Env) (python_files : list Path)
  : list (string * string) :=
  flat_map (fun p => match parse_python_file env p with
                     | Some _ => []
                     | None => [(path_str p, "Parse failed")]
                     end) python_files.

Definition code_messages_of (env : Env) (project_name : option string)
    (all_parsed : list (Path * ParsedPython)) : list CodeMessage :=
  flat_map (fun fp =>
      create_module_message (snd fp) project_name
        :: create_entity_messages_with_jedi
             (snd fp) (analyze env (fst fp) (snd fp)) project_name)
    all_parsed.

Definition text_messages_of (env : Env) (project_name : option string)
    (files : list FileKind) : list CodeMessage :=
  flat_map (fun f =>
      if is_text_kind (kind f) then
        match parse_text_file (read_text env (path f)) (path f)
                              (repo_path env) (kind_str (kind f))
                              project_name with
        | Some msg => [msg]
        | None => []
        end
      else []) files.

(** The references the index reports for the batches, the first of which is
    the [n]-th it is handed. *)
Fixpoint semrefs_of (env : Env) (n : nat) (batches : list (list CodeMessage))
  : Z :=
  match batches with
  | [] => 0
  | batch :: rest =>
      (match add_messages_with_indexing env n batch with
       | Done (Ok (semrefs_added, _)) => semrefs_added
       | _ => 0
       end + semrefs_of env (S n) rest)%Z
  end.

Lemma entity_messages_nonempty parsed jedi_analysis project_name :
  filter (fun m => nonempty_chunks m = true)
         (create_entity_messages_with_jedi parsed jedi_analysis project_name)
  = create_entity_messages_with_jedi parsed jedi_analysis project_name.
Proof.
  assert (H : forall l : list CodeMessage,
             Forall (fun m => nonempty_chunks m = true) l ->
             filter (fun m => nonempty_chunks m = true) l = l).
  { induction 1 as [|x l Hx _ IH]; [reflexivity|].
    rewrite filter_cons, IH.
    now destruct (decide (nonempty_chunks x = true)). }
  apply H. unfold create_entity_messages_with_jedi.
  apply Forall_app_2.
  - apply Forall_flat_map, Forall_forall. intros cls _.
    constructor; [reflexivity|].
    apply Forall_map, Forall_forall. intros f _. reflexivity.
  - apply Forall_map, Forall_forall. intros f _. reflexivity.
Qed.

Lemma text_message_nonempty content file_path repo kind_ project_name msg :
  parse_text_file content file_path repo kind_ project_name = Some msg ->
  nonempty_chunks msg = true.
Proof.
  unfold parse_text_file. destruct content as [c|]; [|discriminate].
  destruct (negb (truthy c) || negb (truthy (strip c))); [discriminate|].
  destruct (relative_to file_path repo); [|discriminate].
  intros H. inversion H. reflexivity.
Qed.

Section Clean.

Variable env : Env.
Hypothesis uncancelled : never_cancelled env.

Lemma gives_check_cancel n : gives n (check_cancel env) tt [].
Proof using uncancelled.
  intros w _. unfold check_cancel. unfold never_cancelled in uncancelled.
  destruct (cancel_event env) as [f|].
  - rewrite uncancelled. eexists. exists []. split; [reflexivity|].
    simpl. now rewrite !app_nil_r.
  - exists w, []. now rewrite !app_nil_r.
Qed.

Lemma gives_report n (c : bool) e :
  gives n (if c then yield e else ret tt) tt [].
Proof. destruct c; [apply gives_yield|apply gives_ret]. Qed.

Lemma gives_parse_loop n total i python_files all_parsed failures :
  gives n
    (parse_loop env total i
       (map (fun p => (p, parse_python_file env p)) python_files)
       all_parsed failures)
    (all_parsed ++ parsed_of env python_files,
     failures ++ failed_of env python_files) [].
Proof using uncancelled.
  revert i all_parsed failures.
  induction python_files as [|p rest IH]; intros i all_parsed failures.
  - simpl. unfold parsed_of, failed_of. simpl. rewrite !app_nil_r.
    apply gives_ret.
  - cbn [map parse_loop].
    eapply gives_bind; [apply gives_check_cancel|]. cbv beta zeta.
    eapply gives_bind; [apply gives_report|]. cbv beta.
    eapply gives_eq; [apply IH|].
    unfold parsed_of, failed_of. cbn [flat_map].
    destruct (parse_python_file env p); now rewrite <- ?app_assoc, ?app_nil_r.
Qed.

Lemma gives_jedi_loop n total i results acc :
  gives n (jedi_loop env total i results acc) (acc ++ results) [].
Proof using uncancelled.
  revert i acc. induction results as [|r rest IH]; intros i acc.
  - simpl. rewrite app_nil_r. apply gives_ret.
  - cbn [jedi_loop].
    eapply gives_bind; [apply gives_check_cancel|]. cbv beta.
    eapply gives_bind; [apply gives_report|]. cbv beta.
    eapply gives_eq; [apply IH|]. now rewrite <- app_assoc.
Qed.

(** The type analysis block, entered only when something was parsed. *)
Lemma gives_type_analysis n (all_parsed : list (Path * ParsedPython)) :
  gives n
    (match all_parsed with
     | [] => ret []
     | _ =>
         check_cancel env ;;;
         yield (progress_event "type_analysis" active 0) ;;;
         (all_jedi <- jedi_loop env (zlen all_parsed) 0
                        (map (fun fp => analyze env (fst fp) (snd fp)) all_parsed)
                        [] ;;
          yield (progress_event "type_analysis" complete 100) ;;;
          ret all_jedi)
     end)
    (map (fun fp => analyze env (fst fp) (snd fp)) all_parsed) [].
Proof using uncancelled.
  destruct all_parsed as [|x l]; [apply gives_ret|].
  eapply gives_bind; [apply gives_check_cancel|]. cbv beta.
  eapply gives_bind; [apply gives_yield|]. cbv beta.
  eapply gives_bind; [apply gives_jedi_loop|]. cbv beta.
  eapply gives_bind; [apply gives_yield|]. cbv beta.
  apply gives_ret.
Qed.

Lemma gives_message_loop n pn n_parsed total_items pre items processed msgs :
  gives n
    (message_loop env pn
       (pre ++ map (fun fp => analyze env (fst fp) (snd fp)) items)
       n_parsed total_items (length pre) processed items msgs)
    (msgs ++ code_messages_of env pn items, (processed + zlen items)%Z) [].
Proof using uncancelled.
  revert pre processed msgs.
  induction items as [|[file parsed] rest IH]; intros pre processed msgs.
  - simpl. unfold code_messages_of, zlen. simpl.
    rewrite app_nil_r, Z.add_0_r. apply gives_ret.
  - cbn [map message_loop fst snd].
    eapply gives_bind; [apply gives_check_cancel|]. cbv beta zeta.
    rewrite list_lookup_middle by reflexivity.
    eapply gives_bind; [apply gives_report|]. cbv beta.
    rewrite entity_messages_nonempty.
    change (nonempty_chunks (create_module_message parsed pn)) with true.
    cbv iota.
    replace (pre ++ analyze env file parsed
                 :: map (fun fp => analyze env (fst fp) (snd fp)) rest)
      with ((pre ++ [analyze env file parsed])
              ++ map (fun fp => analyze env (fst fp) (snd fp)) rest)
      by now rewrite <- app_assoc.
    replace (S (length pre)) with (length (pre ++ [analyze env file parsed]))
      by (rewrite length_app; simpl; lia).
    eapply gives_eq; [apply IH|].
    unfold code_messages_of, zlen. cbn [flat_map length fst snd].
    rewrite <- !app_assoc. cbn [app]. f_equal. lia.
Qed.

Lemma gives_text_loop n pn files msgs :
  gives n (text_loop env pn files msgs) (msgs ++ text_messages_of env pn files) [].
Proof using uncancelled.
  revert msgs. induction files as [|f rest IH]; intros msgs.
  - simpl. unfold text_messages_of. simpl. rewrite app_nil_r. apply gives_ret.
  - cbn [text_loop].
    eapply gives_bind; [apply gives_check_cancel|]. cbv beta zeta.
    eapply gives_eq; [apply IH|].
    unfold text_messages_of. cbn [flat_map].
    destruct (is_text_kind (kind f)); [|reflexivity].
    destruct (parse_text_file _ _ _ _ _) as [msg|] eqn:E; [|reflexivity].
    rewrite (text_message_nonempty _ _ _ _ _ _ E).
    now rewrite <- app_assoc.
Qed.

Hypothesis index_ok :
  forall n batch, exists r, add_messages_with_indexing env n batch = Ok r.

Lemma gives_index_loop n total batch_num batches semrefs added :
  gives n (index_loop env total batch_num batches semrefs added)
        (semrefs + semrefs_of env n batches)%Z batches.
Proof using uncancelled index_ok.
  revert n batch_num semrefs added.
  induction batches as [|batch rest IH]; intros n batch_num semrefs added.
  - simpl. rewrite Z.add_0_r. apply gives_ret.
  - cbn [index_loop semrefs_of]. intros w Hw.
    destruct (gives_check_cancel n w Hw) as (w1 & evs1 & E1 & V1 & I1).
    rewrite app_nil_r in I1.
    destruct (index_ok n batch) as ([s a] & Hr). rewrite Hr.
    unfold bind at 1. rewrite E1.
    unfold bind at 1. cbn [yield].
    unfold bind at 1. unfold add_batch at 1. cbn [index_calls].
    rewrite I1, Hw, Hr. cbn [await]. unfold ret at 1.
    unfold bind at 1. cbn [yield].
    match goal with
    | |- context [index_loop env total ?b rest ?s' ?a' ?w4] =>
        destruct (IH (S n) b s' a' w4) as (w5 & evs5 & E5 & V5 & I5)
    end.
    { cbn [index_calls]. rewrite length_app, Hw. simpl. lia. }
    exists w5. eexists. split; [rewrite E5; f_equal; f_equal; lia|].
    split.
    + rewrite V5. cbn [events]. rewrite V1, <- !app_assoc. reflexivity.
    + rewrite I5. cbn [index_calls]. now rewrite <- app_assoc.
Qed.

End Clean.

(** The messages of a run: for each parsed file, in order, its module chunk
    and then its entity chunks; after them one chunk for each documentation
    or configuration file that could be read and is not blank. *)
Definition all_messages_of (env : Env) : list CodeMessage :=
  let files := discover_files (repo_path env) (tree env) [] in
  let project_name := Some (name (repo_path env)) in
  let python_files := map path (filter (fun f => kind f = python) files) in
  code_messages_of env project_name (parsed_of env python_files)
  ++ text_messages_of env project_name files.

(** What the completion event of an undisturbed run reports. *)
Definition result_of (env : Env) : IngestResult :=
  let files := discover_files (repo_path env) (tree env) [] in
  let python_files := map path (filter (fun f => kind f = python) files) in
  let all_parsed := parsed_of env python_files in
  let all_messages := all_messages_of env in
  {| files_processed := zlen files;
     messages_created := zlen all_messages;
     symbols_indexed :=
       fold_right Z.add 0%Z
         (map (fun fp => (zlen (pp_classes (snd fp))
                          + zlen (pp_functions (snd fp)))%Z) all_parsed);
     semrefs_added :=
       semrefs_of env 0 (batches_of (length all_messages) all_messages);
     db_path := default (name (repo_path env) +:+ "_codebase.db") (output_db env);
     failures := failed_of env python_files |}.

Lemma run_body_clean (env : Env) :
  never_cancelled env ->
  repo_exists env = true ->
  fs_fault env = None ->
  create_conversation env = Ok tt ->
  (forall n batch, exists r, add_messages_with_indexing env n batch = Ok r) ->
  ends_with 0 (run_body env) (IngestionComplete (result_of env))
            (batches_of (length (all_messages_of env)) (all_messages_of env)).
Proof.
  intros Hnc Hex Hfs Hcc Hok. unfold run_body. rewrite Hex, Hcc. cbn [negb].
  unfold discover. rewrite Hfs. cbv zeta.
  eapply ends_bind; [apply gives_yield|]. cbv beta.
  eapply ends_bind; [now apply gives_check_cancel|]. cbv beta.
  eapply ends_bind; [apply gives_ret|]. cbv beta.
  eapply ends_bind; [apply gives_yield|]. cbv beta.
  eapply ends_bind; [now apply gives_check_cancel|]. cbv beta.
  eapply ends_bind; [apply gives_yield|]. cbv beta.
  eapply ends_bind; [now apply (gives_parse_loop env Hnc 0 _ _ _ [] [])|].
  cbv beta iota. cbn [app].
  eapply ends_bind; [apply gives_yield|]. cbv beta.
  eapply ends_bind; [now apply gives_type_analysis|]. cbv beta.
  eapply ends_bind; [now apply gives_check_cancel|]. cbv beta.
  eapply ends_bind; [apply gives_yield|]. cbv beta.
  eapply ends_bind;
    [now apply (gives_message_loop env Hnc 0 _ _ _ [] _ 0%Z [])|].
  cbv beta iota. cbn [app].
  eapply ends_bind; [now apply gives_text_loop|]. cbv beta.
  eapply ends_bind; [apply gives_yield|]. cbv beta.
  eapply ends_bind; [now apply gives_check_cancel|]. cbv beta.
  eapply ends_bind; [apply gives_yield|]. cbv beta.
  eapply ends_bind; [apply gives_ret|]. cbv beta.
  eapply ends_bind_calls; [now apply gives_index_loop|]. cbv beta.
  eapply ends_bind; [apply gives_yield|]. cbv beta.
  apply ends_yield.
Qed.

(** A run that nobody cancels, on an existing repository that can be walked,
    with an index that accepts every batch, ends with the completion event.
    The event reports the number of files discovered, as failures exactly
    the source files that could not be parsed, and as messages the number of
    chunks: for each parsed file its module chunk followed by its entity
    chunks (none is dropped), then one chunk for each readable, non-blank
    documentation or configuration file.  These chunks are what the index
    was handed, in this order, in batches of fifty. *)
Theorem undisturbed_run (env : Env) :
  never_cancelled env ->
  repo_exists env = true ->
  fs_fault env = None ->
  create_conversation env = Ok tt ->
  (forall n batch, exists r, add_messages_with_indexing env n batch = Ok r) ->
  last (events (run_ingestion env)) = Some (IngestionComplete (result_of env))
  /\ index_calls (run_ingestion env)
     = batches_of (length (all_messages_of env)) (all_messages_of env)
  /\ concat (index_calls (run_ingestion env)) = all_messages_of env.
Proof.
  intros Hnc Hex Hfs Hcc Hok.
  destruct (run_body_clean env Hnc Hex Hfs Hcc Hok initial_world eq_refl)
    as (w & evs & E & V & I).
  unfold run_ingestion. rewrite E. simpl in V, I.
  split; [rewrite V; apply last_snoc|].
  rewrite I. split; [reflexivity|]. now apply batches_of_concat.
Qed.

(** One source file with a function, one readme; nobody cancels and the
    index accepts every batch, reporting three references for each. *)
Definition quiet_env : Env :=
  {| repo_path := ["/"; "home"; "repo"];
     output_db := None;
     cancel_event := None;
     repo_exists := true;
     tree := [ File "m.py"; File "README.md"; File "broken.py" ];
     fs_fault := None;
     read_text := fun p => if decide (name p = "broken.py") then None
                           else Some "text";
     parse_module := fun _ => Some MessagesExtra.one_function_module;
     node_str := ParserProps.no_render;
     code_for_node := ParserProps.no_render;
     analyze := fun _ _ => None;
     create_conversation := Ok tt;
     add_messages_with_indexing := fun _ _ => Ok (3%Z, 1%Z) |}.

Lemma undisturbed_run_witness :
  last (events (run_ingestion quiet_env))
  = Some (IngestionComplete (result_of quiet_env))
  /\ index_calls (run_ingestion quiet_env)
     = batches_of (length (all_messages_of quiet_env)) (all_messages_of quiet_env)
  /\ concat (index_calls (run_ingestion quiet_env)) = all_messages_of quiet_env.
Proof.
  apply (undisturbed_run quiet_env).
  - exact I.
  - reflexivity.
  - reflexivity.
  - reflexivity.
  - intros n batch. eexists. reflexivity.
Defined.

Example quiet_run_result :
  files_processed (result_of quiet_env) = 3%Z
  /\ messages_created (result_of quiet_env) = 3%Z
  /\ symbols_indexed (result_of quiet_env) = 1%Z
  /\ semrefs_added (result_of quiet_env) = 3%Z
  /\ failures (result_of quiet_env) = [("/home/repo/broken.py", "Parse failed")].
Proof. vm_compute. repeat split; reflexivity. Qed.

(** ** Percentages *)

(** A progress event is within bounds when its percentage lies between 0
    and 100. *)
Definition within_bounds (e : Event) : Prop :=
  match e with
  | IngestionProgress _ st => (0 <= progress st /\ progress st <= 100)%Q
  | _ => True
  end.

Lemma percent_bounds (done total : Z) :
  (0 <= done <= total)%Z -> (0 < total)%Z ->
  (0 <= percent done total /\ percent done total <= 100)%Q.
Proof.
  intros Hd Ht. unfold percent. rewrite Qred_correct.
  assert (H0 : (0 <= inject_Z done / inject_Z total)%Q).
  { apply Qle_shift_div_l.
    - change 0%Q with (inject_Z 0). rewrite <- Zlt_Qlt. exact Ht.
    - rewrite Qmult_0_l. change 0%Q with (inject_Z 0).
      rewrite <- Zle_Qle. lia. }
  assert (H1 : (inject_Z done / inject_Z total <= 1)%Q).
  { apply Qle_shift_div_r.
    - change 0%Q with (inject_Z 0). rewrite <- Zlt_Qlt. exact Ht.
    - rewrite Qmult_1_l. rewrite <- Zle_Qle. lia. }
  split.
  - apply Qmult_le_0_compat; [exact H0|discriminate].
  - apply Qle_trans with (1 * inject_Z 100)%Q; [|discriminate].
    apply Qmult_le_compat_r; [exact H1|discriminate].
Qed.

(** A computation is bounded when every event it yields is within bounds. *)
Definition bounded {A} (m : Gen A) : Prop :=
  forall w w' o, m w = (w', o) ->
    exists evs, events w' = events w ++ evs /\ Forall within_bounds evs.

Lemma bounded_silent {A} (m : Gen A) :
  (forall w w' o, m w = (w', o) -> events w' = events w) -> bounded m.
Proof.
  intros Hm w w' o H. exists []. rewrite app_nil_r.
  split; [eapply Hm; eauto|constructor].
Qed.

Lemma bounded_ret {A} (a : A) : bounded (ret a).
Proof. apply bounded_silent. intros w w' o H. now inversion H. Qed.

Lemma bounded_raise {A} e : bounded (@raise A e).
Proof. apply bounded_silent. intros w w' o H. now inversion H. Qed.

Lemma bounded_yield e : within_bounds e -> bounded (yield e).
Proof.
  intros He w w' o H. inversion H; subst. exists [e].
  split; [reflexivity|]. now constructor.
Qed.

Lemma bounded_percent stage st done total :
  (0 <= done <= total)%Z -> (0 < total)%Z ->
  bounded (yield (progress_event stage st (percent done total))).
Proof. intros Hd Ht. apply bounded_yield. now apply percent_bounds. Qed.

Lemma bounded_bind {A B} (m : Gen A) (k : A -> Gen B) :
  bounded m -> (forall a, bounded (k a)) -> bounded (bind m k).
Proof.
  intros Hm Hk w w' o H. unfold bind in H.
  destruct (m w) as [w1 [a| |e|e]] eqn:Em;
    destruct (Hm _ _ _ Em) as (evs1 & E1 & B1).
  - destruct (Hk a _ _ _ H) as (evs2 & E2 & B2).
    exists (evs1 ++ evs2). rewrite E2, E1, app_assoc.
    split; [reflexivity|]. now apply Forall_app_2.
  - inversion H; subst. now exists evs1.
  - inversion H; subst. now exists evs1.
  - inversion H; subst. now exists evs1.
Qed.

Section Bounds.

Variable env : Env.

Lemma bounded_check_cancel : bounded (check_cancel env).
Proof.
  apply bounded_silent. intros w w' o H. unfold check_cancel in H.
  destruct (cancel_event env) as [f|].
  - destruct (f (polls w)); now inversion H.
  - now inversion H.
Qed.

Lemma bounded_await {A} (answer : Await A) : bounded (await answer).
Proof.
  apply bounded_silent. intros w w' o H.
  destruct answer as [[a|e]|e]; now inversion H.
Qed.

Lemma bounded_add_batch batch : bounded (add_batch env batch).
Proof.
  apply bounded_silent. intros w w' o H. unfold add_batch, await in H.
  destruct (add_messages_with_indexing env _ batch) as [[r|e]|e];
    now inversion H.
Qed.

Lemma bounded_fixed stage st :
  bounded (yield (progress_event stage st 0))
  /\ bounded (yield (progress_event stage st 100)).
Proof.
  split; apply bounded_yield; simpl; split; discriminate.
Qed.

Lemma bounded_parse_loop total i results all_parsed failures :
  (0 <= i)%Z -> (i + zlen results = total)%Z ->
  bounded (parse_loop env total i results all_parsed failures).
Proof.
  revert i all_parsed failures.
  induction results as [|[file result] rest IH];
    intros i all_parsed failures Hi Ht; cbn [parse_loop];
    [apply bounded_ret|].
  unfold zlen in *. cbn [length] in Ht.
  apply bounded_bind; [apply bounded_check_cancel|intros _].
  apply bounded_bind; [|intros _; apply IH; lia].
  destruct (_ || _); [apply bounded_percent; lia|apply bounded_ret].
Qed.

Lemma bounded_jedi_loop total i results acc :
  (0 <= i)%Z -> (i + zlen results = total)%Z ->
  bounded (jedi_loop env total i results acc).
Proof.
  revert i acc.
  induction results as [|r rest IH]; intros i acc Hi Ht; cbn [jedi_loop];
    [apply bounded_ret|].
  unfold zlen in *. cbn [length] in Ht.
  apply bounded_bind; [apply bounded_check_cancel|intros _].
  apply bounded_bind; [|intros _; apply IH; lia].
  destruct (_ || _); [apply bounded_percent; lia|apply bounded_ret].
Qed.

Lemma bounded_message_loop pn jedi n total i processed items msgs :
  (0 <= processed)%Z -> (processed + zlen items <= total)%Z ->
  bounded (message_loop env pn jedi n total i processed items msgs).
Proof.
  revert i processed msgs.
  induction items as [|[file parsed] rest IH];
    intros i processed msgs Hp Ht; cbn [message_loop];
    [apply bounded_ret|].
  unfold zlen in *. cbn [length] in Ht.
  apply bounded_bind; [apply bounded_check_cancel|intros _]. cbv zeta.
  destruct (jedi !! i); [|apply bounded_raise].
  apply bounded_bind; [|intros _; apply IH; lia].
  destruct (_ || _); [apply bounded_percent; lia|apply bounded_ret].
Qed.

Lemma bounded_text_loop pn files msgs : bounded (text_loop env pn files msgs).
Proof.
  revert msgs. induction files as [|f rest IH]; intros msgs; cbn [text_loop];
    [apply bounded_ret|].
  apply bounded_bind; [apply bounded_check_cancel|intros _]. apply IH.
Qed.

Lemma bounded_index_loop total batch_num batches semrefs added :
  (1 <= batch_num)%Z -> (batch_num + zlen batches = total + 1)%Z ->
  bounded (index_loop env total batch_num batches semrefs added).
Proof.
  revert batch_num semrefs added.
  induction batches as [|b rest IH]; intros batch_num semrefs added Hb Ht;
    cbn [index_loop]; [apply bounded_ret|].
  unfold zlen in *. cbn [length] in Ht.
  apply bounded_bind; [apply bounded_check_cancel|intros _].
  apply bounded_bind; [apply bounded_percent; lia|intros _].
  apply bounded_bind; [apply bounded_add_batch|intros [s a]].
  apply bounded_bind; [apply bounded_percent; lia|intros _].
  apply IH; lia.
Qed.

Lemma bounded_run_body : bounded (run_body env).
Proof.
  unfold run_body. destruct (negb (repo_exists env)).
  { apply bounded_bind; [now apply bounded_yield|intros _].
    apply bounded_silent. intros w w' o H. now inversion H. }
  cbv zeta.
  pose proof bounded_fixed as F.
  apply bounded_bind; [apply F|intros _].
  apply bounded_bind; [apply bounded_check_cancel|intros _].
  apply bounded_bind.
  { unfold discover.
    destruct (fs_fault env); [apply bounded_raise|apply bounded_ret]. }
  intros files.
  apply bounded_bind; [apply F|intros _].
  apply bounded_bind; [apply bounded_check_cancel|intros _].
  apply bounded_bind; [apply F|intros _].
  apply bounded_bind.
  { apply bounded_parse_loop; [lia|]. unfold zlen.
    rewrite length_map. lia. }
  intros [all_parsed failures].
  apply bounded_bind; [apply F|intros _].
  apply bounded_bind.
  { destruct all_parsed as [|x l] eqn:E; [apply bounded_ret|]. rewrite <- E.
    apply bounded_bind; [apply bounded_check_cancel|intros _].
    apply bounded_bind; [apply F|intros _].
    apply bounded_bind.
    { apply bounded_jedi_loop; [lia|]. unfold zlen.
      rewrite length_map. lia. }
    intros all_jedi.
    apply bounded_bind; [apply F|intros _]. apply bounded_ret. }
  intros all_jedi_analyses.
  apply bounded_bind; [apply bounded_check_cancel|intros _].
  apply bounded_bind; [apply F|intros _].
  apply bounded_bind.
  { apply bounded_message_loop; [lia|]. unfold zlen. lia. }
  intros [all_messages processed].
  apply bounded_bind; [apply bounded_text_loop|intros all_messages'].
  apply bounded_bind; [apply F|intros _].
  apply bounded_bind; [apply bounded_check_cancel|intros _].
  apply bounded_bind; [apply F|intros _].
  apply bounded_bind; [apply bounded_await|intros _].
  apply bounded_bind.
  { apply bounded_index_loop; [lia|].
    rewrite batches_of_count by lia. lia. }
  intros semrefs.
  apply bounded_bind; [apply F|intros _].
  now apply bounded_yield.
Qed.

End Bounds.

(** Every progress event of every run carries a percentage between 0 and
    100, whatever is discovered, however the collaborators answer and
    whenever the run is cancelled: within each loop the count reported never
    exceeds the total it is divided by, and the number of batches handed to
    the index never exceeds [total_batches]. *)
Theorem progress_within_bounds (env : Env) :
  Forall within_bounds (events (run_ingestion env)).
Proof.
  unfold run_ingestion.
  destruct (run_body env initial_world) as [w o] eqn:Er.
  destruct (bounded_run_body env _ _ _ Er) as (evs & E & B).
  simpl in E. subst evs.
  destruct o; simpl; try exact B.
  apply Forall_app_2; [exact B|]. now repeat constructor.
Qed.

(** ** A repository without files *)

(** When discovery finds nothing, an undisturbed run still walks through
    parsing, message creation and indexing, skipping type analysis: it
    yields the start and the end event of these four stages and the
    completion event with every count at zero, and hands nothing to the
    index. *)
Theorem empty_repository_run (env : Env) :
  never_cancelled env ->
  repo_exists env = true ->
  fs_fault env = None ->
  discover_files (repo_path env) (tree env) [] = [] ->
  create_conversation env = Ok tt ->
  events (run_ingestion env)
  = [ progress_event "discovery" active 0;
      progress_event "discovery" complete 100;
      progress_event "parsing" active 0;
      progress_event "parsing" complete 100;
      progress_event "message_creation" active 0;
      progress_event "message_creation" complete 100;
      progress_event "indexing" active 0;
      progress_event "indexing" complete 100;
      IngestionComplete
        {| files_processed := 0; messages_created := 0;
           symbols_indexed := 0; semrefs_added := 0;
           db_path := default (name (repo_path env) +:+ "_codebase.db")
                              (output_db env);
           failures := [] |} ]
  /\ index_calls (run_ingestion env) = [].
Proof.
  intros Hnc Hex Hfs Hd Hcc.
  unfold run_ingestion, run_body, discover.
  rewrite Hex, Hfs, Hcc, Hd. cbn [negb]. cbv zeta.
  unfold never_cancelled in Hnc. unfold bind, yield, check_cancel, ret.
  destruct (cancel_event env) as [f|].
  - cbn. repeat (rewrite Hnc; cbn). split; reflexivity.
  - cbn. split; reflexivity.
Qed.

Definition empty_env : Env :=
  {| repo_path := ["/"; "home"; "empty"];
     output_db := Some "out.db";
     cancel_event := Some (fun _ => false);
     repo_exists := true;
     tree := [ Dir ".git" [ File "config" ] ];
     fs_fault := None;
     read_text := fun _ => None;
     parse_module := fun _ => None;
     node_str := ParserProps.no_render;
     code_for_node := ParserProps.no_render;
     analyze := fun _ _ => None;
     create_conversation := Ok tt;
     add_messages_with_indexing := fun _ _ => Err "unused" |}.

Lemma empty_repository_run_witness :
  last (events (run_ingestion empty_env))
  = Some (IngestionComplete
            {| files_processed := 0; messages_created := 0;
               symbols_indexed := 0; semrefs_added := 0;
               db_path := "out.db"; failures := [] |})
  /\ index_calls (run_ingestion empty_env) = [].
Proof.
  destruct (empty_repository_run empty_env) as [E I].
  - intros n. reflexivity.
  - reflexivity.
  - reflexivity.
  - vm_compute. reflexivity.
  - reflexivity.
  - rewrite E. split; [reflexivity|exact I].
Defined.

(** ** Every run that is not cancelled closes *)






Section GoesOn.

Variable env : Env.
Hypothesis uncancelled : never_cancelled env.












End GoesOn.




(** ** The statistics of the completion event *)

(** The number of methods of the parsed files. *)
Definition methods_of (all_parsed : list (Path * ParsedPython)) : Z :=
  fold_right Z.add 0%Z
    (map (fun fp =>
            fold_right Z.add 0%Z
              (map (fun c => zlen (cls_methods c)) (pp_classes (snd fp))))
         all_parsed).

Lemma parsed_or_failed env (python_files : list Path) :
  (zlen (parsed_of env python_files) + zlen (failed_of env python_files)
   = zlen python_files)%Z.
Proof.
  unfold zlen, parsed_of, failed_of.
  induction python_files as [|p l IH]; [reflexivity|].
  cbn [flat_map]. rewrite !length_app. cbn [length].
  destruct (parse_python_file env p); cbn [length]; lia.
Qed.

Lemma methods_sum (l : list ClassEntity) :
  Z.of_nat (list_sum (map (fun c => S (length (cls_methods c))) l))
  = (zlen l + fold_right Z.add 0%Z (map (fun c => zlen (cls_methods c)) l))%Z.
Proof.
  unfold zlen. induction l as [|c l IH]; [reflexivity|].
  simpl map. simpl list_sum. simpl fold_right. simpl length.
  rewrite Nat2Z.inj_succ, Nat2Z.inj_add, IH. lia.
Qed.

Lemma entity_count_split (parsed : ParsedPython) :
  Z.of_nat (MessagesProps.entity_count parsed)
  = (zlen (pp_classes parsed) + zlen (pp_functions parsed)
     + fold_right Z.add 0%Z
         (map (fun c => zlen (cls_methods c)) (pp_classes parsed)))%Z.
Proof.
  unfold MessagesProps.entity_count.
  rewrite Nat2Z.inj_add, methods_sum. unfold zlen. lia.
Qed.

Lemma code_messages_count env pn (all_parsed : list (Path * ParsedPython)) :
  zlen (code_messages_of env pn all_parsed)
  = (zlen all_parsed
     + fold_right Z.add 0%Z
         (map (fun fp => (zlen (pp_classes (snd fp))
                          + zlen (pp_functions (snd fp)))%Z) all_parsed)
     + methods_of all_parsed)%Z.
Proof.
  unfold code_messages_of, methods_of.
  induction all_parsed as [|[file parsed] l IH]; [reflexivity|].
  unfold zlen in *. cbn [flat_map map fold_right length fst snd].
  rewrite length_app. cbn [length].
  rewrite MessagesProps.entity_messages_length.
  pose proof (entity_count_split parsed) as Hs. unfold zlen in Hs. lia.
Qed.

Lemma text_messages_count env pn (files : list FileKind) :
  (zlen (text_messages_of env pn files)
   <= zlen (filter (fun f => is_text_kind (kind f) = true) files))%Z.
Proof.
  unfold zlen, text_messages_of.
  induction files as [|f l IH]; [reflexivity|].
  cbn [flat_map]. rewrite length_app, filter_cons.
  destruct (is_text_kind (kind f)) eqn:E.
  - destruct (decide (true = true)) as [_|N]; [|now elim N].
    destruct (parse_text_file _ _ _ _ _); cbn [length]; lia.
  - destruct (decide (false = true)) as [N|_]; [discriminate|].
    cbn [length]. lia.
Qed.

(** The figures of the completion event of an undisturbed run add up: every
    source file discovered is either parsed or listed in [failures];
    [messages_created] is the number of parsed files plus [symbols_indexed]
    plus the number of methods plus the number of text chunks (methods get a
    chunk each but are not counted as symbols); text files give at most one
    chunk each and never a failure; and [messages_created] is the number of
    chunks the index was handed. *)
Theorem completion_accounting (env : Env) :
  never_cancelled env ->
  repo_exists env = true ->
  fs_fault env = None ->
  create_conversation env = Ok tt ->
  (forall n batch, exists r, add_messages_with_indexing env n batch = Ok r) ->
  let files := discover_files (repo_path env) (tree env) [] in
  let python_files := map path (filter (fun f => kind f = python) files) in
  let all_parsed := parsed_of env python_files in
  let text_chunks_ :=
    text_messages_of env (Some (name (repo_path env))) files in
  exists r,
    last (events (run_ingestion env)) = Some (IngestionComplete r)
    /\ (zlen all_parsed + zlen (failures r) = zlen python_files)%Z
    /\ (messages_created r
        = zlen all_parsed + symbols_indexed r + methods_of all_parsed
          + zlen text_chunks_)%Z
    /\ (zlen text_chunks_
        <= zlen (filter (fun f => is_text_kind (kind f) = true) files))%Z
    /\ messages_created r = zlen (concat (index_calls (run_ingestion env))).
Proof.
  intros Hnc Hex Hfs Hcc Hok. cbv zeta.
  destruct (run_body_clean env Hnc Hex Hfs Hcc Hok initial_world eq_refl)
    as (w & evs & E & V & I).
  exists (result_of env). unfold run_ingestion. rewrite E. simpl in V, I.
  split; [rewrite V; apply last_snoc|].
  split; [apply parsed_or_failed|].
  split.
  { cbn [messages_created symbols_indexed result_of]. unfold all_messages_of.
    cbv zeta. unfold zlen at 1. rewrite length_app, Nat2Z.inj_add.
    fold (zlen (code_messages_of env (Some (name (repo_path env)))
                  (parsed_of env
                     (map path
                        (filter (fun f => kind f = python)
                           (discover_files (repo_path env) (tree env) [])))))).
    rewrite code_messages_count. unfold zlen. lia. }
  split; [apply text_messages_count|].
  rewrite I, batches_of_concat by lia. reflexivity.
Qed.

Lemma completion_accounting_witness :
  let files := discover_files (repo_path quiet_env) (tree quiet_env) [] in
  let python_files := map path (filter (fun f => kind f = python) files) in
  let all_parsed := parsed_of quiet_env python_files in
  let text_chunks_ :=
    text_messages_of quiet_env (Some (name (repo_path quiet_env))) files in
  exists r,
    last (events (run_ingestion quiet_env)) = Some (IngestionComplete r)
    /\ (zlen all_parsed + zlen (failures r) = zlen python_files)%Z
    /\ (messages_created r
        = zlen all_parsed + symbols_indexed r + methods_of all_parsed
          + zlen text_chunks_)%Z
    /\ (zlen text_chunks_
        <= zlen (filter (fun f => is_text_kind (kind f) = true) files))%Z
    /\ messages_created r = zlen (concat (index_calls (run_ingestion quiet_env))).
Proof.
  apply (completion_accounting quiet_env).
  - exact I.
  - reflexivity.
  - reflexivity.
  - reflexivity.
  - intros n batch. eexists. reflexivity.
Defined.

End RunnerExtra.

(* ===================================================================== *)
(** * Type enrichment: the entries written for functions and methods      *)
(* ===================================================================== *)

Module JediExtra.
Import PyStr Parser Messages Runner PyStrFacts.

(** ** What Jedi answers *)

(** A parameter of a Jedi signature: its name, and what building its entry
    gives: the text of the inferred annotation ([None] when nothing is
    inferred), or an exception. *)
Record ParamObj := {
  param_name : string;
  infer_annotation : Result (option string)
}.

(** A [jedi.Script] as [_enhance_function_types] uses it: the names defined
    in the file with their lines, and the signatures at a position; either
    call may raise. *)
Record Script := {
  get_names : Result (list (string * option Z));
  get_signatures : Z -> Z -> Result (list (list ParamObj))
}.

(** The entry written for a parameter and for a return annotation: of the
    keys of the dictionary, the two that chunk assembly reads. *)
Definition param_entry (type_str : option string) : TypeInfo :=
  {| declared_type := Some "parameter";
     inferred_types :=
       Some (match type_str with
             | Some s => if truthy s then [s] else []
             | None => []
             end) |}.

Definition return_entry (return_annotation : string) : TypeInfo :=
  {| declared_type := Some return_annotation; inferred_types := Some [] |}.

(** The loop over [sig.params]: an exception ends it and keeps what was
    written before. *)
Fixpoint enhance_params (func_name : string) (params : list ParamObj)
    (type_annotations : gmap string TypeInfo) : gmap string TypeInfo :=
  match params with
  | [] => type_annotations
  | param :: rest =>
      match infer_annotation param with
      | Ok type_str =>
          enhance_params func_name rest
            (<[func_name +:+ "." +:+ param_name param := param_entry type_str]>
               type_annotations)
      | Err _ => type_annotations
      end
  end.

(** [_enhance_function_types]: the dictionary after the call. *)
Definition _enhance_function_types (script : Script)
    (func_data : FunctionEntity) (type_annotations : gmap string TypeInfo)
  : gmap string TypeInfo :=
  let func_name := fn_name func_data in
  match fst (fn_pos func_data) with
  | None => type_annotations
  | Some start_line =>
      if (start_line =? 0)%Z then type_annotations
      else
        match get_names script with
        | Err _ => type_annotations
        | Ok names =>
            match filter (fun n => n.1 = func_name /\ n.2 = Some start_line)
                         names with
            | [] => type_annotations
            | _ =>
                let type_annotations :=
                  match get_signatures script start_line
                                       (len ("def " +:+ func_name)) with
                  | Ok (sig :: _) =>
                      enhance_params func_name sig type_annotations
                  | _ => type_annotations
                  end in
                match fn_return_annotation func_data with
                | Some return_annotation =>
                    if truthy return_annotation
                    then <[func_name +:+ ".__return__"
                           := return_entry return_annotation]> type_annotations
                    else type_annotations
                | None => type_annotations
                end
            end
        end
  end.

(** The two loops of [_analyze_with_jedi] that enhance the top-level
    functions and then the methods, class by class. *)
Definition enhance_all (script : Script) (parsed_data : ParsedPython)
    (type_annotations : gmap string TypeInfo) : gmap string TypeInfo :=
  let type_annotations :=
    fold_left (fun ta func => _enhance_function_types script func ta)
              (pp_functions parsed_data) type_annotations in
  fold_left (fun ta cls =>
               fold_left (fun ta method =>
                            _enhance_function_types script method ta)
                         (cls_methods cls) ta)
            (pp_classes parsed_data) type_annotations.

(** Jedi knows the function: its start line is known and not zero, and
    [get_names] lists its name at that line. *)
Definition located (script : Script) (func_data : FunctionEntity) : bool :=
  match fst (fn_pos func_data) with
  | Some start_line =>
      negb (start_line =? 0)%Z
      && match get_names script with
         | Ok names =>
             bool_decide ((fn_name func_data, Some start_line) ∈ names)
         | Err _ => false
         end
  | None => false
  end.

(** The functions in the order in which they are enhanced. *)
Definition enhancement_order (parsed_data : ParsedPython)
  : list FunctionEntity :=
  pp_functions parsed_data ++ flat_map cls_methods (pp_classes parsed_data).

(** ** Properties *)

Lemma enhance_params_frame func_name params ta key :
  enhance_params func_name params ta !! key = ta !! key
  \/ exists suffix, key = func_name +:+ "." +:+ suffix.
Proof.
  revert ta. induction params as [|p rest IH]; intros ta; [now left|].
  simpl. destruct (infer_annotation p); [|now left].
  destruct (decide (key = func_name +:+ "." +:+ param_name p)) as [E|N];
    [right; eauto|].
  destruct (IH (<[func_name +:+ "." +:+ param_name p := param_entry a]> ta))
    as [H|H]; [left|now right].
  rewrite H. apply lookup_insert_ne. congruence.
Qed.

Lemma filter_located (names : list (string * option Z)) func_name start_line :
  filter (fun n => n.1 = func_name /\ n.2 = Some start_line) names = []
  <-> (func_name, Some start_line) ∉ names.
Proof.
  induction names as [|[n l] rest IH].
  - split; [intros _; apply not_elem_of_nil|reflexivity].
  - rewrite filter_cons, not_elem_of_cons. simpl.
    destruct (decide (n = func_name /\ l = Some start_line)) as [[-> ->]|N].
    + split; [discriminate|]. intros [H _]. now elim H.
    + rewrite IH. split; [|tauto]. intros H. split; [|exact H].
      intros E. inversion E; subst. now elim N.
Qed.

Lemma enhance_skips script func_data ta :
  located script func_data = false ->
  _enhance_function_types script func_data ta = ta.
Proof.
  unfold _enhance_function_types, located.
  destruct (fst (fn_pos func_data)) as [start_line|]; [|reflexivity].
  destruct (start_line =? 0)%Z; [reflexivity|]. cbn [negb andb].
  destruct (get_names script) as [names|e]; [|reflexivity].
  intros H. apply bool_decide_eq_false in H.
  apply filter_located in H. now rewrite H.
Qed.

Lemma enhance_frame script func_data ta key :
  _enhance_function_types script func_data ta !! key = ta !! key
  \/ exists suffix, key = fn_name func_data +:+ "." +:+ suffix.
Proof.
  unfold _enhance_function_types.
  destruct (fst (fn_pos func_data)) as [start_line|]; [|now left].
  destruct (start_line =? 0)%Z; [now left|].
  destruct (get_names script) as [names|e]; [|now left].
  destruct (filter _ names) as [|n0 l0]; [now left|]. cbv zeta.
  assert (Hs : (match get_signatures script start_line
                        (len ("def " +:+ fn_name func_data)) with
                | Ok (sig :: _) => enhance_params (fn_name func_data) sig ta
                | _ => ta
                end) !! key = ta !! key
               \/ exists suffix, key = fn_name func_data +:+ "." +:+ suffix).
  { destruct (get_signatures _ _ _) as [[|sig sigs]|e]; try (now left).
    apply enhance_params_frame. }
  destruct Hs as [Hs|Hs]; [|now right].
  destruct (fn_return_annotation func_data) as [r|]; [|now left].
  destruct (truthy r); [|now left].
  destruct (decide (key = fn_name func_data +:+ ".__return__")) as [E|N].
  - right. exists "__return__". exact E.
  - left. rewrite lookup_insert_ne by congruence. exact Hs.
Qed.

Lemma enhance_return script func_data ta r :
  located script func_data = true ->
  fn_return_annotation func_data = Some r -> truthy r = true ->
  _enhance_function_types script func_data ta
    !! (fn_name func_data +:+ ".__return__")
  = Some (return_entry r).
Proof.
  unfold _enhance_function_types, located.
  destruct (fst (fn_pos func_data)) as [start_line|]; [|discriminate].
  destruct (start_line =? 0)%Z; [discriminate|]. cbn [negb andb].
  destruct (get_names script) as [names|e]; [|discriminate].
  intros H -> ->. apply bool_decide_eq_true in H.
  destruct (filter _ names) as [|n0 l0] eqn:Ef.
  - apply filter_located in Ef. now elim Ef.
  - apply lookup_insert_eq.
Qed.

(** [_enhance_function_types] leaves the dictionary alone unless Jedi knows
    the function: when the start line is missing or zero, when [get_names]
    raises, or when no name of Jedi matches the function's name and line.
    Whatever it changes is keyed by the bare function name followed by a
    dot.  And when Jedi knows the function and the function has a return
    annotation, the entry [name.__return__] holds that annotation
    afterwards, also when [get_signatures] or a parameter raised. *)
Theorem enhance_function_types_effect (script : Script)
    (func_data : FunctionEntity) (type_annotations : gmap string TypeInfo) :
  let result := _enhance_function_types script func_data type_annotations in
  (located script func_data = false -> result = type_annotations)
  /\ (forall key, result !! key <> type_annotations !! key ->
        exists suffix, key = fn_name func_data +:+ "." +:+ suffix)
  /\ (located script func_data = true ->
      forall r, fn_return_annotation func_data = Some r -> truthy r = true ->
        result !! (fn_name func_data +:+ ".__return__")
        = Some (return_entry r)).
Proof.
  cbv zeta. split; [apply enhance_skips|]. split.
  - intros key Hkey.
    destruct (enhance_frame script func_data type_annotations key) as [H|H];
      [congruence|exact H].
  - intros Hl r Hr Ht. now apply enhance_return.
Qed.

(** ** Same-named functions share their entries *)

Lemma enhance_all_order script parsed_data ta :
  enhance_all script parsed_data ta
  = fold_left (fun ta func => _enhance_function_types script func ta)
              (enhancement_order parsed_data) ta.
Proof.
  unfold enhance_all, enhancement_order. rewrite fold_left_app.
  generalize (fold_left (fun ta func => _enhance_function_types script func ta)
                        (pp_functions parsed_data) ta).
  induction (pp_classes parsed_data) as [|c l IH]; intros ta'; [reflexivity|].
  cbn [fold_left flat_map]. rewrite fold_left_app. apply IH.
Qed.

Lemma dotted_prefix (a b s t : string) :
  free_of "." a = true -> free_of "." b = true ->
  a +:+ "." +:+ s = b +:+ "." +:+ t -> a = b.
Proof.
  intros Ha Hb E.
  assert (H : split "." (a +:+ String "." s) = split "." (b +:+ String "." t))
    by (change (String "." s) with ("." +:+ s);
        change (String "." t) with ("." +:+ t); now rewrite E).
  rewrite !split_app_sep in H by assumption. now inversion H.
Qed.

Lemma later_enhancements_keep script (post : list FunctionEntity) name ta :
  free_of "." name = true ->
  Forall (fun h => free_of "." (fn_name h) = true /\ fn_name h <> name) post ->
  fold_left (fun ta func => _enhance_function_types script func ta) post ta
    !! (name +:+ ".__return__")
  = ta !! (name +:+ ".__return__").
Proof.
  intros Hn Hpost. revert ta.
  induction Hpost as [|h post [Hh Hne] _ IH]; intros ta; [reflexivity|].
  cbn [fold_left]. rewrite IH.
  destruct (enhance_frame script h ta (name +:+ ".__return__"))
    as [H|(suffix & H)]; [exact H|].
  exfalso. apply Hne. symmetry. now apply (dotted_prefix _ _ _ _ Hn Hh H).
Qed.

Lemma append_assoc_ (a b c : string) : (a +:+ b) +:+ c = a +:+ (b +:+ c).
Proof.
  induction a as [|x a IH]; [now rewrite !append_empty_l|].
  now rewrite !append_cons, IH.
Qed.

Lemma join_snoc sep (l : list string) x :
  exists before, join sep (l ++ [x]) = before +:+ x.
Proof.
  induction l as [|y l (b & IH)].
  - exists EmptyString. now rewrite append_empty_l.
  - exists (y +:+ sep +:+ b).
    change (join sep ((y :: l) ++ [x])) with (join sep (y :: (l ++ [x]))).
    unfold join in *. destruct (l ++ [x]) as [|z l'] eqn:E.
    { now destruct l. }
    change (String.concat sep (y :: z :: l'))
      with (y +:+ sep +:+ String.concat sep (z :: l')).
    rewrite IH. now rewrite !append_assoc_.
Qed.

Lemma summary_of_snoc (bits : list string) x fallback :
  truthy x = true ->
  exists before, summary_of (bits ++ [x]) fallback = before +:+ x.
Proof.
  intros Hx. unfold summary_of. rewrite filter_app, filter_cons, filter_nil.
  destruct (decide (truthy x = true)) as [_|N]; [|now elim N].
  destruct (join_snoc (NL +:+ NL) (filter (fun s => truthy s = true) bits) x)
    as (before & E).
  rewrite E. exists before.
  replace (truthy (before +:+ x)) with true; [reflexivity|].
  destruct x as [|a x]; [discriminate|].
  destruct before; [now rewrite append_empty_l|now rewrite append_cons].
Qed.

(** The entries are keyed by the bare function name, so the functions and
    methods of one name share them.  When [g] is the last function of its
    name in the order of enhancement, Jedi knows it and it has the return
    annotation [r], the chunk of every function [f] named like [g] ends its
    summary with [Return type: r], whatever [f] itself declares. *)
Theorem return_type_of_last_namesake (script : Script)
    (parsed_data : ParsedPython) (initial : gmap string TypeInfo)
    (refs : gmap string (list Reference)) (defs : gmap string TypeInfo)
    (pre post : list FunctionEntity) (f g : FunctionEntity) (r : string) :
  enhancement_order parsed_data = pre ++ g :: post ->
  located script g = true ->
  fn_return_annotation g = Some r -> truthy r = true ->
  free_of "." (fn_name g) = true ->
  Forall (fun h => free_of "." (fn_name h) = true /\ fn_name h <> fn_name g)
         post ->
  fn_name f = fn_name g ->
  let ja := {| type_annotations := enhance_all script parsed_data initial;
               references := refs; definitions := defs |} in
  exists before others,
    text_chunks (function_message ja parsed_data f)
    = (before +:+ "Return type: " +:+ r) :: others.
Proof.
  intros Ho Hl Hr Ht Hfree Hpost Hname. cbv zeta.
  assert (Hk : enhance_all script parsed_data initial
                 !! (fn_name f +:+ ".__return__") = Some (return_entry r)).
  { rewrite enhance_all_order, Ho, fold_left_app. cbn [fold_left].
    rewrite Hname, later_enhancements_keep by assumption.
    now apply enhance_return. }
  unfold function_message. cbv zeta. cbn [text_chunks type_annotations].
  rewrite Hk. cbn [declared_type return_entry]. rewrite Ht.
  rewrite !app_assoc.
  match goal with
  | |- context [summary_of (?bits ++ [?x]) ?fb] =>
      destruct (summary_of_snoc bits x fb) as (before & E);
      [reflexivity|rewrite E]
  end.
  eexists. eexists. reflexivity.
Qed.

(** A file with a function [run] returning [int] and a class [Job] whose
    method [run] returns [str]. *)
Definition run_function : FunctionEntity :=
  {| fn_name := "run"; fn_docstring := "";
     fn_signature := "def run() -> int"; fn_decorators := [];
     fn_parameters := []; fn_return_annotation := Some "int";
     fn_code_body := "def run() -> int: return 0";
     fn_pos := (Some 1%Z, Some 1%Z) |}.

Definition run_method : FunctionEntity :=
  {| fn_name := "run"; fn_docstring := "";
     fn_signature := "def run(self) -> str"; fn_decorators := [];
     fn_parameters := ["self"]; fn_return_annotation := Some "str";
     fn_code_body := "def run(self) -> str: return self.name";
     fn_pos := (Some 4%Z, Some 4%Z) |}.

Definition jobs_parsed : ParsedPython :=
  {| file_path := "jobs.py"; module_path := "jobs"; module_docstring := "";
     imports := [];
     pp_classes :=
       [ {| cls_name := "Job"; cls_docstring := ""; cls_bases := [];
            cls_decorators := []; cls_methods := [run_method];
            cls_code_body := "class Job: ..."; cls_pos := (Some 3%Z, Some 4%Z) |} ];
     pp_functions := [run_function];
     source_code := "" |}.

Definition jobs_script : Script :=
  {| get_names := Ok [("run", Some 1%Z); ("Job", Some 3%Z); ("run", Some 4%Z)];
     get_signatures := fun _ _ => Err "no signature" |}.

Lemma return_type_of_last_namesake_witness :
  exists before others,
    text_chunks
      (function_message
         {| type_annotations := enhance_all jobs_script jobs_parsed ∅;
            references := ∅; definitions := ∅ |}
         jobs_parsed run_function)
    = (before +:+ "Return type: " +:+ "str") :: others.
Proof.
  apply (return_type_of_last_namesake jobs_script jobs_parsed ∅ ∅ ∅
           [run_function] [] run_function run_method "str").
  - reflexivity.
  - vm_compute. reflexivity.
  - reflexivity.
  - reflexivity.
  - reflexivity.
  - constructor.
  - reflexivity.
Defined.

Example run_function_chunk :
  text_chunks
    (function_message
       {| type_annotations := enhance_all jobs_script jobs_parsed ∅;
          references := ∅; definitions := ∅ |}
       jobs_parsed run_function)
  = [ "Return type: str"; "def run() -> int"; "def run() -> int: return 0" ].
Proof. vm_compute. reflexivity. Qed.

End JediExtra.
